(** * International checkers: rules engine, game state and Monte-Carlo solver

    A shallow embedding of [checkers/model/util.py], [checkers/model/rules.py],
    [checkers/model/state.py] and [checkers/ai/solver.py], followed by the
    properties established about them.

    Conventions of the embedding:
    - Python [int] is [Z]; a Python [float] is an IEEE 754 binary64 number,
      [spec_float] at precision 53: [determine_score] computes with
      rounding, and converting an [int] too large for a float raises
      [OverflowError]; [statistics.mean], [max] and [math.isclose] are taken
      on the exact rational values of the scores;
    - a Python call either returns, raises, or (for the recursive and
      looping functions, which are given fuel) is cut off: [outcome];
    - the board is the list of columns of [CheckersBoard._list_2d]; the
      in-place writes of [__setitem__] are explicit board passing;
    - [random.choice] and the cancellation [Event] are read from an
      explicit [World]. *)

From Stdlib Require Import ZArith QArith Qminmax Qabs Lia Lqa Bool.
From Stdlib Require Import Floats.SpecFloat.
From stdpp Require Import base option list.

Open Scope Z_scope.

(* ================================================================== *)
(** ** Outcomes of Python calls *)

(** What a [ValueError] of this code base complains about. *)
Inductive value_error : Type :=
| NonPositiveShape      (* "Number of rows/columns must be positive" *)
| InvalidStateShape     (* the three checks of [CheckersState.__init__] *)
| NonPositivePlyCount   (* "Total ply count must be positive" *)
| IllegalMove           (* "Move ... is not legal for state ..." *)
| NonPositivePlayouts   (* "Number of playouts must be positive" *)
| InvalidEnumValue.     (* a value that is no member of an enumeration *)

Inductive exn : Type :=
| ValueError (why : value_error)
| IndexError
| AttributeError
| TypeError
| OverflowError.

Inductive outcome (A : Type) : Type :=
| Ret (a : A)
| Raise (e : exn)
| Timeout.

Arguments Ret {A} a.
Arguments Raise {A} e.
Arguments Timeout {A}.

Definition obind {A B} (m : outcome A) (f : A -> outcome B) : outcome B :=
  match m with
  | Ret a => f a
  | Raise e => Raise e
  | Timeout => Timeout
  end.

Notation "x <-- m ;; k" := (obind m (fun x => k))
  (at level 100, m at next level, right associativity).

Definition of_option {A} (e : exn) (o : option A) : outcome A :=
  match o with
  | Some a => Ret a
  | None => Raise e
  end.

(* ================================================================== *)
(** ** [checkers/model/util.py] *)

Inductive CheckersPlayer : Type := LIGHT | DARK.

Inductive CheckersPieceType : Type := MAN | KING.

Definition player_eqb (p q : CheckersPlayer) : bool :=
  match p, q with
  | LIGHT, LIGHT | DARK, DARK => true
  | _, _ => false
  end.

(** [CheckersPlayer.next]: [CheckersPlayer((self.value + 1) % len(CheckersPlayer))]. *)
Definition player_value (p : CheckersPlayer) : Z :=
  match p with LIGHT => 0 | DARK => 1 end.

Definition player_of_value (v : Z) : outcome CheckersPlayer :=
  if v =? 0 then Ret LIGHT else if v =? 1 then Ret DARK
  else Raise (ValueError InvalidEnumValue).

Definition player_next (p : CheckersPlayer) : outcome CheckersPlayer :=
  player_of_value ((player_value p + 1) mod 2).

Record CheckersPiece : Type := Piece {
  owner : CheckersPlayer;
  type : CheckersPieceType
}.

Definition sign (value : Z) : Z :=
  if 0 <? value then 1 else if value <? 0 then -1 else 0.

Record Index2D : Type := Idx {
  ix : Z;  (* column index *)
  iy : Z   (* row index *)
}.

Definition idx_sign (i : Index2D) : Index2D := Idx (sign (ix i)) (sign (iy i)).

Definition idx_eqb (a b : Index2D) : bool :=
  (ix a =? ix b) && (iy a =? iy b).

Definition idx_add (a b : Index2D) : Index2D := Idx (ix a + ix b) (iy a + iy b).

Definition idx_sub (a b : Index2D) : Index2D := Idx (ix a - ix b) (iy a - iy b).

Definition idx_mul (a : Index2D) (k : Z) : Index2D := Idx (ix a * k) (iy a * k).

(** [x in xs] for a list of squares, through [Index2D.__eq__]. *)
Definition idx_mem (a : Index2D) (l : list Index2D) : bool :=
  existsb (idx_eqb a) l.

(** Python subscription [l[i]] of a list: negative indices count from the
    end; outside [-len, len) it raises [IndexError] (here [None]). *)
Definition py_index (i : Z) (n : nat) : option nat :=
  if (0 <=? i) && (i <? Z.of_nat n) then Some (Z.to_nat i)
  else if (- Z.of_nat n <=? i) && (i <? 0) then Some (Z.to_nat (Z.of_nat n + i))
  else None.

Definition py_get {A} (l : list A) (i : Z) : option A :=
  match py_index i (length l) with
  | Some k => l !! k
  | None => None
  end.

Definition py_set {A} (l : list A) (i : Z) (v : A) : option (list A) :=
  match py_index i (length l) with
  | Some k => Some (<[k := v]> l)
  | None => None
  end.

Record CheckersBoard : Type := Board {
  row_count : Z;
  column_count : Z;
  list_2d : list (list (option CheckersPiece))
}.

(** [CheckersBoard.__init__]. *)
Definition new_board (rows columns : Z) : outcome CheckersBoard :=
  if rows <=? 0 then Raise (ValueError NonPositiveShape)
  else if columns <=? 0 then Raise (ValueError NonPositiveShape)
  else Ret (Board rows columns
              (replicate (Z.to_nat columns) (replicate (Z.to_nat rows) None))).

(** [CheckersBoard.__getitem__]: [self._list_2d[index.x][index.y]]. *)
Definition board_get (b : CheckersBoard) (i : Index2D) : outcome (option CheckersPiece) :=
  column <-- of_option IndexError (py_get (list_2d b) (ix i)) ;;
  of_option IndexError (py_get column (iy i)).

(** [CheckersBoard.__setitem__]: [self._list_2d[index.x][index.y] = piece]. *)
Definition board_set (b : CheckersBoard) (i : Index2D) (p : option CheckersPiece)
  : outcome CheckersBoard :=
  column <-- of_option IndexError (py_get (list_2d b) (ix i)) ;;
  column' <-- of_option IndexError (py_set column (iy i) p) ;;
  cols <-- of_option IndexError (py_set (list_2d b) (ix i) column') ;;
  Ret (Board (row_count b) (column_count b) cols).

(** [CheckersBoard.__contains__]. *)
Definition in_board (b : CheckersBoard) (i : Index2D) : bool :=
  (0 <=? ix i) && (ix i <? column_count b) && (0 <=? iy i) && (iy i <? row_count b).

(** The index pairs [CheckersBoard.__iter__] walks through, column by
    column: [enumerate(self._list_2d)] then [enumerate(column)]. *)
Definition column_squares (x : nat) (column : list (option CheckersPiece)) : list Index2D :=
  map (fun y => Idx (Z.of_nat x) (Z.of_nat y)) (seq 0 (length column)).

Definition board_squares (b : CheckersBoard) : list Index2D :=
  concat (imap column_squares (list_2d b)).

(** [CheckersBoard.__iter__] on a board that is not written to while it is
    iterated: the occupied cells with their index. *)
Definition column_items (x : nat) (column : list (option CheckersPiece))
  : list (Index2D * CheckersPiece) :=
  omap (fun yp => match snd yp with
                  | Some p => Some (Idx (Z.of_nat x) (Z.of_nat (fst yp)), p)
                  | None => None
                  end)
       (imap (fun y p => (y, p)) column).

Definition board_items (b : CheckersBoard) : list (Index2D * CheckersPiece) :=
  concat (imap column_items (list_2d b)).

Record CheckersJump : Type := Jump {
  destination : Index2D;
  captured_square : Index2D
}.

(** [CheckersMove]: the tuple of visited squares. *)
Definition CheckersMove : Type := list Index2D.

Definition move_origin (m : CheckersMove) : outcome Index2D :=
  of_option IndexError (head m).

Definition move_destination (m : CheckersMove) : outcome Index2D :=
  of_option IndexError (last m).

Definition move_len (m : CheckersMove) : Z := Z.of_nat (length m).

Fixpoint move_eqb (a b : CheckersMove) : bool :=
  match a, b with
  | [], [] => true
  | x :: a', y :: b' => idx_eqb x y && move_eqb a' b'
  | _, _ => false
  end.

Definition move_mem (m : CheckersMove) (l : list CheckersMove) : bool :=
  existsb (move_eqb m) l.

Record CheckersGameResult : Type := Result {
  winner : option CheckersPlayer;
  total_ply_count : Z
}.

(** The constructor with [__post_init__]'s validation. *)
Definition new_result (w : option CheckersPlayer) (plies : Z) : outcome CheckersGameResult :=
  if plies <=? 0 then Raise (ValueError NonPositivePlyCount) else Ret (Result w plies).

(* ================================================================== *)
(** ** [checkers/model/rules.py] *)

Definition DIAGONAL_DIRECTIONS : list Index2D :=
  [Idx (-1) 1; Idx 1 1; Idx 1 (-1); Idx (-1) (-1)].

Definition LIGHT_PLAYER_FORWARD_DIRECTIONS : list Index2D := [Idx (-1) 1; Idx 1 1].

Definition DARK_PLAYER_FORWARD_DIRECTIONS : list Index2D := [Idx 1 (-1); Idx (-1) (-1)].

(** A [for] loop whose body appends to a shared result list: the appended
    items, in order; the first exception ends the loop. *)
Fixpoint for_each {A B} (body : A -> outcome (list B)) (l : list A) : outcome (list B) :=
  match l with
  | [] => Ret []
  | a :: l' =>
      xs <-- body a ;;
      ys <-- for_each body l' ;;
      Ret (xs ++ ys)
  end.

Definition get_forward_directions (player : CheckersPlayer) : list Index2D :=
  match player with
  | LIGHT => LIGHT_PLAYER_FORWARD_DIRECTIONS
  | DARK => DARK_PLAYER_FORWARD_DIRECTIONS
  end.

Definition get_kings_row_index (player : CheckersPlayer) (board : CheckersBoard) : Z :=
  match player with
  | LIGHT => row_count board - 1
  | DARK => 0
  end.

(** The [while destination in board] loop of a sliding king (lines 87-93);
    [lfuel] bounds the number of iterations. *)
Fixpoint king_slide (lfuel : nat) (board : CheckersBoard) (origin dest delta : Index2D)
  : outcome (list CheckersMove) :=
  match lfuel with
  | O => Timeout
  | S lfuel' =>
      if in_board board dest then
        cell <-- board_get board dest ;;
        match cell with
        | Some _ => Ret []
        | None =>
            rest <-- king_slide lfuel' board origin (idx_add dest delta) delta ;;
            Ret ([origin; dest] :: rest)
        end
      else Ret []
  end.

Definition add_legal_non_capturing_moves (lfuel : nat) (piece_type : CheckersPieceType)
    (forward_directions : list Index2D) (origin : Index2D) (board : CheckersBoard)
  : outcome (list CheckersMove) :=
  match piece_type with
  | MAN =>
      for_each (fun delta =>
        let dest := idx_add origin delta in
        if in_board board dest then
          cell <-- board_get board dest ;;
          match cell with
          | None => Ret [[origin; dest]]
          | Some _ => Ret []
          end
        else Ret []) forward_directions
  | KING =>
      for_each (fun delta => king_slide lfuel board origin (idx_add origin delta) delta)
               DIAGONAL_DIRECTIONS
  end.

(** One direction of a man's jump (lines 143-161). *)
Definition man_jump (piece : CheckersPiece) (origin : Index2D)
    (captured_squares : list Index2D) (board : CheckersBoard) (delta : Index2D)
  : outcome (list CheckersJump) :=
  let captured := idx_add origin delta in
  if negb (in_board board captured) then Ret []
  else
    captured_piece <-- board_get board captured ;;
    match captured_piece with
    | None => Ret []
    | Some cp =>
        if player_eqb (owner cp) (owner piece) then Ret []
        else
          let dest := idx_add captured delta in
          if negb (in_board board dest) then Ret []
          else
            cell <-- board_get board dest ;;
            match cell with
            | Some _ => Ret []
            | None =>
                if idx_mem captured captured_squares then Ret []
                else Ret [Jump dest captured]
            end
    end.

(** The search for the nearest piece in one direction (lines 167-176). *)
Fixpoint nearest_piece (lfuel : nat) (board : CheckersBoard) (square delta : Index2D)
  : outcome (option (CheckersPlayer * Index2D)) :=
  match lfuel with
  | O => Timeout
  | S lfuel' =>
      if in_board board square then
        cell <-- board_get board square ;;
        match cell with
        | Some cp => Ret (Some (owner cp, square))
        | None => nearest_piece lfuel' board (idx_add square delta) delta
        end
      else Ret None
  end.

(** The landing squares behind a captured piece (lines 187-194). *)
Fixpoint king_landings (lfuel : nat) (board : CheckersBoard)
    (captured dest delta : Index2D) : outcome (list CheckersJump) :=
  match lfuel with
  | O => Timeout
  | S lfuel' =>
      if in_board board dest then
        cell <-- board_get board dest ;;
        match cell with
        | Some _ => Ret []
        | None =>
            rest <-- king_landings lfuel' board captured (idx_add dest delta) delta ;;
            Ret (Jump dest captured :: rest)
        end
      else Ret []
  end.

(** One direction of a king's jump (lines 165-194). *)
Definition king_jump (lfuel : nat) (piece : CheckersPiece) (origin : Index2D)
    (captured_squares : list Index2D) (board : CheckersBoard) (delta : Index2D)
  : outcome (list CheckersJump) :=
  found <-- nearest_piece lfuel board (idx_add origin delta) delta ;;
  match found with
  | None => Ret []
  | Some (captured_piece_owner, captured) =>
      if player_eqb captured_piece_owner (owner piece) then Ret []
      else if idx_mem captured captured_squares then Ret []
      else king_landings lfuel board captured (idx_add captured delta) delta
  end.

Definition add_legal_jumps (lfuel : nat) (piece : CheckersPiece) (origin : Index2D)
    (captured_squares : list Index2D) (board : CheckersBoard)
  : outcome (list CheckersJump) :=
  match type piece with
  | MAN => for_each (man_jump piece origin captured_squares board) DIAGONAL_DIRECTIONS
  | KING => for_each (king_jump lfuel piece origin captured_squares board) DIAGONAL_DIRECTIONS
  end.

(** The recursive capture-chain search.  [visited_squares] and
    [captured_squares] are the two lists the source appends to before the
    recursive call and pops after it; [fuel] bounds the recursion depth.
    The result is what the call appends to [moves]. *)
Fixpoint add_legal_capturing_moves (fuel lfuel : nat) (piece : CheckersPiece)
    (visited_squares captured_squares : list Index2D) (board : CheckersBoard)
  : outcome (list CheckersMove) :=
  match fuel with
  | O => Timeout
  | S fuel' =>
      origin <-- of_option IndexError (last visited_squares) ;;
      jumps <-- add_legal_jumps lfuel piece origin captured_squares board ;;
      match jumps with
      | [] =>
          if 2 <=? Z.of_nat (length visited_squares)
          then Ret [visited_squares] else Ret []
      | _ =>
          for_each (fun jump =>
            add_legal_capturing_moves fuel' lfuel piece
              (visited_squares ++ [destination jump])
              (captured_squares ++ [captured_square jump]) board) jumps
      end
  end.

(** [max(len(move) for move in moves)] of a non-empty list. *)
Definition max_move_length (moves : list CheckersMove) : Z :=
  match moves with
  | [] => 0
  | m :: ms => fold_left (fun acc m' => Z.max acc (move_len m')) ms (move_len m)
  end.

(** The capture loop of [determine_legal_moves] (lines 30-43).  The
    generator of [__iter__] reads the cells of the board that the body
    writes to, so each square is read from the current board.  Returns the
    gathered moves together with the board as the loop leaves it, also when
    it is left by an exception. *)
Fixpoint capture_loop (fuel lfuel : nat) (current_player : CheckersPlayer)
    (squares : list Index2D) (board : CheckersBoard) (moves : list CheckersMove)
  : outcome (list CheckersMove) * CheckersBoard :=
  match squares with
  | [] => (Ret moves, board)
  | square :: rest =>
      match board_get board square with
      | Ret (Some piece) =>
          if negb (player_eqb (owner piece) current_player)
          then capture_loop fuel lfuel current_player rest board moves
          else
            match board_set board square None with
            | Ret board1 =>
                match add_legal_capturing_moves fuel lfuel piece [square] [] board1 with
                | Ret added =>
                    match board_set board1 square (Some piece) with
                    | Ret board2 =>
                        capture_loop fuel lfuel current_player rest board2 (moves ++ added)
                    | Raise e => (Raise e, board1)
                    | Timeout => (Timeout, board1)
                    end
                | Raise e => (Raise e, board1)
                | Timeout => (Timeout, board1)
                end
            | Raise e => (Raise e, board)
            | Timeout => (Timeout, board)
            end
      | Ret None => capture_loop fuel lfuel current_player rest board moves
      | Raise e => (Raise e, board)
      | Timeout => (Timeout, board)
      end
  end.

(** The non-capture loop (lines 54-60). *)
Definition non_capture_loop (lfuel : nat) (current_player : CheckersPlayer)
    (board : CheckersBoard) : outcome (list CheckersMove) :=
  let forward_directions := get_forward_directions current_player in
  for_each (fun item : Index2D * CheckersPiece =>
    let (square, piece) := item in
    if negb (player_eqb (owner piece) current_player) then Ret []
    else add_legal_non_capturing_moves lfuel (type piece) forward_directions square board)
    (board_items board).

Definition determine_legal_moves (fuel lfuel : nat) (current_player : CheckersPlayer)
    (board : CheckersBoard) : outcome (list CheckersMove) * CheckersBoard :=
  match capture_loop fuel lfuel current_player (board_squares board) board [] with
  | (Ret moves, board') =>
      match moves with
      | _ :: _ =>
          let max_len := max_move_length moves in
          (Ret (filter (fun move => move_len move = max_len) moves), board')
      | [] => (non_capture_loop lfuel current_player board', board')
      end
  | (Raise e, board') => (Raise e, board')
  | (Timeout, board') => (Timeout, board')
  end.

(** The [while square != end_square] loop of [remove_pieces_between]. *)
Fixpoint remove_loop (lfuel : nat) (square end_square delta : Index2D)
    (board : CheckersBoard) : outcome unit * CheckersBoard :=
  match lfuel with
  | O => (Timeout, board)
  | S lfuel' =>
      if idx_eqb square end_square then (Ret tt, board)
      else
        match board_set board square None with
        | Ret board' => remove_loop lfuel' (idx_add square delta) end_square delta board'
        | Raise e => (Raise e, board)
        | Timeout => (Timeout, board)
        end
  end.

Definition remove_pieces_between (lfuel : nat) (start_square end_square : Index2D)
    (board : CheckersBoard) : outcome unit * CheckersBoard :=
  let delta := idx_sign (idx_sub end_square start_square) in
  remove_loop lfuel (idx_add start_square delta) end_square delta board.

(** [zip(move.visited_squares[:-1], move.visited_squares[1:])]. *)
Fixpoint consecutive_pairs (squares : list Index2D) : list (Index2D * Index2D) :=
  match squares with
  | a :: (b :: _) as rest => (a, b) :: consecutive_pairs rest
  | _ => []
  end.

Fixpoint remove_captured (lfuel : nat) (pairs : list (Index2D * Index2D))
    (board : CheckersBoard) : outcome unit * CheckersBoard :=
  match pairs with
  | [] => (Ret tt, board)
  | (previous_square, square) :: rest =>
      match remove_pieces_between lfuel previous_square square board with
      | (Ret _, board') => remove_captured lfuel rest board'
      | (Raise e, board') => (Raise e, board')
      | (Timeout, board') => (Timeout, board')
      end
  end.

(** [rules.apply]: the move is applied to the board in place. *)
Definition apply (lfuel : nat) (move : CheckersMove) (board : CheckersBoard)
  : outcome unit * CheckersBoard :=
  match move_origin move, move_destination move with
  | Ret origin, Ret dest =>
      match board_get board origin with
      | Ret cell =>
          match board_set board origin None with
          | Ret board1 =>
              match cell with
              | None => (Raise AttributeError, board1)
              | Some moving_piece =>
                  let moving_piece' :=
                    if (iy dest =? get_kings_row_index (owner moving_piece) board1)
                       && match type moving_piece with MAN => true | KING => false end
                    then Piece (owner moving_piece) KING
                    else moving_piece in
                  match remove_captured lfuel (consecutive_pairs move) board1 with
                  | (Ret _, board2) =>
                      match board_set board2 dest (Some moving_piece') with
                      | Ret board3 => (Ret tt, board3)
                      | Raise e => (Raise e, board2)
                      | Timeout => (Timeout, board2)
                      end
                  | (Raise e, board2) => (Raise e, board2)
                  | (Timeout, board2) => (Timeout, board2)
                  end
              end
          | Raise e => (Raise e, board)
          | Timeout => (Timeout, board)
          end
      | Raise e => (Raise e, board)
      | Timeout => (Timeout, board)
      end
  | Raise e, _ => (Raise e, board)
  | _, Raise e => (Raise e, board)
  | _, _ => (Timeout, board)
  end.

(** The four counters of [determine_result] (lines 281-306). *)
Record census : Type := Census {
  light_man_count : Z;
  dark_man_count : Z;
  light_king_count : Z;
  dark_king_count : Z
}.

Definition count_piece (c : census) (item : Index2D * CheckersPiece) : census :=
  let piece := snd item in
  match owner piece, type piece with
  | LIGHT, MAN =>
      Census (light_man_count c + 1) (dark_man_count c) (light_king_count c) (dark_king_count c)
  | LIGHT, KING =>
      Census (light_man_count c) (dark_man_count c) (light_king_count c + 1) (dark_king_count c)
  | DARK, MAN =>
      Census (light_man_count c) (dark_man_count c + 1) (light_king_count c) (dark_king_count c)
  | DARK, KING =>
      Census (light_man_count c) (dark_man_count c) (light_king_count c) (dark_king_count c + 1)
  end.

Definition count_pieces (board : CheckersBoard) : census :=
  fold_left count_piece (board_items board) (Census 0 0 0 0).

Definition determine_result (board : CheckersBoard) (current_player : CheckersPlayer)
    (ply_count legal_move_count : Z) : outcome (option CheckersGameResult) :=
  if legal_move_count <=? 0 then
    let winner :=
      match current_player with
      | LIGHT => DARK
      | DARK => LIGHT
      end in
    r <-- new_result (Some winner) ply_count ;;
    Ret (Some r)
  else
    let c := count_pieces board in
    if (light_man_count c =? 0) && (dark_man_count c =? 0)
       && (light_king_count c =? 1) && (dark_king_count c =? 1)
    then
      r <-- new_result None ply_count ;;
      Ret (Some r)
    else Ret None.

(* ================================================================== *)
(** ** [checkers/model/state.py] *)

Record CheckersState : Type := State {
  _board : CheckersBoard;
  _current_player : CheckersPlayer;
  _ply_count : Z;
  _cached_legal_moves : option (list CheckersMove)
}.

(** [CheckersState.__init__]. *)
Definition new_state (rows columns : Z) : outcome CheckersState :=
  if rows <? 3 then Raise (ValueError InvalidStateShape)
  else if columns <? 3 then Raise (ValueError InvalidStateShape)
  else if (rows mod 2 =? 0) && (columns mod 2 =? 1) then Raise (ValueError InvalidStateShape)
  else
    board <-- new_board rows columns ;;
    Ret (State board LIGHT 0 None).

Section Play.

(** Bounds on the recursion depth of the capture search ([fuel]) and on the
    iterations of the [while] loops of the rules ([lfuel]). *)
Variables (fuel lfuel : nat).

(** The [legal_moves] property: computed once, then read from the cache.
    A method returns its outcome and the state it leaves behind. *)
Definition legal_moves (s : CheckersState) : outcome (list CheckersMove) * CheckersState :=
  match _cached_legal_moves s with
  | Some moves => (Ret moves, s)
  | None =>
      match determine_legal_moves fuel lfuel (_current_player s) (_board s) with
      | (Ret moves, board') =>
          (Ret moves, State board' (_current_player s) (_ply_count s) (Some moves))
      | (Raise e, board') =>
          (Raise e, State board' (_current_player s) (_ply_count s) None)
      | (Timeout, board') =>
          (Timeout, State board' (_current_player s) (_ply_count s) None)
      end
  end.

(** [CheckersState.apply]. *)
Definition state_apply (s : CheckersState) (move : CheckersMove)
  : outcome unit * CheckersState :=
  match legal_moves s with
  | (Ret moves, s1) =>
      if negb (move_mem move moves) then (Raise (ValueError IllegalMove), s1)
      else
        match apply lfuel move (_board s1) with
        | (Ret _, board') =>
            match player_next (_current_player s1) with
            | Ret next =>
                (Ret tt, State board' next (_ply_count s1 + 1) None)
            | Raise e =>
                (Raise e, State board' (_current_player s1) (_ply_count s1)
                            (_cached_legal_moves s1))
            | Timeout =>
                (Timeout, State board' (_current_player s1) (_ply_count s1)
                            (_cached_legal_moves s1))
            end
        | (Raise e, board') =>
            (Raise e, State board' (_current_player s1) (_ply_count s1)
                        (_cached_legal_moves s1))
        | (Timeout, board') =>
            (Timeout, State board' (_current_player s1) (_ply_count s1)
                        (_cached_legal_moves s1))
        end
  | (Raise e, s1) => (Raise e, s1)
  | (Timeout, s1) => (Timeout, s1)
  end.

(** The [result] property. *)
Definition state_result (s : CheckersState)
  : outcome (option CheckersGameResult) * CheckersState :=
  match legal_moves s with
  | (Ret moves, s1) =>
      (determine_result (_board s1) (_current_player s1) (_ply_count s1)
         (Z.of_nat (length moves)), s1)
  | (Raise e, s1) => (Raise e, s1)
  | (Timeout, s1) => (Timeout, s1)
  end.

End Play.

(** The loop of [CheckersState.clear] (lines 58-59): every piece that the
    iteration meets is taken off the board it iterates over. *)
Fixpoint clear_loop (squares : list Index2D) (board : CheckersBoard)
  : outcome unit * CheckersBoard :=
  match squares with
  | [] => (Ret tt, board)
  | square :: rest =>
      match board_get board square with
      | Ret (Some _) =>
          match board_set board square None with
          | Ret board' => clear_loop rest board'
          | Raise e => (Raise e, board)
          | Timeout => (Timeout, board)
          end
      | Ret None => clear_loop rest board
      | Raise e => (Raise e, board)
      | Timeout => (Timeout, board)
      end
  end.

(** [CheckersState.clear]. *)
Definition state_clear (s : CheckersState) : outcome unit * CheckersState :=
  match clear_loop (board_squares (_board s)) (_board s) with
  | (Ret _, board') => (Ret tt, State board' LIGHT 0 None)
  | (Raise e, board') =>
      (Raise e, State board' (_current_player s) (_ply_count s) (_cached_legal_moves s))
  | (Timeout, board') =>
      (Timeout, State board' (_current_player s) (_ply_count s) (_cached_legal_moves s))
  end.

(** [range(start, stop)]. *)
Definition py_range (start stop : Z) : list Z :=
  map (fun k => start + Z.of_nat k) (seq 0 (Z.to_nat (stop - start))).

(** The inner loop of a placement: [for y in range(...): if (x + y) % 2 == 0: ...]. *)
Fixpoint place_column (piece : CheckersPiece) (x : Z) (ys : list Z) (board : CheckersBoard)
  : outcome unit * CheckersBoard :=
  match ys with
  | [] => (Ret tt, board)
  | y :: rest =>
      if (x + y) mod 2 =? 0 then
        match board_set board (Idx x y) (Some piece) with
        | Ret board' => place_column piece x rest board'
        | Raise e => (Raise e, board)
        | Timeout => (Timeout, board)
        end
      else place_column piece x rest board
  end.

(** The outer loop: [for x in range(column_count): for y in range(...)]. *)
Fixpoint place_rows (piece : CheckersPiece) (xs : list Z) (y_start y_stop : Z)
    (board : CheckersBoard) : outcome unit * CheckersBoard :=
  match xs with
  | [] => (Ret tt, board)
  | x :: rest =>
      match place_column piece x (py_range y_start y_stop) board with
      | (Ret _, board') => place_rows piece rest y_start y_stop board'
      | (Raise e, board') => (Raise e, board')
      | (Timeout, board') => (Timeout, board')
      end
  end.

(** [CheckersState.start_new_game]. *)
Definition state_start_new_game (s : CheckersState) : outcome unit * CheckersState :=
  match state_clear s with
  | (Ret _, s1) =>
      let board := _board s1 in
      let occupied_row_count := (row_count board - 1) / 2 in
      match place_rows (Piece LIGHT MAN) (py_range 0 (column_count board))
              0 occupied_row_count board with
      | (Ret _, board1) =>
          match place_rows (Piece DARK MAN) (py_range 0 (column_count board1))
                  (row_count board1 - occupied_row_count) (row_count board1) board1 with
          | (Ret _, board2) => (Ret tt, State board2 LIGHT 0 (_cached_legal_moves s1))
          | (Raise e, board2) =>
              (Raise e, State board2 (_current_player s1) (_ply_count s1)
                          (_cached_legal_moves s1))
          | (Timeout, board2) =>
              (Timeout, State board2 (_current_player s1) (_ply_count s1)
                          (_cached_legal_moves s1))
          end
      | (Raise e, board1) =>
          (Raise e, State board1 (_current_player s1) (_ply_count s1)
                      (_cached_legal_moves s1))
      | (Timeout, board1) =>
          (Timeout, State board1 (_current_player s1) (_ply_count s1)
                      (_cached_legal_moves s1))
      end
  | (Raise e, s1) => (Raise e, s1)
  | (Timeout, s1) => (Timeout, s1)
  end.

(* ================================================================== *)
(** ** [checkers/ai/solver.py] *)

Definition MAX_RECURSION_DEPTH : Z := 200.

(** What the solver reads from outside: the draws of [random] and the
    cancellation flag, which another thread may set at any time, so every
    [is_set()] reads the next value of an arbitrary schedule.
    [playouts_run] counts the calls of [run_playout]. *)
Record World : Type := MkWorld {
  random_draws : nat -> nat;
  draw_count : nat;
  cancel_reads : nat -> bool;
  read_count : nat;
  playouts_run : nat
}.

(** [cancelled_event.is_set()]. *)
Definition is_set (w : World) : bool * World :=
  (cancel_reads w (read_count w),
   MkWorld (random_draws w) (draw_count w) (cancel_reads w) (S (read_count w))
           (playouts_run w)).

(** [random.choice(seq)]; an empty sequence raises [IndexError]. *)
Definition random_choice {A} (l : list A) (w : World) : outcome A * World :=
  match l with
  | [] => (Raise IndexError, w)
  | _ :: _ =>
      (of_option IndexError (l !! (random_draws w (draw_count w) mod length l)%nat),
       MkWorld (random_draws w) (S (draw_count w)) (cancel_reads w) (read_count w)
               (playouts_run w))
  end.

Definition count_playout (w : World) : World :=
  MkWorld (random_draws w) (draw_count w) (cancel_reads w) (read_count w)
          (S (playouts_run w)).

(** A Python [float]: a binary64 number, every operation rounding to
    nearest, ties to even. *)
Definition float : Type := spec_float.

Definition prec : Z := 53.
Definition emax : Z := 1024.

(** The conversion of an [int] operand of a float operation: the nearest
    float, or [OverflowError] ("int too large to convert to float") when no
    finite float is nearest. *)
Definition float_of_int (n : Z) : outcome float :=
  match binary_normalize prec emax n 0 false with
  | S754_infinity _ => Raise OverflowError
  | x => Ret x
  end.

Definition float_mul (a b : float) : float := SFmul prec emax a b.
Definition float_add (a b : float) : float := SFadd prec emax a b.
Definition float_sub (a b : float) : float := SFsub prec emax a b.

(** [a < b]. *)
Definition float_lt (a b : float) : bool := SFltb a b.

(** The literals [0.001] (0x1.0624dd2f1a9fcp-10), [0.2]
    (0x1.999999999999ap-3) and [0.5]. *)
Definition float_0_001 : float := S754_finite false 4611686018427388 (-62).
Definition float_0_2 : float := S754_finite false 7205759403792794 (-55).
Definition float_0_5 : float := S754_finite false 4503599627370496 (-53).

(** [min(a, b)] keeps its first argument unless the second is smaller. *)
Definition py_min (a b : float) : float :=
  if float_lt b a then b else a.

(** The number a finite float stands for, [m * 2 ^ e] with its sign. *)
Definition float_value (x : float) : Q :=
  match x with
  | S754_finite s m e =>
      let magnitude :=
        match e with
        | Zneg k => Zpos m # (2 ^ k)
        | _ => inject_Z (Zpos m * 2 ^ e)
        end in
      if s then (- magnitude)%Q else magnitude
  | _ => 0%Q
  end.

(** [determine_score]. The products, sums and differences are those of
    floats; the [int]s [total_ply_count], 1 and 0 are converted first. *)
Definition determine_score (result : option CheckersGameResult) (player : CheckersPlayer)
  : outcome float :=
  match result with
  | None => Ret float_0_5
  | Some r =>
      total <-- float_of_int (total_ply_count r) ;;
      let game_duration_score := py_min (float_mul float_0_001 total) float_0_2 in
      match winner r with
      | None => Ret (float_add float_0_5 game_duration_score)
      | Some w =>
          if player_eqb w player then
            one <-- float_of_int 1 ;;
            Ret (float_sub one game_duration_score)
          else
            zero <-- float_of_int 0 ;;
            Ret (float_add zero game_duration_score)
      end
  end.

(** [statistics.mean] of a non-empty list: the sum of the values, added
    exactly, over their number. Python converts this fraction to the
    nearest float; the model keeps the fraction. *)
Definition mean (scores : list Q) : Q :=
  (fold_right Qplus 0 scores / inject_Z (Z.of_nat (length scores)))%Q.

(** [math.isclose(a, b, rel_tol=rel_tol, abs_tol=abs_tol)]. *)
Definition isclose (a b rel_tol abs_tol : Q) : bool :=
  Qle_bool (Qabs (a - b))
           (Qmax (rel_tol * Qmax (Qabs a) (Qabs b)) abs_tol).

(** [scores[move] = value] on a dict, kept in insertion order. *)
Fixpoint dict_set {V} (d : list (CheckersMove * V)) (key : CheckersMove) (value : V)
  : list (CheckersMove * V) :=
  match d with
  | [] => [(key, value)]
  | (k, v) :: d' =>
      if move_eqb k key then (k, value) :: d' else (k, v) :: dict_set d' key value
  end.

Section Solver.

Variables (fuel lfuel : nat).

(** Bound on the iterations of the [while True] loop of a playout. *)
Variable pfuel : nat.

(** [statistics.stdev], a function of the standard library. *)
Variable stdev : list Q -> Q.

Fixpoint playout_loop (n : nat) (state : CheckersState) (max_ply_count : Z) (w : World)
  : outcome (option CheckersGameResult) * World :=
  match n with
  | O => (Timeout, w)
  | S n' =>
      let (cancelled, w1) := is_set w in
      if cancelled then (Ret None, w1)
      else
        match state_result fuel lfuel state with
        | (Ret (Some result), _) => (Ret (Some result), w1)
        | (Ret None, state1) =>
            if max_ply_count <=? _ply_count state1 then (Ret None, w1)
            else
              match legal_moves fuel lfuel state1 with
              | (Ret moves, state2) =>
                  match random_choice moves w1 with
                  | (Ret move, w2) =>
                      match state_apply fuel lfuel state2 move with
                      | (Ret _, state3) => playout_loop n' state3 max_ply_count w2
                      | (Raise e, _) => (Raise e, w2)
                      | (Timeout, _) => (Timeout, w2)
                      end
                  | (Raise e, w2) => (Raise e, w2)
                  | (Timeout, w2) => (Timeout, w2)
                  end
              | (Raise e, _) => (Raise e, w1)
              | (Timeout, _) => (Timeout, w1)
              end
        | (Raise e, _) => (Raise e, w1)
        | (Timeout, _) => (Timeout, w1)
        end
  end.

(** [run_playout]: the loop runs on a deep copy of the passed state. *)
Definition run_playout (state : CheckersState) (max_ply_count : Z) (w : World)
  : outcome (option CheckersGameResult) * World :=
  playout_loop pfuel state max_ply_count (count_playout w).

(** The [for _ in range(playout_count)] loop (lines 79-83); [None] when
    the flag was read as set. *)
Fixpoint playouts (n : nat) (start : CheckersState) (max_ply_count : Z) (w : World)
    (playout_results : list (option CheckersGameResult))
  : outcome (option (list (option CheckersGameResult))) * World :=
  match n with
  | O => (Ret (Some playout_results), w)
  | S n' =>
      match run_playout start max_ply_count w with
      | (Ret result, w1) =>
          let (cancelled, w2) := is_set w1 in
          if cancelled then (Ret None, w2)
          else playouts n' start max_ply_count w2 (playout_results ++ [result])
      | (Raise e, w1) => (Raise e, w1)
      | (Timeout, w1) => (Timeout, w1)
      end
  end.

Definition determine_score_for_move (move : CheckersMove) (root_state : CheckersState)
    (playout_count : Z) (w : World) : outcome (option (Q * Q)) * World :=
  if playout_count <=? 0 then (Raise (ValueError NonPositivePlayouts), w)
  else
    let max_ply_count := _ply_count root_state + MAX_RECURSION_DEPTH in
    match state_apply fuel lfuel root_state move with
    | (Ret _, playout_start_state) =>
        match playouts (Z.to_nat playout_count) playout_start_state max_ply_count w [] with
        | (Ret (Some playout_results), w1) =>
            match for_each (fun result =>
                              score <-- determine_score result (_current_player root_state) ;;
                              Ret [float_value score])
                           playout_results with
            | Ret scores =>
                (Ret (Some (mean scores,
                            if 2 <=? Z.of_nat (length scores) then stdev scores else 0%Q)), w1)
            | Raise e => (Raise e, w1)
            | Timeout => (Timeout, w1)
            end
        | (Ret None, w1) => (Ret None, w1)
        | (Raise e, w1) => (Raise e, w1)
        | (Timeout, w1) => (Timeout, w1)
        end
    | (Raise e, _) => (Raise e, w)
    | (Timeout, _) => (Timeout, w)
    end.

(** The [for move in legal_moves] loop (lines 44-48); [None] when the flag
    was read as set. *)
Fixpoint score_moves (moves : list CheckersMove) (state : CheckersState)
    (playout_count_per_move : Z) (w : World)
    (scores : list (CheckersMove * option (Q * Q)))
  : outcome (option (list (CheckersMove * option (Q * Q)))) * World :=
  match moves with
  | [] => (Ret (Some scores), w)
  | move :: rest =>
      match determine_score_for_move move state playout_count_per_move w with
      | (Ret score, w1) =>
          let scores' := dict_set scores move score in
          let (cancelled, w2) := is_set w1 in
          if cancelled then (Ret None, w2)
          else score_moves rest state playout_count_per_move w2 scores'
      | (Raise e, w1) => (Raise e, w1)
      | (Timeout, w1) => (Timeout, w1)
      end
  end.

(** Unpacking [score, _] of every value of the dict; a [None] value
    cannot be unpacked. *)
Definition unpack_scores (scores : list (CheckersMove * option (Q * Q)))
  : outcome (list (CheckersMove * Q)) :=
  for_each (fun entry : CheckersMove * option (Q * Q) =>
    match snd entry with
    | Some (score, _) => Ret [(fst entry, score)]
    | None => Raise TypeError
    end) scores.

Definition pure_monte_carlo_game_search (state : CheckersState)
    (playout_count_per_move : Z) (w : World)
  : outcome (option CheckersMove) * CheckersState * World :=
  match legal_moves fuel lfuel state with
  | (Ret moves, state1) =>
      match moves with
      | [] => (Ret None, state1, w)
      | [move] => (Ret (Some move), state1, w)
      | _ =>
          match score_moves moves state1 playout_count_per_move w [] with
          | (Ret (Some scores), w1) =>
              match unpack_scores scores with
              | Ret means =>
                  let best_score :=
                    match means with
                    | [] => 0%Q
                    | (_, s) :: rest => fold_left (fun acc e => Qmax acc (snd e)) rest s
                    end in
                  let best_moves :=
                    map fst (List.filter (fun e : CheckersMove * Q =>
                               isclose (snd e) best_score (1 # 100000) (1 # 100000)) means) in
                  match random_choice best_moves w1 with
                  | (Ret move, w2) => (Ret (Some move), state1, w2)
                  | (Raise e, w2) => (Raise e, state1, w2)
                  | (Timeout, w2) => (Timeout, state1, w2)
                  end
              | Raise e => (Raise e, state1, w1)
              | Timeout => (Timeout, state1, w1)
              end
          | (Ret None, w1) => (Ret None, state1, w1)
          | (Raise e, w1) => (Raise e, state1, w1)
          | (Timeout, w1) => (Timeout, state1, w1)
          end
      end
  | (Raise e, state1) => (Raise e, state1, w)
  | (Timeout, state1) => (Timeout, state1, w)
  end.

End Solver.

(* ================================================================== *)
(** ** [checkers/model/move_selectors.py] *)

Section RandomSelector.

Variables (fuel lfuel : nat).

(** [RandomCheckersMoveSelector.start]: the new value of [_selected_move]
    (the selector has no other field), with the state, whose cache the two
    reads of [legal_moves] may fill, and the world. *)
Definition random_selector_start (state : CheckersState) (w : World)
  : outcome (option CheckersMove) * CheckersState * World :=
  match legal_moves fuel lfuel state with
  | (Ret moves, state1) =>
      match moves with
      | [] => (Ret None, state1, w)
      | _ :: _ =>
          match legal_moves fuel lfuel state1 with
          | (Ret moves', state2) =>
              match random_choice moves' w with
              | (Ret move, w') => (Ret (Some move), state2, w')
              | (Raise e, w') => (Raise e, state2, w')
              | (Timeout, w') => (Timeout, state2, w')
              end
          | (Raise e, state2) => (Raise e, state2, w)
          | (Timeout, state2) => (Timeout, state2, w)
          end
      end
  | (Raise e, state1) => (Raise e, state1, w)
  | (Timeout, state1) => (Timeout, state1, w)
  end.

End RandomSelector.

(* ================================================================== *)
(** ** [checkers/gui/input.py] *)

(** The fields of a [UserCheckersMoveSelector]; the set of selectable
    squares is a list without repetitions. *)
Record UserCheckersMoveSelector : Type := UserSelector {
  _selectable_moves : list CheckersMove;
  _selectable_squares : list Index2D;
  _selected_squares : list Index2D;
  _selected_move : option CheckersMove
}.

(** A method of the selector ends normally or on a failed [assert]. *)
Inductive asserted (A : Type) : Type :=
| Passed (a : A)
| AssertionError.

Arguments Passed {A} a.
Arguments AssertionError {A}.

(** [set.add]. *)
Definition set_add (square : Index2D) (squares : list Index2D) : list Index2D :=
  if idx_mem square squares then squares else squares ++ [square].

(** Truth value of an optional move: [None] is false, and so is a move
    without squares, as [CheckersMove] defines [__len__]. *)
Definition move_is_true (move : option CheckersMove) : bool :=
  match move with
  | Some (_ :: _) => true
  | _ => false
  end.

(** The comparison loop of lines 97-101, for a move that is long enough:
    do the first squares of [move] equal the selected squares? *)
Fixpoint starts_with (move : CheckersMove) (selected : list Index2D) : bool :=
  match selected, move with
  | [], _ => true
  | s :: selected', m :: move' => idx_eqb m s && starts_with move' selected'
  | _ :: _, [] => false
  end.

Definition matching_moves (moves : list CheckersMove) (selected : list Index2D)
  : list CheckersMove :=
  List.filter (fun move =>
    negb (Z.of_nat (length move) <? Z.of_nat (length selected))
    && starts_with move selected) moves.

(** The first matching move that is as long as the selection (line 105-106). *)
Definition complete_move (matching : list CheckersMove) (n : nat) : option CheckersMove :=
  List.find (fun move => Z.of_nat (length move) =? Z.of_nat n) matching.

(** The last loop (lines 115-116); a move is longer than the selection
    here, [visited_squares[n]] exists. *)
Fixpoint next_squares (matching : list CheckersMove) (n : nat) (squares : list Index2D)
  : list Index2D :=
  match matching with
  | [] => squares
  | move :: rest =>
      match move !! n with
      | Some square => next_squares rest n (set_add square squares)
      | None => next_squares rest n squares
      end
  end.

(** [UserCheckersMoveSelector._update_selectable_squares]. *)
Definition update_selectable_squares (u : UserCheckersMoveSelector)
  : asserted UserCheckersMoveSelector :=
  if move_is_true (_selected_move u) then Passed u
  else
    match _selectable_moves u with
    | [] => Passed (UserSelector [] [] (_selected_squares u) (_selected_move u))
    | _ :: _ =>
        let matching := matching_moves (_selectable_moves u) (_selected_squares u) in
        let n := length (_selected_squares u) in
        match matching with
        | [] => AssertionError
        | _ :: _ =>
            match complete_move matching n with
            | Some move =>
                match matching with
                | [_] => Passed (UserSelector (_selectable_moves u) [] [] (Some move))
                | _ => AssertionError
                end
            | None =>
                Passed (UserSelector (_selectable_moves u) (next_squares matching n [])
                          (_selected_squares u) (_selected_move u))
            end
        end
    end.

(** [UserCheckersMoveSelector.reset]. *)
Definition user_reset (u : UserCheckersMoveSelector) : UserCheckersMoveSelector :=
  UserSelector [] [] [] None.

(** [UserCheckersMoveSelector.start], given the legal moves of the state. *)
Definition user_start (u : UserCheckersMoveSelector) (moves : list CheckersMove)
  : asserted UserCheckersMoveSelector :=
  update_selectable_squares (UserSelector moves [] [] None).

(** [UserCheckersMoveSelector.select]. *)
Definition user_select (u : UserCheckersMoveSelector) (square : Index2D)
  : asserted UserCheckersMoveSelector :=
  match _selectable_squares u with
  | [] => Passed u
  | _ :: _ =>
      if idx_mem square (_selectable_squares u) then
        update_selectable_squares
          (UserSelector (_selectable_moves u) (_selectable_squares u)
             (_selected_squares u ++ [square]) (_selected_move u))
      else
        update_selectable_squares
          (UserSelector (_selectable_moves u) (_selectable_squares u) [] None)
  end.

(* ================================================================== *)
(** ** Notions used to state the properties *)

(** The player that is not [p]. *)
Definition other_player (p : CheckersPlayer) : CheckersPlayer :=
  match p with
  | LIGHT => DARK
  | DARK => LIGHT
  end.

(** The shape invariant that [CheckersBoard.__init__] establishes and that
    [__setitem__] keeps: [column_count] columns of [row_count] cells. *)
Definition wf_board (b : CheckersBoard) : Prop :=
  0 < row_count b /\ 0 < column_count b /\
  length (list_2d b) = Z.to_nat (column_count b) /\
  Forall (fun column => length column = Z.to_nat (row_count b)) (list_2d b).

(** The number of pieces of one player and one type on a board. *)
Definition piece_count (player : CheckersPlayer) (kind : CheckersPieceType)
    (board : CheckersBoard) : Z :=
  Z.of_nat (length (List.filter
    (fun item : Index2D * CheckersPiece =>
       player_eqb (owner (snd item)) player
       && match type (snd item), kind with
          | MAN, MAN | KING, KING => true
          | _, _ => false
          end)
    (board_items board))).

(** King against king: no men, one king each. *)
Definition king_versus_king (board : CheckersBoard) : Prop :=
  piece_count LIGHT MAN board = 0 /\ piece_count DARK MAN board = 0 /\
  piece_count LIGHT KING board = 1 /\ piece_count DARK KING board = 1.

Definition returns {A} (o : outcome A) : Prop := exists a, o = Ret a.

(** Directions that advance by one column per step. *)
Definition unit_step (delta : Index2D) : Prop := ix delta = 1 \/ ix delta = -1.

(** Columns left before a walk from [square] along [delta] leaves the board. *)
Definition steps_left (b : CheckersBoard) (square delta : Index2D) : Z :=
  if ix delta =? 1 then column_count b - ix square else ix square + 1.

(** A jump of [piece] from [origin] that [add_legal_jumps] may offer: it
    captures a square not captured before that holds a piece of the other
    player, and lands beyond it on the same diagonal. *)
Definition legal_jump (board : CheckersBoard) (piece : CheckersPiece) (origin : Index2D)
    (captured_squares : list Index2D) (jump : CheckersJump) : Prop :=
  idx_mem (captured_square jump) captured_squares = false
  /\ in_board board (captured_square jump) = true
  /\ (exists cp, board_get board (captured_square jump) = Ret (Some cp)
                 /\ player_eqb (owner cp) (owner piece) = false)
  /\ (exists delta k n, delta ∈ DIAGONAL_DIRECTIONS /\ 0 < k < n
        /\ captured_square jump = idx_add origin (idx_mul delta k)
        /\ destination jump = idx_add origin (idx_mul delta n)).

(** Does [square] hold a piece of the player opposing [piece]? *)
Definition holds_opponent (board : CheckersBoard) (piece : CheckersPiece)
    (square : Index2D) : bool :=
  match board_get board square with
  | Ret (Some cp) => negb (player_eqb (owner cp) (owner piece))
  | _ => false
  end.

(** The number of squares with an opposing piece that is not captured yet:
    the bound on the depth of the capture search. *)
Definition opponents_left (piece : CheckersPiece) (captured_squares : list Index2D)
    (board : CheckersBoard) : nat :=
  length (List.filter
    (fun square => holds_opponent board piece square
                   && negb (idx_mem square captured_squares))
    (board_squares board)).

(** A step from [a] to [b] along a diagonal that passes over a square
    holding a piece of a player other than [player]. *)
Definition jumps_over (board : CheckersBoard) (player : CheckersPlayer)
    (a b : Index2D) : Prop :=
  exists delta k n cp,
    delta ∈ DIAGONAL_DIRECTIONS /\ 0 < k < n
    /\ b = idx_add a (idx_mul delta n)
    /\ board_get board (idx_add a (idx_mul delta k)) = Ret (Some cp)
    /\ player_eqb (owner cp) player = false.

Fixpoint capture_chain (board : CheckersBoard) (player : CheckersPlayer)
    (a : Index2D) (rest : list Index2D) : Prop :=
  match rest with
  | [] => True
  | b :: rest' => jumps_over board player a b /\ capture_chain board player b rest'
  end.

(** A capturing move: at least one step, and every step jumps over an
    opposing piece. *)
Definition capturing_move (board : CheckersBoard) (player : CheckersPlayer)
    (move : CheckersMove) : Prop :=
  match move with
  | a :: (_ :: _) as rest => capture_chain board player a rest
  | _ => False
  end.

(** The piece that a moving [piece] is put down as on [dest]: the same
    owner, a king if it reached the far row of its owner or was one. *)
Definition promoted (board : CheckersBoard) (piece : CheckersPiece) (dest : Index2D)
  : CheckersPiece :=
  Piece (owner piece)
        (if iy dest =? get_kings_row_index (owner piece) board then KING else type piece).

(** A quiet (non-capturing) move of [player]: one of its pieces goes [n]
    steps along a diagonal over empty squares of the board; a man goes a
    single step in one of its forward directions. *)
Definition quiet_move (board : CheckersBoard) (player : CheckersPlayer)
    (move : CheckersMove) : Prop :=
  exists origin piece delta n,
    move = [origin; idx_add origin (idx_mul delta n)]
    /\ (origin, piece) ∈ board_items board /\ owner piece = player
    /\ 1 <= n
    /\ match type piece with
       | MAN => n = 1 /\ delta ∈ get_forward_directions player
       | KING => delta ∈ DIAGONAL_DIRECTIONS
       end
    /\ (forall k, 1 <= k <= n ->
          in_board board (idx_add origin (idx_mul delta k)) = true
          /\ board_get board (idx_add origin (idx_mul delta k)) = Ret None).

(** A move that starts on a square holding a piece of [player] and visits
    at least two squares. *)
Definition starts_on_own_piece (board : CheckersBoard) (player : CheckersPlayer)
    (move : CheckersMove) : Prop :=
  (2 <= length move)%nat
  /\ exists origin piece,
       head move = Some origin /\ board_get board origin = Ret (Some piece)
       /\ owner piece = player.

(** A cancellation flag that reads as set from now on. *)
Definition always_cancelled (w : World) : Prop := forall k, cancel_reads w k = true.

(** The piece on a square of the starting position of a board with [rows]
    rows: men on the squares with [(x + y) mod 2 = 0] of the first
    [(rows - 1) / 2] rows (light) and of the last as many rows (dark). *)
Definition starting_piece (rows : Z) (sq : Index2D) : option CheckersPiece :=
  if (ix sq + iy sq) mod 2 =? 0 then
    if iy sq <? (rows - 1) / 2 then Some (Piece LIGHT MAN)
    else if rows - (rows - 1) / 2 <=? iy sq then Some (Piece DARK MAN)
    else None
  else None.

(** A sequence of calls of [select], one per clicked square. *)
Fixpoint click_through (u : UserCheckersMoveSelector) (squares : list Index2D)
  : asserted UserCheckersMoveSelector :=
  match squares with
  | [] => Passed u
  | square :: rest =>
      match user_select u square with
      | Passed u' => click_through u' rest
      | AssertionError => AssertionError
      end
  end.

(** The selector after the squares [pre] of a move have been selected. *)
Definition selecting (moves : list CheckersMove) (pre : list Index2D)
  : UserCheckersMoveSelector :=
  UserSelector moves (next_squares (matching_moves moves pre) (length pre) []) pre None.

(** A step from [a] to [c] along a diagonal whose squares, up to and
    including [c], are all on the board. *)
Definition in_board_segment (board : CheckersBoard) (a c : Index2D) : Prop :=
  exists delta n,
    delta ∈ DIAGONAL_DIRECTIONS /\ 1 <= n /\ c = idx_add a (idx_mul delta n)
    /\ forall i, 1 <= i <= n -> in_board board (idx_add a (idx_mul delta i)) = true.

Fixpoint segments (board : CheckersBoard) (a : Index2D) (rest : list Index2D) : Prop :=
  match rest with
  | [] => True
  | c :: rest' => in_board_segment board a c /\ segments board c rest'
  end.

(** A move that [apply] can carry out: it starts on an occupied square of
    the board and proceeds by segments that stay on the board. *)
Definition applicable (board : CheckersBoard) (move : CheckersMove) : Prop :=
  exists a ext piece,
    move = a :: ext /\ ext <> [] /\ in_board board a = true
    /\ board_get board a = Ret (Some piece) /\ segments board a ext.

(** The cache of a state, when filled, holds the legal moves of its board
    and player. *)
Definition cache_valid (fuel lfuel : nat) (s : CheckersState) : Prop :=
  forall moves, _cached_legal_moves s = Some moves ->
    exists board', determine_legal_moves fuel lfuel (_current_player s) (_board s)
                   = (Ret moves, board').

(** [max(score for score, _ in scores.values())], as the search computes it. *)
Definition best_score (means : list (CheckersMove * Q)) : Q :=
  match means with
  | [] => 0%Q
  | (_, s) :: rest => fold_left (fun acc e => Qmax acc (snd e)) rest s
  end.

(** *** Scores as floats *)

(** The least [int] that no longer converts to a float. *)
Definition FLOAT_OVERFLOW : Z := 2 ^ 1024 - 2 ^ 970.

(** [game_duration_score] of [determine_score] after [t] plies. *)
Definition game_duration_score (t : Z) : outcome float :=
  total <-- float_of_int t ;;
  Ret (py_min (float_mul float_0_001 total) float_0_2).

(** [min(0.001 * t, 0.2)] in exact arithmetic. *)
Definition exact_duration_score (t : Z) : Q :=
  Qmin ((1 # 1000) * inject_Z t) (2 # 10).

(** A float that is a number: neither an infinity nor a NaN. *)
Definition float_finite (x : float) : bool :=
  match x with
  | S754_zero _ | S754_finite _ _ _ => true
  | _ => false
  end.

(** Half the distance between 1 and the next float, [2 ^ -53]. *)
Definition rounding_unit : Q := 1 # (2 ^ 53).

Definition float_eqb (a b : float) : bool :=
  match a, b with
  | S754_zero s, S754_zero s' => Bool.eqb s s'
  | S754_infinity s, S754_infinity s' => Bool.eqb s s'
  | S754_nan, S754_nan => true
  | S754_finite s m e, S754_finite s' m' e' => Bool.eqb s s' && Pos.eqb m m' && Z.eqb e e'
  | _, _ => false
  end.

Definition Qlt_bool (a b : Q) : bool := negb (Qle_bool b a).

(** The scores of a draw, of a win of the player and of a loss, all after
    [t] plies. *)
Definition scores_after (t : Z) : outcome (float * float * float) :=
  draw <-- determine_score (Some (Result None t)) LIGHT ;;
  win <-- determine_score (Some (Result (Some LIGHT) t)) LIGHT ;;
  loss <-- determine_score (Some (Result (Some DARK) t)) LIGHT ;;
  Ret (draw, win, loss).

(** What the scores after [t] plies are checked for: each lies within
    [rounding_unit] of the exact formula and inside its band. *)
Definition scores_in_bands (t : Z) (draw win loss : float) : Prop :=
  (Qabs (float_value draw - ((5 # 10) + exact_duration_score t)) <= rounding_unit)%Q
  /\ (Qabs (float_value win - (1 - exact_duration_score t)) <= rounding_unit)%Q
  /\ (Qabs (float_value loss - (0 + exact_duration_score t)) <= rounding_unit)%Q
  /\ (0 < float_value loss)%Q
  /\ (float_value loss <= float_value float_0_2)%Q
  /\ (5 # 10 < float_value draw)%Q
  /\ (float_value draw <= 7 # 10)%Q
  /\ (8 # 10 <= float_value win)%Q
  /\ (float_value win < 1)%Q.

Definition check_scores (t : Z) : bool :=
  match scores_after t with
  | Ret (draw, win, loss) =>
      Qle_bool (Qabs (float_value draw - ((5 # 10) + exact_duration_score t))) rounding_unit
      && Qle_bool (Qabs (float_value win - (1 - exact_duration_score t))) rounding_unit
      && Qle_bool (Qabs (float_value loss - (0 + exact_duration_score t))) rounding_unit
      && Qlt_bool 0 (float_value loss)
      && Qle_bool (float_value loss) (float_value float_0_2)
      && Qlt_bool (5 # 10) (float_value draw)
      && Qle_bool (float_value draw) (7 # 10)
      && Qle_bool (8 # 10) (float_value win)
      && Qlt_bool (float_value win) 1
  | _ => false
  end.

(** One more ply lowers the score of a win and raises that of a loss. *)
Definition check_step (t : Z) : bool :=
  match scores_after t, scores_after (t + 1) with
  | Ret (_, win, loss), Ret (_, win', loss') =>
      Qlt_bool (float_value win') (float_value win)
      && Qlt_bool (float_value loss) (float_value loss')
  | _, _ => false
  end.

Definition check_cap (t : Z) : bool :=
  match game_duration_score t with
  | Ret g => float_eqb g float_0_2
  | _ => false
  end.

(** Sample positions on a 4 x 4 board (columns listed first). *)
Definition light_man : option CheckersPiece := Some (Piece LIGHT MAN).
Definition dark_man : option CheckersPiece := Some (Piece DARK MAN).
Definition light_king : option CheckersPiece := Some (Piece LIGHT KING).
Definition dark_king : option CheckersPiece := Some (Piece DARK KING).

(** A light man on (0,0) that can jump the dark man on (1,1). *)
Definition capture_board : CheckersBoard :=
  Board 4 4 [[light_man; None; None; None];
             [None; dark_man; None; None];
             [None; None; None; None];
             [None; None; None; None]].

(** A lone light man on (1,0): two quiet moves, no capture. *)
Definition quiet_board : CheckersBoard :=
  Board 4 4 [[None; None; None; None];
             [light_man; None; None; None];
             [None; None; None; None];
             [None; None; None; None]].

(** One king each. *)
Definition kings_board : CheckersBoard :=
  Board 4 4 [[light_king; None; None; None];
             [None; None; None; None];
             [None; None; None; None];
             [None; None; None; dark_king]].

Definition empty_board : CheckersBoard :=
  Board 4 4 [[None; None; None; None];
             [None; None; None; None];
             [None; None; None; None];
             [None; None; None; None]].

(** The result of a game won by [player] after [plies] plies. *)
Definition win_at (player : CheckersPlayer) (plies : Z) : option CheckersGameResult :=
  Some (Result (Some player) plies).

Definition quiet_world : World :=
  MkWorld (fun _ => 0%nat) 0 (fun _ => false) 0 0.

Definition no_stdev (scores : list Q) : Q := 0%Q.

(* ================================================================== *)
(** ** Properties of [determine_result] *)

(** C2, as stated, fails when the ply count is 0: the result cannot be
    constructed, [__post_init__] rejects a total ply count of 0. *)
Lemma determine_result_no_moves_ply_zero :
  ~ (exists r, determine_result empty_board LIGHT 0 0 = Ret (Some r)
               /\ winner r = Some DARK /\ total_ply_count r = 0).
Proof.
  intros [r [H _]]. vm_compute in H. discriminate H.
Qed.

(** C2 (amended): when there is no legal move and the ply count is
    positive, the result names the other player as winner and carries the
    passed ply count. *)
Theorem determine_result_no_moves (board : CheckersBoard) (current_player : CheckersPlayer)
    (ply_count legal_move_count : Z) :
  legal_move_count = 0 -> 0 < ply_count ->
  determine_result board current_player ply_count legal_move_count
  = Ret (Some (Result (Some (other_player current_player)) ply_count)).
Proof.
  intros -> Hply. unfold determine_result, new_result. simpl.
  destruct (ply_count <=? 0) eqn:E; [apply Z.leb_le in E; lia|].
  destruct current_player; reflexivity.
Qed.

Lemma determine_result_no_moves_witness :
  determine_result empty_board DARK 7 0 = Ret (Some (Result (Some (other_player DARK)) 7)).
Proof.
  apply (determine_result_no_moves empty_board DARK 7 0); [reflexivity | lia].
Defined.

Lemma count_pieces_fold (items : list (Index2D * CheckersPiece)) (c : census) :
  let n player kind := Z.of_nat (length (List.filter
        (fun item : Index2D * CheckersPiece =>
           player_eqb (owner (snd item)) player
           && match type (snd item), kind with
              | MAN, MAN | KING, KING => true
              | _, _ => false
              end) items)) in
  fold_left count_piece items c
  = Census (light_man_count c + n LIGHT MAN) (dark_man_count c + n DARK MAN)
           (light_king_count c + n LIGHT KING) (dark_king_count c + n DARK KING).
Proof.
  cbv zeta. revert c. induction items as [|[sq [o t]] items IH]; intros c.
  - simpl. destruct c; simpl. f_equal; lia.
  - simpl fold_left. rewrite IH. unfold count_piece.
    destruct o, t; simpl; f_equal; lia.
Qed.

Lemma count_pieces_spec (board : CheckersBoard) :
  count_pieces board
  = Census (piece_count LIGHT MAN board) (piece_count DARK MAN board)
           (piece_count LIGHT KING board) (piece_count DARK KING board).
Proof.
  unfold count_pieces. rewrite count_pieces_fold. reflexivity.
Qed.

(** C7: with at least one legal move and a positive ply count, a position
    of one king each and no men is a draw carrying the ply count, whoever
    is to move; every other census gives no result. *)
Theorem determine_result_king_versus_king (board : CheckersBoard)
    (current_player : CheckersPlayer) (ply_count legal_move_count : Z) :
  0 < legal_move_count -> 0 < ply_count ->
  (king_versus_king board ->
   determine_result board current_player ply_count legal_move_count
   = Ret (Some (Result None ply_count)))
  /\ (~ king_versus_king board ->
      determine_result board current_player ply_count legal_move_count = Ret None).
Proof.
  intros Hmoves Hply. unfold determine_result, new_result.
  destruct (legal_move_count <=? 0) eqn:E; [apply Z.leb_le in E; lia|].
  destruct (ply_count <=? 0) eqn:E'; [apply Z.leb_le in E'; lia|].
  rewrite count_pieces_spec. simpl. unfold king_versus_king. split.
  - intros (-> & -> & -> & ->). reflexivity.
  - intros Hno.
    destruct (piece_count LIGHT MAN board =? 0) eqn:E1; [|reflexivity].
    destruct (piece_count DARK MAN board =? 0) eqn:E2; [|reflexivity].
    destruct (piece_count LIGHT KING board =? 1) eqn:E3; [|reflexivity].
    destruct (piece_count DARK KING board =? 1) eqn:E4; [|reflexivity].
    exfalso. apply Hno. repeat split; apply Z.eqb_eq; assumption.
Qed.

Lemma determine_result_king_versus_king_witness :
  determine_result kings_board DARK 12 3 = Ret (Some (Result None 12)).
Proof.
  apply (determine_result_king_versus_king kings_board DARK 12 3); [lia | lia |].
  repeat split.
Defined.

(* ================================================================== *)
(** ** Rounding to a float *)

Lemma digits2_pos_bounds (p : positive) :
  2 ^ (Zpos (digits2_pos p) - 1) <= Zpos p < 2 ^ Zpos (digits2_pos p).
Proof.
  induction p as [p IH|p IH|]; cbn [digits2_pos].
  - rewrite Pos2Z.inj_succ.
    replace (Z.succ (Zpos (digits2_pos p)) - 1) with (Z.succ (Zpos (digits2_pos p) - 1)) by lia.
    rewrite !Z.pow_succ_r by lia. lia.
  - rewrite Pos2Z.inj_succ.
    replace (Z.succ (Zpos (digits2_pos p)) - 1) with (Z.succ (Zpos (digits2_pos p) - 1)) by lia.
    rewrite !Z.pow_succ_r by lia. lia.
  - simpl. lia.
Qed.

Lemma digits2_pos_unique (p : positive) (k : Z) :
  2 ^ (k - 1) <= Zpos p < 2 ^ k -> Zpos (digits2_pos p) = k.
Proof.
  intros [Hlo Hhi].
  pose proof (digits2_pos_bounds p) as [Hl Hh].
  assert (0 < k).
  { destruct (Z_lt_le_dec 0 k) as [|Hk]; [assumption|].
    assert (2 ^ k <= 2 ^ 0) by (destruct (Z.eq_dec k 0) as [->|];
      [lia | rewrite Z.pow_neg_r by lia; simpl; lia]).
    simpl in *. lia. }
  destruct (Z.lt_trichotomy (Zpos (digits2_pos p)) k) as [Hlt|[Heq|Hgt]]; [|assumption|].
  - assert (2 ^ Zpos (digits2_pos p) <= 2 ^ (k - 1)) by (apply Z.pow_le_mono_r; lia). lia.
  - assert (2 ^ k <= 2 ^ (Zpos (digits2_pos p) - 1)) by (apply Z.pow_le_mono_r; lia). lia.
Qed.

Lemma iter_pos_iter {A} (f : A -> A) (p : positive) (x : A) :
  SpecFloat.iter_pos f p x = Pos.iter f x p.
Proof.
  revert x. induction p as [p IH|p IH|]; intros x; cbn [SpecFloat.iter_pos Pos.iter].
  - rewrite !IH. rewrite !Pos.iter_swap. reflexivity.
  - rewrite !IH. reflexivity.
  - reflexivity.
Qed.

Lemma shr_1_m (mrs : shr_record) :
  0 <= shr_m mrs -> shr_m (shr_1 mrs) = shr_m mrs / 2.
Proof.
  destruct mrs as [m r s]. cbn [shr_m]. intros Hm.
  rewrite <- Z.div2_div.
  destruct m as [|[p|p|]|p]; try reflexivity; lia.
Qed.

Lemma shr_iter_m (p : positive) (mrs : shr_record) :
  0 <= shr_m mrs -> shr_m (SpecFloat.iter_pos shr_1 p mrs) = shr_m mrs / 2 ^ Zpos p.
Proof.
  intros Hm. rewrite iter_pos_iter.
  induction p as [|p IH] using Pos.peano_ind.
  - cbn [Pos.iter]. rewrite shr_1_m by assumption. reflexivity.
  - rewrite Pos.iter_succ, shr_1_m.
    + rewrite IH, Pos2Z.inj_succ, Z.pow_succ_r by lia.
      rewrite Z.div_div by (try apply Z.pow_pos_nonneg; lia).
      f_equal. lia.
    + rewrite IH. apply Z.div_pos; [assumption|]. apply Z.pow_pos_nonneg; lia.
Qed.

Lemma shr_1_r (mrs : shr_record) :
  0 <= shr_m mrs -> shr_r (shr_1 mrs) = Z.odd (shr_m mrs).
Proof.
  destruct mrs as [m r s]. cbn [shr_m]. intros Hm.
  destruct m as [|[p|p|]|p]; try reflexivity; lia.
Qed.

Lemma shr_iter_r (p : positive) (mrs : shr_record) :
  0 <= shr_m mrs ->
  shr_r (SpecFloat.iter_pos shr_1 p mrs) = Z.odd (shr_m mrs / 2 ^ (Zpos p - 1)).
Proof.
  intros Hm.
  destruct (Pos.eq_dec p 1%positive) as [->|Hp].
  - cbn [SpecFloat.iter_pos]. rewrite shr_1_r by assumption.
    change (2 ^ (1 - 1)) with 1. rewrite Z.div_1_r. reflexivity.
  - destruct (Pos.succ_pred_or p) as [|Hs]; [contradiction|].
    rewrite <- Hs at 1. rewrite iter_pos_iter, Pos.iter_succ, <- iter_pos_iter.
    rewrite shr_1_r.
    + rewrite shr_iter_m by assumption. f_equal. f_equal. f_equal. lia.
    + rewrite shr_iter_m by assumption. apply Z.div_pos; [assumption|].
      apply Z.pow_pos_nonneg; lia.
Qed.

Lemma shr_record_of_loc_m (m : Z) (l : location) : shr_m (shr_record_of_loc m l) = m.
Proof. destruct l as [|[]]; reflexivity. Qed.

(** The first shift of [binary_round_aux] on a mantissa of at least 53
    digits in the normal range. *)
Lemma shr_fexp_normal (m : positive) (e : Z) (l : location) :
  let d := Zpos (digits2_pos m) in
  53 <= d -> -1074 <= d + e - 53 ->
  exists mrs, shr_fexp prec emax (Zpos m) e l = (mrs, d + e - 53)
              /\ shr_m mrs = Zpos m / 2 ^ (d - 53)
              /\ (l = loc_Exact ->
                  shr_r mrs = (53 <? d) && Z.odd (Zpos m / 2 ^ (d - 54))).
Proof.
  intros d Hd He. unfold shr_fexp, fexp, emin, prec, emax, Zdigits2.
  fold d.
  replace (Z.max (d + e - 53) (3 - 1024 - 53)) with (d + e - 53) by lia.
  destruct (d + e - 53 - e) as [|p|p] eqn:Hn; cbn [shr].
  - exists (shr_record_of_loc (Zpos m) l). split; [f_equal; lia|]. split.
    + rewrite shr_record_of_loc_m. replace (d - 53) with 0 by lia.
      rewrite Z.pow_0_r, Z.div_1_r. reflexivity.
    + intros ->. replace (53 <? d) with false by (symmetry; apply Z.ltb_ge; lia).
      reflexivity.
  - exists (SpecFloat.iter_pos shr_1 p (shr_record_of_loc (Zpos m) l)). split; [f_equal; lia|].
    split.
    + rewrite shr_iter_m by (rewrite shr_record_of_loc_m; lia).
      rewrite shr_record_of_loc_m. f_equal. f_equal. lia.
    + intros ->. replace (53 <? d) with true by (symmetry; apply Z.ltb_lt; lia).
      rewrite shr_iter_r by (cbn; lia). cbn [shr_record_of_loc shr_m andb].
      f_equal. f_equal. f_equal. lia.
  - lia.
Qed.

Lemma round_nearest_even_cases (mx : Z) (l : location) :
  round_nearest_even mx l = mx \/ round_nearest_even mx l = mx + 1.
Proof.
  destruct l as [|[]]; cbn [round_nearest_even]; auto.
  destruct (Z.even mx); auto.
Qed.

Lemma round_nearest_even_down (mrs : shr_record) :
  shr_r mrs = false -> round_nearest_even (shr_m mrs) (loc_of_shr_record mrs) = shr_m mrs.
Proof. destruct mrs as [m [] []]; cbn; congruence. Qed.

Lemma round_nearest_even_up (mrs : shr_record) :
  shr_r mrs = true -> Z.odd (shr_m mrs) = true ->
  round_nearest_even (shr_m mrs) (loc_of_shr_record mrs) = shr_m mrs + 1.
Proof.
  destruct mrs as [m [] []]; cbn; try congruence.
  intros _ Hodd. rewrite <- Z.negb_odd, Hodd. reflexivity.
Qed.

(** Rounding a positive mantissa of at least 53 digits in the normal
    range. [q] is the mantissa cut to 53 digits and [r] the rounded one; a
    carry to [2 ^ 53] is renormalised. From an exact location the round bit
    decides: unset rounds down, set rounds an odd [q] up. *)
Lemma binary_round_aux_normal (s : bool) (m : positive) (e : Z) (l : location) :
  let d := Zpos (digits2_pos m) in
  let q := Zpos m / 2 ^ (d - 53) in
  let round_bit := (53 <? d) && Z.odd (Zpos m / 2 ^ (d - 54)) in
  53 <= d -> -1074 <= d + e - 53 ->
  exists (r : Z) (m3 : positive) (e3 : Z),
    binary_round_aux prec emax s (Zpos m) e l
    = (if e3 <=? 971 then S754_finite s m3 e3 else S754_infinity s)
    /\ Zpos (digits2_pos m3) = 53
    /\ 2 ^ 52 <= q < 2 ^ 53
    /\ (r = q \/ r = q + 1)
    /\ ((r < 2 ^ 53 /\ Zpos m3 = r /\ e3 = d + e - 53)
        \/ (r = 2 ^ 53 /\ Zpos m3 = 2 ^ 52 /\ e3 = d + e - 52))
    /\ (l = loc_Exact -> round_bit = false -> r = q)
    /\ (l = loc_Exact -> round_bit = true -> Z.odd q = true -> r = q + 1).
Proof.
  intros d q round_bit Hd He.
  destruct (shr_fexp_normal m e l Hd He) as (mrs & Hshr & Hm & Hbit).
  fold d in Hshr, Hm, Hbit. fold q in Hm. fold round_bit in Hbit.
  unfold binary_round_aux. rewrite Hshr.
  assert (Hq : 2 ^ 52 <= q < 2 ^ 53).
  { pose proof (digits2_pos_bounds m) as [Hlo Hhi]. fold d in Hlo, Hhi.
    assert (Hp : 0 < 2 ^ (d - 53)) by (apply Z.pow_pos_nonneg; lia).
    assert (E1 : 2 ^ (d - 1) = 2 ^ 52 * 2 ^ (d - 53))
      by (rewrite <- Z.pow_add_r by lia; f_equal; lia).
    assert (E2 : 2 ^ d = 2 ^ 53 * 2 ^ (d - 53))
      by (rewrite <- Z.pow_add_r by lia; f_equal; lia).
    unfold q. split.
    - apply Z.div_le_lower_bound; [assumption|]. lia.
    - apply Z.div_lt_upper_bound; [assumption|]. lia. }
  assert (Hdown : l = loc_Exact -> round_bit = false ->
                  round_nearest_even (shr_m mrs) (loc_of_shr_record mrs) = q).
  { intros Hl Hb. rewrite round_nearest_even_down; [assumption|].
    rewrite Hbit by assumption. assumption. }
  assert (Hup : l = loc_Exact -> round_bit = true -> Z.odd q = true ->
                round_nearest_even (shr_m mrs) (loc_of_shr_record mrs) = q + 1).
  { intros Hl Hb Hodd. rewrite round_nearest_even_up.
    - rewrite Hm. reflexivity.
    - rewrite Hbit by assumption. assumption.
    - rewrite Hm. assumption. }
  assert (Hr : round_nearest_even (shr_m mrs) (loc_of_shr_record mrs) = q
               \/ round_nearest_even (shr_m mrs) (loc_of_shr_record mrs) = q + 1).
  { rewrite <- Hm. apply round_nearest_even_cases. }
  set (r := round_nearest_even (shr_m mrs) (loc_of_shr_record mrs)) in *.
  destruct (Z_lt_le_dec r (2 ^ 53)) as [Hlt|Hge].
  - (* no carry *)
    destruct r as [|rp|rp] eqn:Er; try lia.
    assert (Hdr : Zpos (digits2_pos rp) = 53) by (apply digits2_pos_unique; lia).
    unfold shr_fexp, fexp, emin, prec, emax, Zdigits2. rewrite Hdr.
    replace (Z.max (53 + (d + e - 53) - 53) (3 - 1024 - 53) - (d + e - 53)) with 0 by lia.
    cbn [shr shr_record_of_loc shr_m].
    exists (Zpos rp), rp, (d + e - 53). split; [reflexivity|]. split; [assumption|].
    split; [assumption|]. split; [assumption|].
    split; [left; split; [assumption|split; reflexivity]|].
    split; assumption.
  - (* carry to 2^53 *)
    assert (Er : r = 2 ^ 53) by lia.
    rewrite Er.
    change (2 ^ 53) with (Zpos (2 ^ 53)%positive).
    unfold shr_fexp, fexp, emin, prec, emax, Zdigits2.
    change (Zpos (digits2_pos (2 ^ 53)%positive)) with 54.
    replace (Z.max (54 + (d + e - 53) - 53) (3 - 1024 - 53) - (d + e - 53)) with 1 by lia.
    cbn [shr shr_record_of_loc SpecFloat.iter_pos].
    change (shr_m (shr_1 {| shr_m := Zpos (2 ^ 53)%positive; shr_r := false; shr_s := false |}))
      with (Zpos (2 ^ 52)%positive).
    replace (d + e - 53 + 1) with (d + e - 52) by lia.
    exists (2 ^ 53), (2 ^ 52)%positive, (d + e - 52). split; [reflexivity|].
    split; [reflexivity|]. split; [assumption|]. split; [lia|].
    split; [right; split; [reflexivity|split; reflexivity]|].
    rewrite <- Er. split; assumption.
Qed.

Lemma iter_xO_mul (m k : positive) : Zpos (Pos.iter xO m k) = Zpos m * 2 ^ Zpos k.
Proof.
  induction k as [|k IH] using Pos.peano_ind.
  - cbn [Pos.iter]. lia.
  - rewrite Pos.iter_succ, Pos2Z.inj_xO, IH, Pos2Z.inj_succ, Z.pow_succ_r by lia. lia.
Qed.

(** Conversion of a positive [int]: the mantissa has 53 digits and the
    exponent follows the number of digits of the integer; the conversion
    overflows exactly from [2 ^ 1024 - 2 ^ 970] on. *)
Lemma binary_normalize_pos (p : positive) :
  let d := Zpos (digits2_pos p) in
  if Zpos p <? 2 ^ 1024 - 2 ^ 970 then
    exists (m : positive) (e : Z),
      binary_normalize prec emax (Zpos p) 0 false = S754_finite false m e
      /\ Zpos (digits2_pos m) = 53
      /\ d - 53 <= e <= d - 52
  else binary_normalize prec emax (Zpos p) 0 false = S754_infinity false.
Proof.
  intros d.
  pose proof (digits2_pos_bounds p) as [Hlo Hhi]. fold d in Hlo, Hhi.
  assert (Hd1 : 1 <= d) by (unfold d; lia).
  assert (Hraw : binary_normalize prec emax (Zpos p) 0 false
                 = match d - 53 with
                   | Zneg k => binary_round_aux prec emax false (Zpos (Pos.iter xO p k))
                                 (d - 53) loc_Exact
                   | _ => binary_round_aux prec emax false (Zpos p) 0 loc_Exact
                   end).
  { unfold binary_normalize, binary_round, shl_align.
    rewrite Z.add_0_r, Z.sub_0_r. fold d.
    replace (fexp prec emax d) with (d - 53) by (unfold fexp, emin, prec, emax; lia).
    destruct (d - 53); reflexivity. }
  rewrite Hraw. clear Hraw.
  destruct (d - 53) as [|k|k] eqn:Hk.
  - (* exactly 53 digits *)
    destruct (binary_round_aux_normal false p 0 loc_Exact)
      as (r & m3 & e3 & Hbra & Hdig & Hq & Hr & Hcarry & Hdown & _); fold d; try lia.
    fold d in Hbra, Hq, Hr, Hcarry, Hdown.
    assert (Er : r = Zpos p / 2 ^ (d - 53)).
    { apply Hdown; [reflexivity|].
      replace (53 <? d) with false by (symmetry; apply Z.ltb_ge; lia). reflexivity. }
    destruct Hcarry as [(Hlt & Hm3 & He3)|(Hc & _)]; [|lia].
    assert (Hsmall : Zpos p < 2 ^ 1024 - 2 ^ 970).
    { assert (2 ^ d <= 2 ^ 1023) by (apply Z.pow_le_mono_r; lia). lia. }
    apply Z.ltb_lt in Hsmall. rewrite Hsmall.
    exists m3, e3. rewrite Hbra.
    replace (e3 <=? 971) with true by (symmetry; apply Z.leb_le; lia).
    split; [reflexivity|]. split; [assumption|]. lia.
  - (* more than 53 digits *)
    destruct (binary_round_aux_normal false p 0 loc_Exact)
      as (r & m3 & e3 & Hbra & Hdig & Hq & Hr & Hcarry & Hdown & Hup); fold d; try lia.
    fold d in Hbra, Hq, Hr, Hcarry, Hdown, Hup.
    rewrite Hbra.
    set (q := Zpos p / 2 ^ (d - 53)) in *.
    set (h := Zpos p / 2 ^ (d - 54)) in *.
    assert (Hp54 : 0 < 2 ^ (d - 54)) by (apply Z.pow_pos_nonneg; lia).
    assert (Hqh : q = h / 2).
    { unfold q, h. rewrite Z.div_div by lia.
      replace (2 ^ (d - 54) * 2) with (2 ^ Z.succ (d - 54)) by (rewrite Z.pow_succ_r; lia).
      f_equal. f_equal. lia. }
    assert (Hh : h = 2 * q + (if Z.odd h then 1 else 0)).
    { rewrite Hqh. rewrite (Zdiv2_odd_eqn h) at 1. rewrite Z.div2_div. lia. }
    replace (53 <? d) with true in Hdown, Hup by (symmetry; apply Z.ltb_lt; lia).
    cbn [andb] in Hdown, Hup.
    destruct (Z_lt_le_dec d 1024) as [Hd|Hd].
    + (* at most 1023 digits *)
      assert (Hsmall : Zpos p < 2 ^ 1024 - 2 ^ 970).
      { assert (2 ^ d <= 2 ^ 1023) by (apply Z.pow_le_mono_r; lia). lia. }
      apply Z.ltb_lt in Hsmall. rewrite Hsmall.
      exists m3, e3.
      replace (e3 <=? 971) with true by (symmetry; apply Z.leb_le; lia).
      split; [reflexivity|]. split; [assumption|]. lia.
    + destruct (Z_lt_le_dec 1024 d) as [Hd'|Hd'].
      * (* at least 1025 digits *)
        assert (Hbig : 2 ^ 1024 - 2 ^ 970 <= Zpos p).
        { assert (2 ^ 1024 <= 2 ^ (d - 1)) by (apply Z.pow_le_mono_r; lia). lia. }
        apply Z.ltb_ge in Hbig. rewrite Hbig.
        replace (e3 <=? 971) with false by (symmetry; apply Z.leb_gt; lia).
        reflexivity.
      * (* exactly 1024 digits *)
        assert (Ed : d = 1024) by lia.
        assert (Hh_lo : 2 ^ 970 * h <= Zpos p)
          by (unfold h; rewrite Ed; apply Z.mul_div_le; lia).
        assert (Hh_hi : Zpos p < 2 ^ 970 * (h + 1)).
        { unfold h. rewrite Ed.
          pose proof (Z.mod_pos_bound (Zpos p) (2 ^ (1024 - 54)) ltac:(lia)).
          pose proof (Z.div_mod (Zpos p) (2 ^ (1024 - 54)) ltac:(lia)).
          change (1024 - 54) with 970 in *. lia. }
        destruct (Zpos p <? 2 ^ 1024 - 2 ^ 970) eqn:Hcmp.
        -- apply Z.ltb_lt in Hcmp.
           assert (Hh54 : h < 2 ^ 54 - 1).
           { assert (2 ^ 970 * h < 2 ^ 970 * (2 ^ 54 - 1)); [|nia].
             replace (2 ^ 970 * (2 ^ 54 - 1)) with (2 ^ 1024 - 2 ^ 970)
               by (change (2 ^ 1024) with (2 ^ 970 * 2 ^ 54); lia).
             lia. }
           exists m3, e3.
           assert (He3 : e3 = d - 53).
           { destruct Hcarry as [(_ & _ & He3)|(Hc & _)]; [lia|].
             destruct (Z.odd h) eqn:Hodd.
             - assert (q < 2 ^ 53 - 1) by lia. lia.
             - rewrite (Hdown eq_refl eq_refl) in Hc. lia. }
           replace (e3 <=? 971) with true by (symmetry; apply Z.leb_le; lia).
           split; [reflexivity|]. split; [assumption|]. lia.
        -- apply Z.ltb_ge in Hcmp.
           assert (Hh54 : 2 ^ 54 - 1 <= h).
           { assert (2 ^ 970 * (2 ^ 54 - 1) < 2 ^ 970 * (h + 1)); [|nia].
             replace (2 ^ 970 * (2 ^ 54 - 1)) with (2 ^ 1024 - 2 ^ 970)
               by (change (2 ^ 1024) with (2 ^ 970 * 2 ^ 54); lia).
             lia. }
           assert (Hodd : Z.odd h = true).
           { destruct (Z.odd h); [reflexivity|]. lia. }
           rewrite Hodd in Hh.
           assert (Eq : q = 2 ^ 53 - 1) by lia.
           assert (Hqodd : Z.odd q = true) by (rewrite Eq; reflexivity).
           rewrite (Hup eq_refl Hodd Hqodd) in Hcarry.
           destruct Hcarry as [(Hlt & _)|(_ & _ & He3)]; [lia|].
           replace (e3 <=? 971) with false by (symmetry; apply Z.leb_gt; lia).
           reflexivity.
  - (* fewer than 53 digits: the mantissa is shifted left *)
    set (mz := Pos.iter xO p k).
    assert (Hmz : Zpos mz = Zpos p * 2 ^ Zpos k) by apply iter_xO_mul.
    assert (Hk53 : Zpos k = 53 - d) by lia.
    assert (Hdz : Zpos (digits2_pos mz) = 53).
    { apply digits2_pos_unique. rewrite Hmz, Hk53.
      assert (E1 : 2 ^ (53 - 1) = 2 ^ (d - 1) * 2 ^ (53 - d))
        by (rewrite <- Z.pow_add_r by lia; f_equal; lia).
      assert (E2 : 2 ^ 53 = 2 ^ d * 2 ^ (53 - d))
        by (rewrite <- Z.pow_add_r by lia; f_equal; lia).
      assert (0 < 2 ^ (53 - d)) by (apply Z.pow_pos_nonneg; lia).
      rewrite E1, E2. split; nia. }
    destruct (binary_round_aux_normal false mz (Zneg k) loc_Exact)
      as (r & m3 & e3 & Hbra & Hdig & Hq & Hr & Hcarry & Hdown & _); try lia.
    fold mz.
    rewrite Hdz in Hq, Hr, Hcarry, Hdown.
    assert (Er : r = Zpos mz / 2 ^ (53 - 53)) by (apply Hdown; reflexivity).
    destruct Hcarry as [(Hlt & Hm3 & He3)|(Hc & _)]; [|lia].
    assert (Hsmall : Zpos p < 2 ^ 1024 - 2 ^ 970).
    { assert (2 ^ d <= 2 ^ 1023) by (apply Z.pow_le_mono_r; lia). lia. }
    apply Z.ltb_lt in Hsmall. rewrite Hsmall.
    exists m3, e3. rewrite Hbra.
    replace (e3 <=? 971) with true by (symmetry; apply Z.leb_le; lia).
    split; [reflexivity|]. split; [assumption|]. lia.
Qed.

(** The product of 0.001 and a float of at least 256 lies above 0.2: its
    exponent alone exceeds that of 0.2. *)
Lemma mul_0_001_large (mx : positive) (ex : Z) :
  Zpos (digits2_pos mx) = 53 -> -44 <= ex ->
  float_lt float_0_2 (float_mul float_0_001 (S754_finite false mx ex)) = true.
Proof.
  intros Hmx Hex.
  unfold float_lt, float_mul, float_0_001. cbn [SFmul xorb].
  set (m := (4611686018427388 * mx)%positive).
  pose proof (digits2_pos_bounds mx) as [Hlo _]. rewrite Hmx in Hlo.
  pose proof (digits2_pos_bounds m) as [_ Hhi].
  assert (Hd : 104 < Zpos (digits2_pos m)).
  { apply (Z.pow_lt_mono_r_iff 2); [lia|lia|].
    assert (2 ^ 104 <= Zpos m); [|lia].
    unfold m. rewrite Pos2Z.inj_mul.
    change (2 ^ 104) with (2 ^ 52 * 2 ^ (53 - 1)). nia. }
  destruct (binary_round_aux_normal false m (-62 + ex) loc_Exact)
    as (r & m3 & e3 & Hbra & _ & _ & _ & Hcarry & _); try lia.
  rewrite Hbra.
  assert (He3 : -55 < e3) by (destruct Hcarry as [(_ & _ & ->)|(_ & _ & ->)]; lia).
  destruct (e3 <=? 971); [|reflexivity].
  unfold float_0_2, SFltb, SFcompare.
  replace (-55 ?= e3) with Lt by (symmetry; apply Z.compare_lt_iff; assumption).
  reflexivity.
Qed.


(* ================================================================== *)
(** ** Properties of [determine_score] *)

Lemma float_of_int_positive (t : Z) :
  0 < t ->
  if t <? FLOAT_OVERFLOW then
    exists (m : positive) (e : Z),
      float_of_int t = Ret (S754_finite false m e)
      /\ Zpos (digits2_pos m) = 53
      /\ forall k, 0 <= k -> 2 ^ k <= t -> k - 52 <= e
  else float_of_int t = Raise OverflowError.
Proof.
  intros Ht. destruct t as [|p|p]; try lia.
  pose proof (binary_normalize_pos p) as H. cbv zeta in H.
  unfold FLOAT_OVERFLOW, float_of_int.
  destruct (Zpos p <? 2 ^ 1024 - 2 ^ 970).
  - destruct H as (m & e & -> & Hdig & He).
    exists m, e. split; [reflexivity|]. split; [assumption|].
    intros k Hk Hpow.
    pose proof (digits2_pos_bounds p) as [_ Hhi].
    assert (k < Zpos (digits2_pos p)).
    { apply (Z.pow_lt_mono_r_iff 2); lia. }
    lia.
  - rewrite H. reflexivity.
Qed.

Lemma Z_range_forallb (P : Z -> bool) (lo : Z) (n : nat) :
  forallb P (map (fun i => lo + Z.of_nat i) (seq 0 n)) = true ->
  forall t, lo <= t < lo + Z.of_nat n -> P t = true.
Proof.
  intros H t Ht. rewrite forallb_forall in H. apply H.
  apply in_map_iff. exists (Z.to_nat (t - lo)). split; [lia|].
  apply in_seq. lia.
Qed.

Lemma Qlt_bool_lt (a b : Q) : Qlt_bool a b = true -> (a < b)%Q.
Proof.
  unfold Qlt_bool. intros H. apply negb_true_iff in H.
  apply Qnot_le_lt. intros Hle. apply Qle_bool_iff in Hle. congruence.
Qed.

Lemma float_eqb_eq (a b : float) : float_eqb a b = true -> a = b.
Proof.
  destruct a as [s|s| |s m e], b as [s'|s'| |s' m' e']; simpl; try discriminate.
  - intros H. apply eqb_prop in H. congruence.
  - intros H. apply eqb_prop in H. congruence.
  - reflexivity.
  - intros H. apply andb_true_iff in H as [H He]. apply andb_true_iff in H as [Hs Hm].
    apply eqb_prop in Hs. apply Pos.eqb_eq in Hm. apply Z.eqb_eq in He. congruence.
Qed.

Lemma check_scores_spec (t : Z) :
  check_scores t = true ->
  exists draw win loss,
    scores_after t = Ret (draw, win, loss) /\ scores_in_bands t draw win loss.
Proof.
  unfold check_scores.
  destruct (scores_after t) as [[[draw win] loss]| |]; try discriminate.
  rewrite !andb_true_iff.
  intros [[[[[[[[H1 H2] H3] H4] H5] H6] H7] H8] H9].
  exists draw, win, loss. split; [reflexivity|].
  unfold scores_in_bands.
  rewrite <- !Qle_bool_iff.
  repeat (split; [first [assumption | apply Qlt_bool_lt; assumption]|]).
  apply Qlt_bool_lt. assumption.
Qed.

(** The score depends on the outcome as seen by the player, not on who
    the player is. *)
Lemma scores_after_spec (player : CheckersPlayer) (t : Z) (draw win loss : float) :
  scores_after t = Ret (draw, win, loss) ->
  determine_score (Some (Result None t)) player = Ret draw
  /\ determine_score (win_at player t) player = Ret win
  /\ determine_score (win_at (other_player player) t) player = Ret loss.
Proof.
  unfold scores_after.
  destruct (determine_score (Some (Result None t)) LIGHT) as [d| |] eqn:Hd; try discriminate.
  destruct (determine_score (Some (Result (Some LIGHT) t)) LIGHT) as [w| |] eqn:Hw;
    try discriminate.
  destruct (determine_score (Some (Result (Some DARK) t)) LIGHT) as [l| |] eqn:Hl;
    try discriminate.
  cbn [obind]. intros [= <- <- <-].
  destruct player; repeat split; assumption.
Qed.

Lemma determine_score_duration (w : option CheckersPlayer) (t : Z) (player : CheckersPlayer) :
  determine_score (Some (Result w t)) player
  = (game_duration_score <-- game_duration_score t ;;
     match w with
     | None => Ret (float_add float_0_5 game_duration_score)
     | Some w' =>
         if player_eqb w' player then
           one <-- float_of_int 1 ;; Ret (float_sub one game_duration_score)
         else
           zero <-- float_of_int 0 ;; Ret (float_add zero game_duration_score)
     end).
Proof.
  unfold determine_score, game_duration_score. cbn [winner total_ply_count].
  destruct (float_of_int t); reflexivity.
Qed.

Lemma game_duration_score_overflow (t : Z) :
  FLOAT_OVERFLOW <= t -> game_duration_score t = Raise OverflowError.
Proof.
  intros Ht. unfold game_duration_score.
  assert (Hpos : 0 < t) by (unfold FLOAT_OVERFLOW in Ht; lia).
  pose proof (float_of_int_positive t Hpos) as H.
  apply Z.ltb_ge in Ht. rewrite Ht in H. rewrite H. reflexivity.
Qed.

(** From 200 plies on the duration score is the cap, the float [0.2]. *)
Lemma game_duration_score_cap (t : Z) :
  200 <= t < FLOAT_OVERFLOW -> game_duration_score t = Ret float_0_2.
Proof.
  intros [Hlo Hhi].
  destruct (Z_lt_le_dec t 256) as [Hsmall|Hlarge].
  - pose proof (Z_range_forallb check_cap 200 56 ltac:(vm_compute; reflexivity) t
                  ltac:(lia)) as H.
    unfold check_cap in H.
    destruct (game_duration_score t) as [g| |]; try discriminate.
    apply float_eqb_eq in H. congruence.
  - unfold game_duration_score.
    pose proof (float_of_int_positive t ltac:(lia)) as H.
    apply Z.ltb_lt in Hhi. rewrite Hhi in H.
    destruct H as (m & e & -> & Hdig & He). cbn [obind].
    unfold py_min. rewrite mul_0_001_large; [reflexivity|assumption|].
    specialize (He 8 ltac:(lia)). change (2 ^ 8) with 256 in He. lia.
Qed.

Lemma scores_after_cap (t : Z) :
  200 <= t < FLOAT_OVERFLOW -> scores_after t = scores_after 200.
Proof.
  intros Ht. unfold scores_after. rewrite !determine_score_duration.
  rewrite (game_duration_score_cap t Ht).
  rewrite (game_duration_score_cap 200) by (unfold FLOAT_OVERFLOW; lia).
  reflexivity.
Qed.

Lemma exact_duration_score_cap (t : Z) :
  200 <= t -> (exact_duration_score t == exact_duration_score 200)%Q.
Proof.
  intros Ht. unfold exact_duration_score.
  rewrite Zle_Qle in Ht. change (inject_Z 200) with (200 # 1)%Q in *.
  rewrite !Q.min_r; [reflexivity| |]; lra.
Qed.

Lemma scores_in_bands_cap (t : Z) (draw win loss : float) :
  200 <= t -> scores_in_bands 200 draw win loss -> scores_in_bands t draw win loss.
Proof.
  intros Ht. unfold scores_in_bands.
  rewrite (exact_duration_score_cap t Ht). tauto.
Qed.

(** The scores of a game of any length that converts to a float. *)
Lemma scores_after_returns (t : Z) :
  0 < t < FLOAT_OVERFLOW ->
  exists draw win loss,
    scores_after t = Ret (draw, win, loss) /\ scores_in_bands t draw win loss.
Proof.
  intros [Hlo Hhi].
  destruct (Z_lt_le_dec t 200) as [Hsmall|Hlarge].
  - apply check_scores_spec.
    apply (Z_range_forallb check_scores 1 200); [vm_compute; reflexivity|lia].
  - destruct (check_scores_spec 200 ltac:(vm_compute; reflexivity))
      as (draw & win & loss & Hs & Hb).
    exists draw, win, loss. split.
    + rewrite scores_after_cap by lia. assumption.
    + apply scores_in_bands_cap; assumption.
Qed.

Lemma scores_after_step (t : Z) (draw win loss draw' win' loss' : float) :
  1 <= t < 200 ->
  scores_after t = Ret (draw, win, loss) ->
  scores_after (t + 1) = Ret (draw', win', loss') ->
  (float_value win' < float_value win)%Q /\ (float_value loss < float_value loss')%Q.
Proof.
  intros Ht Hs Hs'.
  pose proof (Z_range_forallb check_step 1 199 ltac:(vm_compute; reflexivity) t
                ltac:(lia)) as H.
  unfold check_step in H. rewrite Hs, Hs' in H.
  apply andb_true_iff in H as [H1 H2]. split; apply Qlt_bool_lt; assumption.
Qed.

(** Below the cap a longer game scores strictly lower as a win and
    strictly higher as a loss. *)
Lemma scores_after_strict (n : nat) (t : Z) (draw win loss draw' win' loss' : float) :
  1 <= t -> t + Z.of_nat n + 1 <= 200 ->
  scores_after t = Ret (draw, win, loss) ->
  scores_after (t + Z.of_nat n + 1) = Ret (draw', win', loss') ->
  (float_value win' < float_value win)%Q /\ (float_value loss < float_value loss')%Q.
Proof.
  revert draw' win' loss'. induction n as [|n IH]; intros draw' win' loss' Ht Hn Hs Hs'.
  - rewrite Z.add_0_r in Hs'. apply (scores_after_step t draw win loss draw' win' loss');
      [lia|assumption|assumption].
  - destruct (scores_after_returns (t + Z.of_nat n + 1))
      as (d & w & l & Hmid & _); [unfold FLOAT_OVERFLOW; lia|].
    destruct (IH d w l Ht ltac:(lia) Hs Hmid) as [Hw Hl].
    replace (t + Z.of_nat (S n) + 1) with (t + Z.of_nat n + 1 + 1) in Hs' by lia.
    destruct (scores_after_step (t + Z.of_nat n + 1) d w l draw' win' loss' ltac:(lia) Hmid Hs')
      as [Hw' Hl'].
    split; [apply (Qlt_trans _ (float_value w)) | apply (Qlt_trans _ (float_value l))];
      assumption.
Qed.

Lemma positive_value_finite (x : float) :
  (0 < float_value x)%Q -> float_finite x = true.
Proof.
  destruct x as [s|s| |s m e]; try reflexivity; intros H; apply Qlt_irrefl in H; contradiction.
Qed.

(** The literals are the floats nearest to the decimals they are written
    as, within half a unit in the last place, and the [int]s 1 and 0
    convert to the floats 1.0 and 0.0. *)
Lemma float_literals :
  (Qabs (float_value float_0_001 - (1 # 1000)) <= 1 # 2 ^ 63)%Q
  /\ (Qabs (float_value float_0_2 - (2 # 10)) <= 1 # 2 ^ 56)%Q
  /\ (float_value float_0_5 == 5 # 10)%Q
  /\ float_of_int 1 = Ret (S754_finite false (2 ^ 52) (-52))
  /\ (float_value (S754_finite false (2 ^ 52) (-52)) == 1)%Q
  /\ float_of_int 0 = Ret (S754_zero false).
Proof.
  repeat split; vm_compute; congruence.
Qed.

Lemma determine_score_of_scores (player : CheckersPlayer) (t : Z) :
  0 < t < FLOAT_OVERFLOW ->
  exists draw win loss,
    scores_after t = Ret (draw, win, loss)
    /\ scores_in_bands t draw win loss
    /\ determine_score (Some (Result None t)) player = Ret draw
    /\ determine_score (win_at player t) player = Ret win
    /\ determine_score (win_at (other_player player) t) player = Ret loss.
Proof.
  intros Ht. destruct (scores_after_returns t Ht) as (draw & win & loss & Hs & Hb).
  exists draw, win, loss. split; [assumption|]. split; [assumption|].
  apply scores_after_spec. assumption.
Qed.

Lemma determine_score_overflow (w : option CheckersPlayer) (t : Z) (player : CheckersPlayer) :
  FLOAT_OVERFLOW <= t -> determine_score (Some (Result w t)) player = Raise OverflowError.
Proof.
  intros Ht. rewrite determine_score_duration, game_duration_score_overflow by assumption.
  reflexivity.
Qed.

(** C5, as stated, fails beyond the cap: two wins after 300 and after 400
    plies get the same score, the float 0.8, so the shorter game does not
    score higher, whether the floats are compared as Python compares them
    or by their values. And a win after [2 ^ 1024] plies gets no score to
    compare: converting the ply count to a float raises [OverflowError]. *)
Lemma win_score_not_strict_beyond_cap :
  (exists win300 win400 : float,
     determine_score (win_at LIGHT 300) LIGHT = Ret win300
     /\ determine_score (win_at LIGHT 400) LIGHT = Ret win400
     /\ win300 = win400
     /\ float_lt win400 win300 = false
     /\ ~ (float_value win400 < float_value win300)%Q)
  /\ determine_score (win_at LIGHT (2 ^ 1024)) LIGHT = Raise OverflowError.
Proof.
  split.
  - exists (S754_finite false 7205759403792794 (-53)),
           (S754_finite false 7205759403792794 (-53)).
    split; [vm_compute; reflexivity|]. split; [vm_compute; reflexivity|].
    split; [reflexivity|]. split; [vm_compute; reflexivity|].
    apply Qlt_irrefl.
  - apply determine_score_overflow. unfold FLOAT_OVERFLOW. lia.
Qed.

(** C5 (amended): for positive ply counts [t1 < t2] of two games with the
    same outcome, both small enough to convert to a float (below
    [2 ^ 1024 - 2 ^ 970]), the shorter win scores at least as high and the
    shorter loss at most as high; strictly so when [t1] is below the cap of
    200 plies, and with the very same float when both have reached it; the
    scores are compared by their values, all four being numbers. From
    [2 ^ 1024 - 2 ^ 970] plies on no score is computed: the conversion
    raises [OverflowError]. *)
Theorem determine_score_ordering (player : CheckersPlayer) (t1 t2 : Z) :
  0 < t1 -> t1 < t2 ->
  (t2 < FLOAT_OVERFLOW ->
   exists win1 win2 loss1 loss2 : float,
     determine_score (win_at player t1) player = Ret win1
     /\ determine_score (win_at player t2) player = Ret win2
     /\ determine_score (win_at (other_player player) t1) player = Ret loss1
     /\ determine_score (win_at (other_player player) t2) player = Ret loss2
     /\ float_finite win1 && float_finite win2
        && float_finite loss1 && float_finite loss2 = true
     /\ (float_value win2 <= float_value win1)%Q
     /\ (float_value loss1 <= float_value loss2)%Q
     /\ (t1 < 200 ->
         (float_value win2 < float_value win1)%Q
         /\ (float_value loss1 < float_value loss2)%Q)
     /\ (200 <= t1 -> win2 = win1 /\ loss1 = loss2))
  /\ (FLOAT_OVERFLOW <= t2 ->
      determine_score (win_at player t2) player = Raise OverflowError
      /\ determine_score (win_at (other_player player) t2) player = Raise OverflowError).
Proof.
  intros Hpos Hlt. split.
  - intros Hhi.
    destruct (determine_score_of_scores player t1 ltac:(lia))
      as (d1 & w1 & l1 & Hs1 & Hb1 & _ & Hw1 & Hl1).
    destruct (determine_score_of_scores player t2 ltac:(lia))
      as (d2 & w2 & l2 & Hs2 & Hb2 & _ & Hw2 & Hl2).
    exists w1, w2, l1, l2.
    split; [assumption|]. split; [assumption|]. split; [assumption|]. split; [assumption|].
    split.
    { destruct Hb1 as (_ & _ & _ & Hl1_pos & _ & _ & _ & Hw1_lo & _).
      destruct Hb2 as (_ & _ & _ & Hl2_pos & _ & _ & _ & Hw2_lo & _).
      rewrite !andb_true_iff.
      repeat split; apply positive_value_finite; first [assumption|lra]. }
    destruct (Z_lt_le_dec t1 200) as [Hsmall|Hlarge].
    + (* the shorter game is below the cap *)
      assert (Hstrict : (float_value w2 < float_value w1)%Q
                        /\ (float_value l1 < float_value l2)%Q).
      { destruct (Z_lt_le_dec t2 200) as [Hsmall2|Hlarge2].
        - apply (scores_after_strict (Z.to_nat (t2 - t1 - 1)) t1 d1 w1 l1 d2 w2 l2);
            [lia|lia|assumption|].
          replace (t1 + Z.of_nat (Z.to_nat (t2 - t1 - 1)) + 1) with t2 by lia. assumption.
        - rewrite scores_after_cap in Hs2 by lia.
          apply (scores_after_strict (Z.to_nat (200 - t1 - 1)) t1 d1 w1 l1 d2 w2 l2);
            [lia|lia|assumption|].
          replace (t1 + Z.of_nat (Z.to_nat (200 - t1 - 1)) + 1) with 200 by lia. assumption. }
      destruct Hstrict as [Hw Hl].
      split; [apply Qlt_le_weak; assumption|]. split; [apply Qlt_le_weak; assumption|].
      split; [intros _; split; assumption|]. intros Hc. lia.
    + (* both games have reached the cap *)
      rewrite scores_after_cap in Hs1, Hs2 by lia. rewrite Hs1 in Hs2.
      injection Hs2 as _ <- <-.
      split; [apply Qle_refl|]. split; [apply Qle_refl|].
      split; [intros Hc; lia|]. intros _. split; reflexivity.
  - intros Hhi. split; apply determine_score_overflow; assumption.
Qed.

Lemma determine_score_ordering_witness :
  exists win1 win2 loss1 loss2 : float,
    determine_score (win_at LIGHT 10) LIGHT = Ret win1
    /\ determine_score (win_at LIGHT 40) LIGHT = Ret win2
    /\ determine_score (win_at (other_player LIGHT) 10) LIGHT = Ret loss1
    /\ determine_score (win_at (other_player LIGHT) 40) LIGHT = Ret loss2
    /\ float_finite win1 && float_finite win2
       && float_finite loss1 && float_finite loss2 = true
    /\ (float_value win2 <= float_value win1)%Q
    /\ (float_value loss1 <= float_value loss2)%Q
    /\ (10 < 200 ->
        (float_value win2 < float_value win1)%Q
        /\ (float_value loss1 < float_value loss2)%Q)
    /\ (200 <= 10 -> win2 = win1 /\ loss1 = loss2).
Proof.
  apply (determine_score_ordering LIGHT 10 40); [lia|lia|].
  vm_compute. reflexivity.
Defined.

(** C6, as stated, fails twice. A loss after 9 plies does not score
    [0 + min(0.001 * 9, 0.2)], which is 9/1000, but the float
    0.009000000000000001 (5188146770730812 * 2^-59); and a draw after
    [2 ^ 1024] plies gets no score: converting the ply count to a float
    raises [OverflowError]. *)
Lemma determine_score_not_exact :
  (exists loss : float,
     determine_score (win_at DARK 9) LIGHT = Ret loss
     /\ loss = S754_finite false 5188146770730812 (-59)
     /\ ~ (float_value loss == 0 + exact_duration_score 9)%Q)
  /\ determine_score (Some (Result None (2 ^ 1024))) LIGHT = Raise OverflowError.
Proof.
  split.
  - exists (S754_finite false 5188146770730812 (-59)).
    split; [vm_compute; reflexivity|]. split; [reflexivity|].
    vm_compute. discriminate.
  - apply determine_score_overflow. unfold FLOAT_OVERFLOW. lia.
Qed.

(** C6 (amended): an undecided playout scores the float 0.5. For positive
    ply counts that convert to a float (below [2 ^ 1024 - 2 ^ 970]) a draw,
    a win of the player and a loss score a float within [2 ^ -53] of
    [0.5 + min(0.001 * total_ply_count, 0.2)],
    [1 - min(0.001 * total_ply_count, 0.2)] and
    [0 + min(0.001 * total_ply_count, 0.2)]; every win scores above every
    draw and every draw above every loss. From [2 ^ 1024 - 2 ^ 970] plies
    on [determine_score] raises [OverflowError]. *)
Theorem determine_score_outcomes (player : CheckersPlayer) (t_win t_draw t_loss : Z) :
  0 < t_win < FLOAT_OVERFLOW -> 0 < t_draw < FLOAT_OVERFLOW -> 0 < t_loss < FLOAT_OVERFLOW ->
  determine_score None player = Ret float_0_5
  /\ (float_value float_0_5 == 5 # 10)%Q
  /\ (exists draw win loss : float,
        determine_score (Some (Result None t_draw)) player = Ret draw
        /\ determine_score (win_at player t_win) player = Ret win
        /\ determine_score (win_at (other_player player) t_loss) player = Ret loss
        /\ (Qabs (float_value draw - ((5 # 10) + exact_duration_score t_draw))
            <= rounding_unit)%Q
        /\ (Qabs (float_value win - (1 - exact_duration_score t_win)) <= rounding_unit)%Q
        /\ (Qabs (float_value loss - (0 + exact_duration_score t_loss)) <= rounding_unit)%Q
        /\ (float_value draw < float_value win)%Q
        /\ (float_value loss < float_value draw)%Q)
  /\ (forall (w : option CheckersPlayer) (t : Z),
        FLOAT_OVERFLOW <= t ->
        determine_score (Some (Result w t)) player = Raise OverflowError).
Proof.
  intros Hw Hd Hl.
  split; [reflexivity|]. split; [reflexivity|]. split.
  - destruct (determine_score_of_scores player t_draw Hd)
      as (draw & w1 & l1 & _ & Hbd & Hdraw & _ & _).
    destruct (determine_score_of_scores player t_win Hw)
      as (d2 & win & l2 & _ & Hbw & _ & Hwin & _).
    destruct (determine_score_of_scores player t_loss Hl)
      as (d3 & w3 & loss & _ & Hbl & _ & _ & Hloss).
    exists draw, win, loss.
    destruct Hbd as (Ed & _ & _ & _ & _ & Hd_lo & Hd_hi & _).
    destruct Hbw as (_ & Ew & _ & _ & _ & _ & _ & Hw_lo & _).
    destruct Hbl as (_ & _ & El & _ & Hl_hi & _).
    assert (H02 : (float_value float_0_2 < 5 # 10)%Q) by (vm_compute; reflexivity).
    repeat (split; [assumption|]). split; lra.
  - intros w t Ht. apply determine_score_overflow. assumption.
Qed.

Lemma determine_score_outcomes_witness :
  determine_score None DARK = Ret float_0_5
  /\ (exists draw win loss : float,
        determine_score (Some (Result None 1)) DARK = Ret draw
        /\ determine_score (win_at DARK 250) DARK = Ret win
        /\ determine_score (win_at (other_player DARK) 250) DARK = Ret loss
        /\ (float_value draw < float_value win)%Q
        /\ (float_value loss < float_value draw)%Q).
Proof.
  destruct (determine_score_outcomes DARK 250 1 250)
    as (Hnone & _ & (draw & win & loss & Hd & Hw & Hl & _ & _ & _ & Hdw & Hld) & _);
    try (unfold FLOAT_OVERFLOW; lia).
  split; [exact Hnone|]. exists draw, win, loss. repeat split; assumption.
Defined.

(* ================================================================== *)
(** ** Properties of [pure_monte_carlo_game_search] *)

(** C4, as stated, fails on a position with a single legal move: with a
    playout budget of 0 the search returns that move and raises nothing. *)
Lemma search_zero_budget_single_move :
  ~ (exists e,
       fst (fst (pure_monte_carlo_game_search 4 5 200 no_stdev
                   (State capture_board LIGHT 0 None) 0 quiet_world)) = Raise e).
Proof.
  intros [e H]. vm_compute in H. discriminate H.
Qed.

(** C4 (amended): on a state with two or more legal moves, a playout
    budget N <= 0 raises the validation error of the playout count,
    whatever the cancellation flag reads. *)
Theorem search_rejects_non_positive_budget (fuel lfuel pfuel : nat) (stdev : list Q -> Q)
    (state state1 : CheckersState) (m1 m2 : CheckersMove) (rest : list CheckersMove)
    (playout_count_per_move : Z) (w : World) :
  legal_moves fuel lfuel state = (Ret (m1 :: m2 :: rest), state1) ->
  playout_count_per_move <= 0 ->
  fst (fst (pure_monte_carlo_game_search fuel lfuel pfuel stdev state
              playout_count_per_move w))
  = Raise (ValueError NonPositivePlayouts).
Proof.
  intros Hmoves Hn. unfold pure_monte_carlo_game_search. rewrite Hmoves.
  cbn [score_moves]. unfold determine_score_for_move.
  apply Z.leb_le in Hn. rewrite Hn. reflexivity.
Qed.

Lemma search_rejects_non_positive_budget_witness :
  fst (fst (pure_monte_carlo_game_search 4 5 200 no_stdev
              (State quiet_board LIGHT 0 None) (-3) quiet_world))
  = Raise (ValueError NonPositivePlayouts).
Proof.
  apply (search_rejects_non_positive_budget 4 5 200 no_stdev
           (State quiet_board LIGHT 0 None)
           (State quiet_board LIGHT 0 (Some [[Idx 1 0; Idx 0 1]; [Idx 1 0; Idx 2 1]]))
           [Idx 1 0; Idx 0 1] [Idx 1 0; Idx 2 1] [] (-3) quiet_world);
    [vm_compute; reflexivity | lia].
Defined.

(** C8: with exactly one legal move the search returns it at once: no
    playout is run, no random number drawn and the cancellation flag is not
    read, so neither the budget nor the flag matters; with no legal move it
    returns no move. *)
Theorem search_trivial_positions (fuel lfuel pfuel : nat) (stdev : list Q -> Q)
    (state state1 : CheckersState) (moves : list CheckersMove)
    (playout_count_per_move : Z) (w : World) :
  legal_moves fuel lfuel state = (Ret moves, state1) ->
  (forall move, moves = [move] ->
     pure_monte_carlo_game_search fuel lfuel pfuel stdev state playout_count_per_move w
     = (Ret (Some move), state1, w))
  /\ (moves = [] ->
      pure_monte_carlo_game_search fuel lfuel pfuel stdev state playout_count_per_move w
      = (Ret None, state1, w)).
Proof.
  intros Hmoves. unfold pure_monte_carlo_game_search. rewrite Hmoves. split.
  - intros move ->. reflexivity.
  - intros ->. reflexivity.
Qed.

Lemma search_trivial_positions_witness :
  pure_monte_carlo_game_search 4 5 200 no_stdev (State capture_board LIGHT 3 None) 15 quiet_world
  = (Ret (Some [Idx 0 0; Idx 2 2]),
     State capture_board LIGHT 3 (Some [[Idx 0 0; Idx 2 2]]), quiet_world)
  /\ pure_monte_carlo_game_search 4 5 200 no_stdev (State empty_board LIGHT 3 None) 15 quiet_world
     = (Ret None, State empty_board LIGHT 3 (Some []), quiet_world).
Proof.
  split.
  - apply (search_trivial_positions 4 5 200 no_stdev (State capture_board LIGHT 3 None)
             (State capture_board LIGHT 3 (Some [[Idx 0 0; Idx 2 2]]))
             [[Idx 0 0; Idx 2 2]] 15 quiet_world);
      [vm_compute; reflexivity | reflexivity].
  - apply (search_trivial_positions 4 5 200 no_stdev (State empty_board LIGHT 3 None)
             (State empty_board LIGHT 3 (Some [])) [] 15 quiet_world);
      [vm_compute; reflexivity | reflexivity].
Defined.

(* ================================================================== *)
(** ** The board *)

Lemma py_index_in (i : Z) (n : nat) :
  0 <= i < Z.of_nat n -> py_index i n = Some (Z.to_nat i).
Proof.
  intros [H0 H1]. unfold py_index.
  apply Z.leb_le in H0. apply Z.ltb_lt in H1. rewrite H0, H1. reflexivity.
Qed.

Lemma py_index_lt (i : Z) (n k : nat) : py_index i n = Some k -> (k < n)%nat.
Proof.
  unfold py_index.
  destruct ((0 <=? i) && (i <? Z.of_nat n)) eqn:E.
  - apply andb_true_iff in E as [H0 H1]. apply Z.leb_le in H0. apply Z.ltb_lt in H1.
    intros [= <-]. lia.
  - destruct ((- Z.of_nat n <=? i) && (i <? 0)) eqn:E'; [|discriminate].
    apply andb_true_iff in E' as [H0 H1]. apply Z.leb_le in H0. apply Z.ltb_lt in H1.
    intros [= <-]. lia.
Qed.

Lemma in_board_bounds (b : CheckersBoard) (i : Index2D) :
  in_board b i = true <-> (0 <= ix i < column_count b /\ 0 <= iy i < row_count b).
Proof.
  unfold in_board. rewrite !andb_true_iff, !Z.leb_le, !Z.ltb_lt. lia.
Qed.

Lemma wf_column (b : CheckersBoard) (k : nat) (column : list (option CheckersPiece)) :
  wf_board b -> list_2d b !! k = Some column -> length column = Z.to_nat (row_count b).
Proof.
  intros (_ & _ & _ & Hcols) E. rewrite Forall_forall in Hcols.
  apply Hcols. eapply list_elem_of_lookup_2. exact E.
Qed.

Lemma board_get_in (b : CheckersBoard) (i : Index2D) :
  wf_board b -> in_board b i = true -> returns (board_get b i).
Proof.
  intros Hwf Hin. pose proof Hwf as (Hr & Hc & Hlen & _).
  apply in_board_bounds in Hin as [Hx Hy].
  unfold board_get, py_get.
  rewrite py_index_in by lia.
  destruct (list_2d b !! Z.to_nat (ix i)) as [column|] eqn:E.
  - simpl. pose proof (wf_column _ _ _ Hwf E) as Hl.
    rewrite py_index_in by lia.
    destruct (column !! Z.to_nat (iy i)) as [c|] eqn:E'.
    + eexists. reflexivity.
    + apply lookup_ge_None in E'. lia.
  - apply lookup_ge_None in E. lia.
Qed.

(** Writing a cell keeps the shape of the board. *)
Lemma board_set_shape (b b' : CheckersBoard) (i : Index2D) (p : option CheckersPiece) :
  board_set b i p = Ret b' ->
  row_count b' = row_count b /\ column_count b' = column_count b
  /\ Forall2 (fun c c' => length c = length c') (list_2d b) (list_2d b').
Proof.
  unfold board_set, py_get, py_set.
  destruct (py_index (ix i) (length (list_2d b))) as [kx|] eqn:Ex; [|discriminate].
  destruct (list_2d b !! kx) as [column|] eqn:Ec; [|discriminate]. simpl.
  destruct (py_index (iy i) (length column)) as [ky|] eqn:Ey; [|discriminate]. simpl.
  intros [= <-]. simpl. split; [reflexivity|]. split; [reflexivity|].
  apply Forall2_same_length_lookup. split.
  - rewrite length_insert. reflexivity.
  - intros k c c' H1 H2. destruct (decide (kx = k)) as [->|Hne].
    + rewrite list_lookup_insert_eq in H2 by (eapply lookup_lt_Some; exact H1).
      injection H2 as <-. rewrite length_insert. congruence.
    + rewrite list_lookup_insert_ne in H2 by exact Hne. congruence.
Qed.

Lemma board_set_wf (b b' : CheckersBoard) (i : Index2D) (p : option CheckersPiece) :
  wf_board b -> board_set b i p = Ret b' -> wf_board b'.
Proof.
  intros (Hr & Hc & Hlen & Hcols) Hset.
  apply board_set_shape in Hset as (Er & Ec & Hshape).
  unfold wf_board. rewrite Er, Ec. repeat split; try assumption.
  - rewrite <- Hlen. symmetry. eapply Forall2_length. exact Hshape.
  - rewrite Forall_forall in Hcols. apply Forall_forall. intros c' Hc'.
    apply list_elem_of_lookup in Hc' as [k Hk].
    destruct (Forall2_lookup_r _ _ _ _ _ Hshape Hk) as (c & Hc1 & Hc2).
    rewrite <- Hc2. apply Hcols. eapply list_elem_of_lookup_2. exact Hc1.
Qed.

Lemma board_set_in (b : CheckersBoard) (i : Index2D) (p : option CheckersPiece) :
  wf_board b -> in_board b i = true -> returns (board_set b i p).
Proof.
  intros Hwf Hin. pose proof Hwf as (Hr & Hc & Hlen & _).
  apply in_board_bounds in Hin as [Hx Hy].
  unfold board_set, py_get, py_set.
  rewrite py_index_in by lia.
  destruct (list_2d b !! Z.to_nat (ix i)) as [column|] eqn:E.
  - simpl. pose proof (wf_column _ _ _ Hwf E) as Hl.
    rewrite py_index_in by lia. simpl. eexists. reflexivity.
  - apply lookup_ge_None in E. lia.
Qed.

(** Taking a piece off its square and putting it back gives the board
    back, cell for cell. *)
Lemma board_set_restore (b b1 b2 : CheckersBoard) (i : Index2D) (piece : CheckersPiece) :
  board_get b i = Ret (Some piece) ->
  board_set b i None = Ret b1 ->
  board_set b1 i (Some piece) = Ret b2 ->
  b2 = b.
Proof.
  unfold board_get, board_set, py_get, py_set.
  destruct (py_index (ix i) (length (list_2d b))) as [kx|] eqn:Ex; [|discriminate].
  destruct (list_2d b !! kx) as [column|] eqn:Ec; [|discriminate]. simpl.
  destruct (py_index (iy i) (length column)) as [ky|] eqn:Ey; [|discriminate]. simpl.
  destruct (column !! ky) as [cell|] eqn:Ek; [|discriminate]. simpl.
  intros [= ->] [= <-]. simpl.
  rewrite length_insert, Ex.
  rewrite list_lookup_insert_eq by (eapply lookup_lt_Some; exact Ec). simpl.
  rewrite length_insert, Ey. simpl.
  intros [= <-]. destruct b as [r c cols]. simpl in *. f_equal.
  rewrite !list_insert_insert_eq.
  rewrite (list_insert_id column) by exact Ek.
  apply list_insert_id. exact Ec.
Qed.

Lemma diagonal_unit_step (delta : Index2D) :
  delta ∈ DIAGONAL_DIRECTIONS -> unit_step delta.
Proof.
  unfold DIAGONAL_DIRECTIONS, unit_step. rewrite !elem_of_cons, elem_of_nil.
  intros [->|[->|[->|[->|[]]]]]; simpl; lia.
Qed.

Lemma for_each_returns {A B} (body : A -> outcome (list B)) (l : list A) :
  (forall a, a ∈ l -> returns (body a)) -> returns (for_each body l).
Proof.
  induction l as [|a l IH]; intros H; simpl.
  - eexists. reflexivity.
  - destruct (H a) as [xs Hxs]; [left|]. rewrite Hxs. simpl.
    destruct IH as [ys Hys]; [intros a' Ha'; apply H; right; exact Ha'|].
    rewrite Hys. simpl. eexists. reflexivity.
Qed.

Lemma for_each_Forall {A B} (P : B -> Prop) (body : A -> outcome (list B)) (l : list A)
    (r : list B) :
  (forall a xs, a ∈ l -> body a = Ret xs -> Forall P xs) ->
  for_each body l = Ret r -> Forall P r.
Proof.
  revert r. induction l as [|a l IH]; intros r H; simpl.
  - intros [= <-]. constructor.
  - destruct (body a) as [xs| |] eqn:Exs; simpl; try discriminate.
    destruct (for_each body l) as [ys| |] eqn:Eys; simpl; try discriminate.
    intros [= <-]. apply Forall_app. split.
    + eapply H; [left|exact Exs].
    + apply IH; [|reflexivity]. intros a' xs' Ha'. apply H. right. exact Ha'.
Qed.

Lemma steps_left_in_board (b : CheckersBoard) (square delta : Index2D) :
  unit_step delta -> in_board b square = true ->
  1 <= steps_left b square delta <= column_count b.
Proof.
  intros Hd Hin. apply in_board_bounds in Hin. unfold steps_left.
  destruct (ix delta =? 1); lia.
Qed.

Lemma steps_left_next (b : CheckersBoard) (square delta : Index2D) :
  unit_step delta ->
  steps_left b (idx_add square delta) delta = steps_left b square delta - 1.
Proof.
  intros [Hd|Hd]; unfold steps_left, idx_add; simpl; rewrite Hd; simpl; lia.
Qed.

Ltac scan_step b dest delta Hwf Hd Hpos Hfuel IH :=
  destruct (in_board b dest) eqn:Hin; [|eexists; reflexivity];
  destruct (board_get_in b dest Hwf Hin) as [cell Hcell]; rewrite Hcell; simpl;
  destruct cell as [cp|]; [eexists; reflexivity|];
  pose proof (steps_left_in_board b dest delta Hd Hin) as Hsl;
  specialize (Hfuel eq_refl).

Lemma king_slide_returns (b : CheckersBoard) (origin delta : Index2D) (lfuel : nat)
    (dest : Index2D) :
  wf_board b -> unit_step delta -> (0 < lfuel)%nat ->
  (in_board b dest = true -> steps_left b dest delta < Z.of_nat lfuel) ->
  returns (king_slide lfuel b origin dest delta).
Proof.
  intros Hwf Hd. revert dest.
  induction lfuel as [|n IH]; intros dest Hpos Hfuel; [lia|]. simpl.
  scan_step b dest delta Hwf Hd Hpos Hfuel IH.
  destruct (IH (idx_add dest delta)) as [rest Hrest]; [lia| |].
  - intros _. rewrite steps_left_next by exact Hd. lia.
  - rewrite Hrest. simpl. eexists. reflexivity.
Qed.

Lemma king_landings_returns (b : CheckersBoard) (captured delta : Index2D) (lfuel : nat)
    (dest : Index2D) :
  wf_board b -> unit_step delta -> (0 < lfuel)%nat ->
  (in_board b dest = true -> steps_left b dest delta < Z.of_nat lfuel) ->
  returns (king_landings lfuel b captured dest delta).
Proof.
  intros Hwf Hd. revert dest.
  induction lfuel as [|n IH]; intros dest Hpos Hfuel; [lia|]. simpl.
  scan_step b dest delta Hwf Hd Hpos Hfuel IH.
  destruct (IH (idx_add dest delta)) as [rest Hrest]; [lia| |].
  - intros _. rewrite steps_left_next by exact Hd. lia.
  - rewrite Hrest. simpl. eexists. reflexivity.
Qed.

Lemma nearest_piece_returns (b : CheckersBoard) (delta : Index2D) (lfuel : nat)
    (square : Index2D) :
  wf_board b -> unit_step delta -> (0 < lfuel)%nat ->
  (in_board b square = true -> steps_left b square delta < Z.of_nat lfuel) ->
  returns (nearest_piece lfuel b square delta).
Proof.
  intros Hwf Hd. revert square.
  induction lfuel as [|n IH]; intros dest Hpos Hfuel; [lia|]. simpl.
  scan_step b dest delta Hwf Hd Hpos Hfuel IH.
  apply IH; [lia|]. intros _. rewrite steps_left_next by exact Hd. lia.
Qed.

Lemma idx_add_mul_succ (o d : Index2D) (k : Z) :
  idx_add (idx_add o (idx_mul d k)) d = idx_add o (idx_mul d (k + 1)).
Proof. unfold idx_add, idx_mul. simpl. f_equal; lia. Qed.

Lemma idx_add_mul_one (o d : Index2D) : idx_add o d = idx_add o (idx_mul d 1).
Proof. unfold idx_add, idx_mul. simpl. f_equal; lia. Qed.

(** What [nearest_piece] finds lies on the walk and holds a piece. *)
Lemma nearest_piece_found (b : CheckersBoard) (origin delta : Index2D) (lfuel : nat)
    (k : Z) (o : CheckersPlayer) (c : Index2D) :
  nearest_piece lfuel b (idx_add origin (idx_mul delta k)) delta = Ret (Some (o, c)) ->
  in_board b c = true
  /\ (exists cp, board_get b c = Ret (Some cp) /\ owner cp = o)
  /\ (exists k', k <= k' /\ c = idx_add origin (idx_mul delta k')).
Proof.
  revert k. induction lfuel as [|n IH]; intros k; simpl; [discriminate|].
  destruct (in_board b (idx_add origin (idx_mul delta k))) eqn:Hin; [|discriminate].
  destruct (board_get b (idx_add origin (idx_mul delta k))) as [cell| |] eqn:Hcell;
    simpl; try discriminate.
  destruct cell as [cp|].
  - intros [= <- <-]. split; [exact Hin|]. split.
    + exists cp. split; [exact Hcell|reflexivity].
    + exists k. split; [lia|reflexivity].
  - rewrite idx_add_mul_succ. intros H. apply IH in H as (H1 & H2 & k' & Hk' & H3).
    split; [exact H1|]. split; [exact H2|]. exists k'. split; [lia|exact H3].
Qed.

Lemma king_landings_found (b : CheckersBoard) (origin captured delta : Index2D)
    (lfuel : nat) (n : Z) (jumps : list CheckersJump) :
  king_landings lfuel b captured (idx_add origin (idx_mul delta n)) delta = Ret jumps ->
  Forall (fun jump => captured_square jump = captured
                      /\ exists n', n <= n'
                           /\ destination jump = idx_add origin (idx_mul delta n')) jumps.
Proof.
  revert n jumps. induction lfuel as [|m IH]; intros n jumps; simpl; [discriminate|].
  destruct (in_board b (idx_add origin (idx_mul delta n))) eqn:Hin;
    [|intros [= <-]; constructor].
  destruct (board_get b (idx_add origin (idx_mul delta n))) as [cell| |] eqn:Hcell;
    simpl; try discriminate.
  destruct cell as [cp|]; [intros [= <-]; constructor|].
  rewrite idx_add_mul_succ.
  destruct (king_landings m b captured (idx_add origin (idx_mul delta (n + 1))) delta)
    as [rest| |] eqn:Hrest; simpl; try discriminate.
  intros [= <-]. constructor.
  - simpl. split; [reflexivity|]. exists n. split; [lia|reflexivity].
  - apply IH in Hrest. eapply Forall_impl; [exact Hrest|].
    intros j (H1 & n' & Hn' & H2). split; [exact H1|]. exists n'. split; [lia|exact H2].
Qed.

Lemma man_jump_returns (b : CheckersBoard) (piece : CheckersPiece) (origin : Index2D)
    (captured_squares : list Index2D) (delta : Index2D) :
  wf_board b -> returns (man_jump piece origin captured_squares b delta).
Proof.
  intros Hwf. unfold man_jump.
  destruct (in_board b (idx_add origin delta)) eqn:Hin; simpl; [|eexists; reflexivity].
  destruct (board_get_in b _ Hwf Hin) as [cell Hcell]. rewrite Hcell. simpl.
  destruct cell as [cp|]; [|eexists; reflexivity].
  destruct (player_eqb (owner cp) (owner piece)); [eexists; reflexivity|].
  destruct (in_board b (idx_add (idx_add origin delta) delta)) eqn:Hin'; simpl;
    [|eexists; reflexivity].
  destruct (board_get_in b _ Hwf Hin') as [cell' Hcell']. rewrite Hcell'. simpl.
  destruct cell'; [eexists; reflexivity|].
  destruct (idx_mem (idx_add origin delta) captured_squares); eexists; reflexivity.
Qed.

Lemma man_jump_legal (b : CheckersBoard) (piece : CheckersPiece) (origin : Index2D)
    (captured_squares : list Index2D) (delta : Index2D) (jumps : list CheckersJump) :
  delta ∈ DIAGONAL_DIRECTIONS ->
  man_jump piece origin captured_squares b delta = Ret jumps ->
  Forall (legal_jump b piece origin captured_squares) jumps.
Proof.
  intros Hdelta. unfold man_jump.
  destruct (in_board b (idx_add origin delta)) eqn:Hin; simpl;
    [|intros [= <-]; constructor].
  destruct (board_get b (idx_add origin delta)) as [cell| |] eqn:Hcell;
    simpl; try discriminate.
  destruct cell as [cp|]; [|intros [= <-]; constructor].
  destruct (player_eqb (owner cp) (owner piece)) eqn:Hown; [intros [= <-]; constructor|].
  destruct (in_board b (idx_add (idx_add origin delta) delta)) eqn:Hin'; simpl;
    [|intros [= <-]; constructor].
  destruct (board_get b (idx_add (idx_add origin delta) delta)) as [cell'| |];
    simpl; try discriminate.
  destruct cell'; [intros [= <-]; constructor|].
  destruct (idx_mem (idx_add origin delta) captured_squares) eqn:Hmem;
    intros [= <-]; constructor; [|constructor].
  unfold legal_jump. simpl. split; [exact Hmem|]. split; [exact Hin|]. split.
  - exists cp. split; [exact Hcell|exact Hown].
  - exists delta, 1, 2. split; [exact Hdelta|]. split; [lia|]. split.
    + apply idx_add_mul_one.
    + rewrite (idx_add_mul_one origin delta). apply idx_add_mul_succ.
Qed.

Lemma king_jump_returns (b : CheckersBoard) (piece : CheckersPiece) (origin : Index2D)
    (captured_squares : list Index2D) (delta : Index2D) (lfuel : nat) :
  wf_board b -> unit_step delta -> column_count b < Z.of_nat lfuel ->
  returns (king_jump lfuel piece origin captured_squares b delta).
Proof.
  intros Hwf Hd Hfuel. pose proof Hwf as (_ & Hc & _). unfold king_jump.
  destruct (nearest_piece_returns b delta lfuel (idx_add origin delta) Hwf Hd)
    as [found Hfound]; [lia| |].
  { intros Hin. pose proof (steps_left_in_board b _ delta Hd Hin). lia. }
  rewrite Hfound. simpl. destruct found as [[o c]|]; [|eexists; reflexivity].
  destruct (player_eqb o (owner piece)); [eexists; reflexivity|].
  destruct (idx_mem c captured_squares); [eexists; reflexivity|].
  apply king_landings_returns; [exact Hwf|exact Hd|lia|].
  intros Hin. pose proof (steps_left_in_board b _ delta Hd Hin). lia.
Qed.

Lemma king_jump_legal (b : CheckersBoard) (piece : CheckersPiece) (origin : Index2D)
    (captured_squares : list Index2D) (delta : Index2D) (lfuel : nat)
    (jumps : list CheckersJump) :
  delta ∈ DIAGONAL_DIRECTIONS ->
  king_jump lfuel piece origin captured_squares b delta = Ret jumps ->
  Forall (legal_jump b piece origin captured_squares) jumps.
Proof.
  intros Hdelta. unfold king_jump.
  rewrite (idx_add_mul_one origin delta).
  destruct (nearest_piece lfuel b (idx_add origin (idx_mul delta 1)) delta)
    as [found| |] eqn:Hfound; simpl; try discriminate.
  destruct found as [[o c]|]; [|intros [= <-]; constructor].
  apply nearest_piece_found in Hfound as (Hin & (cp & Hcp & Ho) & k & Hk & Hc).
  destruct (player_eqb o (owner piece)) eqn:Hown; [intros [= <-]; constructor|].
  destruct (idx_mem c captured_squares) eqn:Hmem; [intros [= <-]; constructor|].
  rewrite Hc at 2. rewrite idx_add_mul_succ. intros Hland.
  apply king_landings_found in Hland.
  eapply Forall_impl; [exact Hland|].
  intros j (Hj1 & n & Hn & Hj2). unfold legal_jump. rewrite Hj1.
  split; [exact Hmem|]. split; [exact Hin|]. split.
  - exists cp. split; [exact Hcp|]. rewrite Ho. exact Hown.
  - exists delta, k, n. split; [exact Hdelta|]. split; [lia|]. split; assumption.
Qed.

Lemma add_legal_jumps_returns (b : CheckersBoard) (piece : CheckersPiece)
    (origin : Index2D) (captured_squares : list Index2D) (lfuel : nat) :
  wf_board b -> column_count b < Z.of_nat lfuel ->
  returns (add_legal_jumps lfuel piece origin captured_squares b).
Proof.
  intros Hwf Hfuel. unfold add_legal_jumps.
  destruct (type piece); apply for_each_returns; intros delta Hdelta.
  - apply man_jump_returns. exact Hwf.
  - apply king_jump_returns; [exact Hwf|apply diagonal_unit_step; exact Hdelta|exact Hfuel].
Qed.

Lemma add_legal_jumps_legal (b : CheckersBoard) (piece : CheckersPiece)
    (origin : Index2D) (captured_squares : list Index2D) (lfuel : nat)
    (jumps : list CheckersJump) :
  add_legal_jumps lfuel piece origin captured_squares b = Ret jumps ->
  Forall (legal_jump b piece origin captured_squares) jumps.
Proof.
  unfold add_legal_jumps.
  destruct (type piece); apply for_each_Forall; intros delta xs Hdelta.
  - apply man_jump_legal. exact Hdelta.
  - apply king_jump_legal. exact Hdelta.
Qed.

Lemma idx_eqb_refl (a : Index2D) : idx_eqb a a = true.
Proof. unfold idx_eqb. rewrite !Z.eqb_refl. reflexivity. Qed.

Lemma idx_eqb_eq (a b : Index2D) : idx_eqb a b = true <-> a = b.
Proof.
  unfold idx_eqb. rewrite andb_true_iff, !Z.eqb_eq. destruct a, b; simpl.
  split; [intros [-> ->]; reflexivity|intros [= -> ->]; split; reflexivity].
Qed.

Lemma idx_mem_app (a : Index2D) (l l' : list Index2D) :
  idx_mem a (l ++ l') = idx_mem a l || idx_mem a l'.
Proof. unfold idx_mem. apply existsb_app. Qed.

Lemma filter_length_lt {A} (P Q : A -> bool) (l : list A) (x0 : A) :
  (forall x, Q x = true -> P x = true) ->
  In x0 l -> P x0 = true -> Q x0 = false ->
  (length (List.filter Q l) < length (List.filter P l))%nat.
Proof.
  intros HQP. 
  assert (Hle : forall l', (length (List.filter Q l') <= length (List.filter P l'))%nat).
  { induction l' as [|a l' IH]; simpl; [lia|].
    destruct (Q a) eqn:EQ.
    - rewrite (HQP a EQ). simpl. lia.
    - destruct (P a); simpl; lia. }
  induction l as [|a l IH]; intros Hin HP HQ; [destruct Hin|].
  simpl. destruct Hin as [->|Hin].
  - rewrite HP, HQ. simpl. specialize (Hle l). lia.
  - specialize (IH Hin HP HQ). destruct (Q a) eqn:EQ.
    + rewrite (HQP a EQ). simpl. lia.
    + destruct (P a); simpl; lia.
Qed.

Lemma in_board_squares (b : CheckersBoard) (square : Index2D) :
  wf_board b -> in_board b square = true -> In square (board_squares b).
Proof.
  intros Hwf Hin. pose proof Hwf as (Hr & Hc & Hlen & _).
  apply in_board_bounds in Hin as [Hx Hy].
  unfold board_squares. apply in_concat.
  destruct (list_2d b !! Z.to_nat (ix square)) as [column|] eqn:E.
  - exists (column_squares (Z.to_nat (ix square)) column). split.
    + apply list_elem_of_In. apply elem_of_lookup_imap.
      exists (Z.to_nat (ix square)), column. split; [reflexivity|exact E].
    + unfold column_squares. apply in_map_iff. exists (Z.to_nat (iy square)). split.
      * destruct square as [x y]. simpl in *. f_equal; lia.
      * apply in_seq. rewrite (wf_column _ _ _ Hwf E). lia.
  - apply lookup_ge_None in E. lia.
Qed.

Lemma opponents_left_decreases (b : CheckersBoard) (piece : CheckersPiece)
    (origin : Index2D) (captured_squares : list Index2D) (jump : CheckersJump) :
  wf_board b -> legal_jump b piece origin captured_squares jump ->
  (opponents_left piece (captured_squares ++ [captured_square jump]) b
   < opponents_left piece captured_squares b)%nat.
Proof.
  intros Hwf (Hmem & Hin & (cp & Hcp & Hown) & _).
  unfold opponents_left.
  apply (filter_length_lt _ _ _ (captured_square jump)).
  - intros sq. rewrite idx_mem_app, !andb_true_iff, negb_orb, andb_true_iff. tauto.
  - apply in_board_squares; assumption.
  - unfold holds_opponent. rewrite Hcp, Hown, Hmem. reflexivity.
  - rewrite idx_mem_app. simpl. rewrite idx_eqb_refl, orb_true_r. simpl.
    apply andb_false_r.
Qed.

(** The capture search returns within a depth of one more than the number
    of opposing pieces that can still be captured. *)
Lemma add_legal_capturing_moves_returns (b : CheckersBoard) (piece : CheckersPiece)
    (lfuel fuel : nat) (visited_squares captured_squares : list Index2D) :
  wf_board b -> column_count b < Z.of_nat lfuel ->
  (opponents_left piece captured_squares b < fuel)%nat ->
  visited_squares <> [] ->
  returns (add_legal_capturing_moves fuel lfuel piece visited_squares captured_squares b).
Proof.
  intros Hwf Hlfuel. revert visited_squares captured_squares.
  induction fuel as [|n IH]; intros visited captured Hfuel Hne; [lia|].
  simpl. destruct (last visited) as [origin|] eqn:Hlast.
  2:{ apply last_None in Hlast. contradiction. }
  simpl.
  destruct (add_legal_jumps_returns b piece origin captured lfuel Hwf Hlfuel)
    as [jumps Hjumps].
  rewrite Hjumps. simpl.
  apply add_legal_jumps_legal in Hjumps.
  destruct jumps as [|j jumps].
  - destruct (2 <=? Z.of_nat (length visited)); eexists; reflexivity.
  - apply for_each_returns. intros jump Hjump.
    rewrite Forall_forall in Hjumps. specialize (Hjumps jump Hjump).
    apply IH.
    + pose proof (opponents_left_decreases b piece origin captured jump Hwf Hjumps). lia.
    + intros Heq. apply app_eq_nil in Heq as [_ Heq]. discriminate Heq.
Qed.

(* ================================================================== *)
(** ** [determine_legal_moves] and the board *)

Lemma imap_same_shape {A B} (f : nat -> list A -> B) (l l' : list (list A)) :
  (forall i c c', length c = length c' -> f i c = f i c') ->
  Forall2 (fun c c' => length c = length c') l l' ->
  imap f l = imap f l'.
Proof.
  intros Hf Hshape. revert f Hf.
  induction Hshape as [|c c' l l' Hc _ IH]; intros f Hf; simpl; [reflexivity|].
  f_equal; [apply Hf; exact Hc|]. apply IH. intros i. apply Hf.
Qed.

Lemma board_set_squares (b b' : CheckersBoard) (i : Index2D) (p : option CheckersPiece) :
  board_set b i p = Ret b' -> board_squares b' = board_squares b.
Proof.
  intros Hset. apply board_set_shape in Hset as (_ & _ & Hshape).
  unfold board_squares. f_equal. symmetry.
  apply imap_same_shape; [|exact Hshape].
  intros k c c' Hlen. unfold column_squares. rewrite Hlen. reflexivity.
Qed.

Lemma board_set_in_board (b b' : CheckersBoard) (i j : Index2D) (p : option CheckersPiece) :
  board_set b i p = Ret b' -> in_board b' j = in_board b j.
Proof.
  intros Hset. apply board_set_shape in Hset as (Er & Ec & _).
  unfold in_board. rewrite Er, Ec. reflexivity.
Qed.

Lemma board_squares_in_board (b : CheckersBoard) (square : Index2D) :
  wf_board b -> In square (board_squares b) -> in_board b square = true.
Proof.
  intros Hwf Hin. pose proof Hwf as (Hr & Hc & Hlen & _).
  unfold board_squares in Hin. apply in_concat in Hin as (l & Hl & Hsq).
  apply list_elem_of_In, elem_of_lookup_imap in Hl as (k & column & -> & Hk).
  unfold column_squares in Hsq. apply in_map_iff in Hsq as (y & <- & Hy).
  apply in_seq in Hy. rewrite (wf_column _ _ _ Hwf Hk) in Hy.
  apply lookup_lt_Some in Hk.
  apply in_board_bounds. simpl. lia.
Qed.

Lemma opponents_left_le (b : CheckersBoard) (piece : CheckersPiece)
    (captured_squares : list Index2D) :
  (opponents_left piece captured_squares b <= length (board_squares b))%nat.
Proof. unfold opponents_left. apply filter_length_le. Qed.

(** Whenever the capture loop runs to its end, it has put back every piece
    it took off the board. *)
Lemma capture_loop_restores (fuel lfuel : nat) (player : CheckersPlayer)
    (squares : list Index2D) (b b' : CheckersBoard) (moves gathered : list CheckersMove) :
  capture_loop fuel lfuel player squares b moves = (Ret gathered, b') -> b' = b.
Proof.
  revert moves. induction squares as [|sq rest IH]; intros moves; simpl.
  - intros [= _ <-]. reflexivity.
  - destruct (board_get b sq) as [[piece|]| |] eqn:Hget; try discriminate; [|apply IH].
    destruct (negb (player_eqb (owner piece) player)); [apply IH|].
    destruct (board_set b sq None) as [b1| |] eqn:Hset1; try discriminate.
    destruct (add_legal_capturing_moves fuel lfuel piece [sq] [] b1) as [added| |];
      try discriminate.
    destruct (board_set b1 sq (Some piece)) as [b2| |] eqn:Hset2; try discriminate.
    rewrite (board_set_restore b b1 b2 sq piece Hget Hset1 Hset2). apply IH.
Qed.

Lemma capture_loop_returns (fuel lfuel : nat) (player : CheckersPlayer)
    (squares : list Index2D) (b : CheckersBoard) (moves : list CheckersMove) :
  wf_board b -> column_count b < Z.of_nat lfuel ->
  (length (board_squares b) < fuel)%nat ->
  (forall sq, In sq squares -> in_board b sq = true) ->
  exists gathered, capture_loop fuel lfuel player squares b moves = (Ret gathered, b).
Proof.
  intros Hwf Hlfuel Hfuel. revert moves.
  induction squares as [|sq rest IH]; intros moves Hin; simpl.
  - eexists. reflexivity.
  - assert (Hrest : forall sq', In sq' rest -> in_board b sq' = true)
      by (intros sq' H; apply Hin; right; exact H).
    assert (Hsq : in_board b sq = true) by (apply Hin; left; reflexivity).
    destruct (board_get_in b sq Hwf Hsq) as [[piece|] Hget]; rewrite Hget;
      [|apply IH; exact Hrest].
    destruct (negb (player_eqb (owner piece) player)); [apply IH; exact Hrest|].
    destruct (board_set_in b sq None Hwf Hsq) as [b1 Hset1]. rewrite Hset1.
    pose proof (board_set_wf _ _ _ _ Hwf Hset1) as Hwf1.
    destruct (add_legal_capturing_moves_returns b1 piece lfuel fuel [sq] [] Hwf1)
      as [added Hadded].
    + apply board_set_shape in Hset1 as (_ & -> & _). exact Hlfuel.
    + pose proof (opponents_left_le b1 piece []) as Hle.
      rewrite (board_set_squares _ _ _ _ Hset1) in Hle. lia.
    + discriminate.
    + rewrite Hadded.
      destruct (board_set_in b1 sq (Some piece) Hwf1) as [b2 Hset2].
      { rewrite (board_set_in_board _ _ _ _ _ Hset1). exact Hsq. }
      rewrite Hset2.
      rewrite (board_set_restore b b1 b2 sq piece Hget Hset1 Hset2).
      apply IH. exact Hrest.
Qed.

Lemma add_legal_non_capturing_moves_returns (b : CheckersBoard) (lfuel : nat)
    (piece_type : CheckersPieceType) (player : CheckersPlayer) (origin : Index2D) :
  wf_board b -> column_count b < Z.of_nat lfuel ->
  returns (add_legal_non_capturing_moves lfuel piece_type
             (get_forward_directions player) origin b).
Proof.
  intros Hwf Hlfuel. pose proof Hwf as (_ & Hc & _).
  unfold add_legal_non_capturing_moves.
  destruct piece_type; apply for_each_returns; intros delta Hdelta.
  - destruct (in_board b (idx_add origin delta)) eqn:Hin; [|eexists; reflexivity].
    destruct (board_get_in b _ Hwf Hin) as [cell Hcell]. rewrite Hcell. simpl.
    destruct cell; eexists; reflexivity.
  - apply diagonal_unit_step in Hdelta.
    apply king_slide_returns; [exact Hwf|exact Hdelta|lia|].
    intros Hin. pose proof (steps_left_in_board b _ delta Hdelta Hin). lia.
Qed.

Lemma non_capture_loop_returns (b : CheckersBoard) (lfuel : nat) (player : CheckersPlayer) :
  wf_board b -> column_count b < Z.of_nat lfuel ->
  returns (non_capture_loop lfuel player b).
Proof.
  intros Hwf Hlfuel. unfold non_capture_loop.
  apply for_each_returns. intros [square piece] _.
  destruct (negb (player_eqb (owner piece) player)); [eexists; reflexivity|].
  apply add_legal_non_capturing_moves_returns; assumption.
Qed.

Lemma determine_legal_moves_restores (fuel lfuel : nat) (player : CheckersPlayer)
    (b b' : CheckersBoard) (moves : list CheckersMove) :
  determine_legal_moves fuel lfuel player b = (Ret moves, b') -> b' = b.
Proof.
  unfold determine_legal_moves.
  destruct (capture_loop fuel lfuel player (board_squares b) b []) as [[gathered| |] b1] eqn:E;
    try discriminate.
  apply capture_loop_restores in E as ->.
  destruct gathered; intros [= _ <-]; reflexivity.
Qed.

(** C9: on a well-formed board and with enough fuel, [determine_legal_moves]
    returns its moves and leaves the board as it found it, cell for cell:
    each piece taken off its origin square is put back, and the capture
    search itself only reads the board. *)
Theorem determine_legal_moves_preserves_board (fuel lfuel : nat) (player : CheckersPlayer)
    (board : CheckersBoard) :
  wf_board board -> column_count board < Z.of_nat lfuel ->
  (length (board_squares board) < fuel)%nat ->
  exists moves, determine_legal_moves fuel lfuel player board = (Ret moves, board).
Proof.
  intros Hwf Hlfuel Hfuel. unfold determine_legal_moves.
  destruct (capture_loop_returns fuel lfuel player (board_squares board) board []
              Hwf Hlfuel Hfuel) as [gathered Hg].
  { intros sq. apply board_squares_in_board. exact Hwf. }
  rewrite Hg. destruct gathered as [|m ms].
  - destruct (non_capture_loop_returns board lfuel player Hwf Hlfuel) as [moves Hm].
    rewrite Hm. eexists. reflexivity.
  - eexists. reflexivity.
Qed.

Lemma capture_board_wf : wf_board capture_board.
Proof.
  unfold wf_board. simpl. repeat split; try lia. repeat constructor.
Qed.

Lemma determine_legal_moves_preserves_board_witness :
  exists moves, determine_legal_moves 17 5 LIGHT capture_board = (Ret moves, capture_board).
Proof.
  apply (determine_legal_moves_preserves_board 17 5 LIGHT capture_board);
    [exact capture_board_wf | simpl; lia | simpl; lia].
Defined.

(** C10: the capture search terminates, for every piece, board and
    starting lists.  Every jump offered by [add_legal_jumps] captures a
    square that is not among the captured squares and holds a piece of the
    other player, so each recursive call has fewer capturable pieces left;
    a depth of one more than their number suffices.  (On an empty
    [visited_squares] the call ends at once with an [IndexError].) *)
Theorem add_legal_capturing_moves_terminates (board : CheckersBoard)
    (piece : CheckersPiece) (lfuel fuel : nat)
    (visited_squares captured_squares : list Index2D) :
  wf_board board -> column_count board < Z.of_nat lfuel ->
  (opponents_left piece captured_squares board < fuel)%nat ->
  (visited_squares <> [] ->
   returns (add_legal_capturing_moves fuel lfuel piece visited_squares
              captured_squares board))
  /\ (visited_squares = [] ->
      add_legal_capturing_moves fuel lfuel piece visited_squares captured_squares board
      = Raise IndexError)
  /\ (forall origin, exists jumps,
        add_legal_jumps lfuel piece origin captured_squares board = Ret jumps
        /\ Forall (fun jump =>
             idx_mem (captured_square jump) captured_squares = false
             /\ holds_opponent board piece (captured_square jump) = true
             /\ (opponents_left piece (captured_squares ++ [captured_square jump]) board
                 < opponents_left piece captured_squares board)%nat) jumps).
Proof.
  intros Hwf Hlfuel Hfuel. split; [|split].
  - intros Hne. apply add_legal_capturing_moves_returns; assumption.
  - intros ->. destruct fuel as [|n]; [lia|]. reflexivity.
  - intros origin.
    destruct (add_legal_jumps_returns board piece origin captured_squares lfuel Hwf Hlfuel)
      as [jumps Hjumps].
    exists jumps. split; [exact Hjumps|].
    apply add_legal_jumps_legal in Hjumps.
    eapply Forall_impl; [exact Hjumps|].
    intros jump Hjump.
    pose proof (opponents_left_decreases board piece origin captured_squares jump Hwf Hjump)
      as Hdec.
    destruct Hjump as (Hmem & _ & (cp & Hcp & Hown) & _).
    split; [exact Hmem|]. split; [|exact Hdec].
    unfold holds_opponent. rewrite Hcp, Hown. reflexivity.
Qed.

Lemma add_legal_capturing_moves_terminates_witness :
  returns (add_legal_capturing_moves 2 5 (Piece LIGHT MAN) [Idx 0 0] [] capture_board).
Proof.
  apply (add_legal_capturing_moves_terminates capture_board (Piece LIGHT MAN) 5 2
           [Idx 0 0] []);
    [exact capture_board_wf | simpl; lia | vm_compute; lia | discriminate].
Defined.

(* ================================================================== *)
(** ** [CheckersState.apply] *)

Lemma board_get_error (b : CheckersBoard) (i : Index2D) (e : exn) :
  board_get b i = Raise e -> e = IndexError.
Proof.
  unfold board_get.
  destruct (py_get (list_2d b) (ix i)) as [column|]; simpl; [|congruence].
  destruct (py_get column (iy i)); simpl; congruence.
Qed.

Lemma board_set_error (b : CheckersBoard) (i : Index2D) (p : option CheckersPiece) (e : exn) :
  board_set b i p = Raise e -> e = IndexError.
Proof.
  unfold board_set.
  destruct (py_get (list_2d b) (ix i)) as [column|]; simpl; [|congruence].
  destruct (py_set column (iy i) p) as [column'|]; simpl; [|congruence].
  destruct (py_set (list_2d b) (ix i) column'); simpl; congruence.
Qed.

Lemma remove_loop_error (lfuel : nat) (square end_square delta : Index2D)
    (b b' : CheckersBoard) (e : exn) :
  remove_loop lfuel square end_square delta b = (Raise e, b') -> e = IndexError.
Proof.
  revert square b. induction lfuel as [|n IH]; intros square b; simpl; [discriminate|].
  destruct (idx_eqb square end_square); [discriminate|].
  destruct (board_set b square None) as [b1|e1|] eqn:Hset; [apply IH| |discriminate].
  intros [= <- _]. eapply board_set_error. exact Hset.
Qed.

Lemma remove_captured_error (lfuel : nat) (pairs : list (Index2D * Index2D))
    (b b' : CheckersBoard) (e : exn) :
  remove_captured lfuel pairs b = (Raise e, b') -> e = IndexError.
Proof.
  revert b. induction pairs as [|[previous_square square] rest IH]; intros b; simpl;
    [discriminate|].
  destruct (remove_pieces_between lfuel previous_square square b) as [[u|e1|] b1] eqn:Hrm;
    [apply IH| |discriminate].
  intros [= <- _]. unfold remove_pieces_between in Hrm.
  eapply remove_loop_error. exact Hrm.
Qed.

(** [rules.apply] raises no [ValueError]. *)
Lemma apply_error (lfuel : nat) (move : CheckersMove) (b b' : CheckersBoard) (e : exn) :
  apply lfuel move b = (Raise e, b') -> e = IndexError \/ e = AttributeError.
Proof.
  unfold apply, move_origin, move_destination.
  destruct (head move) as [origin|]; simpl.
  2:{ destruct (last move); simpl; intros [= <- _]; left; reflexivity. }
  destruct (last move) as [dest|]; simpl; [|intros [= <- _]; left; reflexivity].
  destruct (board_get b origin) as [cell|e1|] eqn:Hget; [| |discriminate].
  2:{ intros [= <- _]. left. eapply board_get_error. exact Hget. }
  destruct (board_set b origin None) as [b1|e1|] eqn:Hset; [| |discriminate].
  2:{ intros [= <- _]. left. eapply board_set_error. exact Hset. }
  destruct cell as [moving_piece|]; [|intros [= <- _]; right; reflexivity].
  destruct (remove_captured lfuel (consecutive_pairs move) b1) as [[u|e1|] b2] eqn:Hrm;
    [| |discriminate].
  2:{ intros [= <- _]. left. eapply remove_captured_error. exact Hrm. }
  match goal with
  | |- context [board_set b2 dest ?p] =>
      destruct (board_set b2 dest p) as [b3|e1|] eqn:Hset2; [discriminate| |discriminate]
  end.
  intros [= <- _]. left. eapply board_set_error. exact Hset2.
Qed.

Lemma player_next_returns (p : CheckersPlayer) : player_next p = Ret (other_player p).
Proof. destruct p; reflexivity. Qed.

(** Reading the legal moves changes nothing but the cache. *)
Lemma legal_moves_frame (fuel lfuel : nat) (s s1 : CheckersState)
    (moves : list CheckersMove) :
  legal_moves fuel lfuel s = (Ret moves, s1) ->
  _board s1 = _board s /\ _current_player s1 = _current_player s
  /\ _ply_count s1 = _ply_count s /\ _cached_legal_moves s1 = Some moves.
Proof.
  unfold legal_moves. destruct (_cached_legal_moves s) as [cached|] eqn:Hc.
  - intros [= <- <-]. repeat split. exact Hc.
  - destruct (determine_legal_moves fuel lfuel (_current_player s) (_board s))
      as [[ms| |] b'] eqn:Hd; try discriminate.
    apply determine_legal_moves_restores in Hd as ->.
    intros [= <- <-]. simpl. repeat split.
Qed.

Lemma determine_legal_moves_returns (fuel lfuel : nat) (player : CheckersPlayer)
    (board : CheckersBoard) :
  wf_board board -> column_count board < Z.of_nat lfuel ->
  (length (board_squares board) < fuel)%nat ->
  exists moves, determine_legal_moves fuel lfuel player board = (Ret moves, board).
Proof.
  intros Hwf Hlfuel Hfuel. unfold determine_legal_moves.
  destruct (capture_loop_returns fuel lfuel player (board_squares board) board []
              Hwf Hlfuel Hfuel) as [gathered Hg].
  { intros sq. apply board_squares_in_board. exact Hwf. }
  rewrite Hg. destruct gathered as [|m ms].
  - destruct (non_capture_loop_returns board lfuel player Hwf Hlfuel) as [moves Hm].
    rewrite Hm. eexists. reflexivity.
  - eexists. reflexivity.
Qed.

Lemma legal_moves_returns (fuel lfuel : nat) (s : CheckersState) :
  wf_board (_board s) -> column_count (_board s) < Z.of_nat lfuel ->
  (length (board_squares (_board s)) < fuel)%nat ->
  exists moves s1, legal_moves fuel lfuel s = (Ret moves, s1).
Proof.
  intros Hwf Hlfuel Hfuel. unfold legal_moves.
  destruct (_cached_legal_moves s) as [cached|]; [eexists _, _; reflexivity|].
  destruct (determine_legal_moves_returns fuel lfuel (_current_player s) (_board s)
              Hwf Hlfuel Hfuel) as [moves Hm].
  rewrite Hm. eexists _, _. reflexivity.
Qed.

(** C3: [CheckersState.apply] raises the illegal-move error exactly when
    the move is not among the legal moves of the state, and then the board,
    the player to move and the ply count are what they were before the
    call. *)
Theorem state_apply_illegal_move (fuel lfuel : nat) (s : CheckersState)
    (move : CheckersMove) :
  wf_board (_board s) -> column_count (_board s) < Z.of_nat lfuel ->
  (length (board_squares (_board s)) < fuel)%nat ->
  exists moves s1,
    legal_moves fuel lfuel s = (Ret moves, s1)
    /\ (fst (state_apply fuel lfuel s move) = Raise (ValueError IllegalMove)
        <-> move_mem move moves = false)
    /\ (fst (state_apply fuel lfuel s move) = Raise (ValueError IllegalMove) ->
        _board (snd (state_apply fuel lfuel s move)) = _board s
        /\ _current_player (snd (state_apply fuel lfuel s move)) = _current_player s
        /\ _ply_count (snd (state_apply fuel lfuel s move)) = _ply_count s).
Proof.
  intros Hwf Hlfuel Hfuel.
  destruct (legal_moves_returns fuel lfuel s Hwf Hlfuel Hfuel) as (moves & s1 & Hlegal).
  exists moves, s1. split; [exact Hlegal|].
  pose proof (legal_moves_frame _ _ _ _ _ Hlegal) as (Hb & Hp & Hn & _).
  unfold state_apply. rewrite Hlegal.
  destruct (move_mem move moves) eqn:Hmem; simpl.
  - assert (Hno : fst (match apply lfuel move (_board s1) with
                       | (Ret _, board') =>
                           match player_next (_current_player s1) with
                           | Ret next => (Ret tt, State board' next (_ply_count s1 + 1) None)
                           | Raise e =>
                               (Raise e, State board' (_current_player s1) (_ply_count s1)
                                           (_cached_legal_moves s1))
                           | Timeout =>
                               (Timeout, State board' (_current_player s1) (_ply_count s1)
                                           (_cached_legal_moves s1))
                           end
                       | (Raise e, board') =>
                           (Raise e, State board' (_current_player s1) (_ply_count s1)
                                       (_cached_legal_moves s1))
                       | (Timeout, board') =>
                           (Timeout, State board' (_current_player s1) (_ply_count s1)
                                       (_cached_legal_moves s1))
                       end) <> Raise (ValueError IllegalMove)).
    { destruct (apply lfuel move (_board s1)) as [[u|e|] b'] eqn:Happ; simpl.
      - rewrite player_next_returns. simpl. discriminate.
      - apply apply_error in Happ as [->| ->]; discriminate.
      - discriminate. }
    split; [split; [intros H; contradiction|discriminate]|].
    intros H. contradiction.
  - split; [split; reflexivity|]. intros _. repeat split; assumption.
Qed.

Lemma state_apply_illegal_move_witness :
  exists moves s1,
    legal_moves 17 5 (State capture_board LIGHT 0 None) = (Ret moves, s1)
    /\ (fst (state_apply 17 5 (State capture_board LIGHT 0 None) [Idx 0 0; Idx 1 1])
        = Raise (ValueError IllegalMove)
        <-> move_mem [Idx 0 0; Idx 1 1] moves = false)
    /\ (fst (state_apply 17 5 (State capture_board LIGHT 0 None) [Idx 0 0; Idx 1 1])
        = Raise (ValueError IllegalMove) ->
        _board (snd (state_apply 17 5 (State capture_board LIGHT 0 None) [Idx 0 0; Idx 1 1]))
        = capture_board
        /\ _current_player
             (snd (state_apply 17 5 (State capture_board LIGHT 0 None) [Idx 0 0; Idx 1 1]))
           = LIGHT
        /\ _ply_count
             (snd (state_apply 17 5 (State capture_board LIGHT 0 None) [Idx 0 0; Idx 1 1]))
           = 0).
Proof.
  apply (state_apply_illegal_move 17 5 (State capture_board LIGHT 0 None) [Idx 0 0; Idx 1 1]);
    [exact capture_board_wf | simpl; lia | simpl; lia].
Defined.

(* ================================================================== *)
(** ** Mandatory maximal capture *)

Lemma player_eqb_eq (p q : CheckersPlayer) : player_eqb p q = true <-> p = q.
Proof. destruct p, q; simpl; split; congruence. Qed.

(** A piece seen after a square was cleared was there before. *)
Lemma board_get_after_clear (b b1 : CheckersBoard) (i j : Index2D) (cp : CheckersPiece) :
  board_set b i None = Ret b1 ->
  board_get b1 j = Ret (Some cp) -> board_get b j = Ret (Some cp).
Proof.
  unfold board_get, board_set, py_get, py_set.
  destruct (py_index (ix i) (length (list_2d b))) as [kx|] eqn:Ex; [|discriminate].
  destruct (list_2d b !! kx) as [column|] eqn:Ec; [|discriminate]. simpl.
  destruct (py_index (iy i) (length column)) as [ky|] eqn:Ey; [|discriminate]. simpl.
  intros [= <-]. simpl. rewrite length_insert.
  destruct (py_index (ix j) (length (list_2d b))) as [kx'|] eqn:Ex'; [|discriminate].
  destruct (decide (kx = kx')) as [<-|Hne].
  - rewrite list_lookup_insert_eq by (eapply lookup_lt_Some; exact Ec).
    rewrite Ec. simpl. rewrite length_insert.
    destruct (py_index (iy j) (length column)) as [ky'|] eqn:Ey'; [|discriminate].
    destruct (decide (ky = ky')) as [<-|Hne'].
    + rewrite list_lookup_insert_eq by (eapply py_index_lt; exact Ey). simpl. discriminate.
    + rewrite list_lookup_insert_ne by exact Hne'. trivial.
  - rewrite list_lookup_insert_ne by exact Hne. trivial.
Qed.

Lemma capture_chain_after_clear (b b1 : CheckersBoard) (i : Index2D)
    (player : CheckersPlayer) (a : Index2D) (rest : list Index2D) :
  board_set b i None = Ret b1 ->
  capture_chain b1 player a rest -> capture_chain b player a rest.
Proof.
  intros Hset. revert a. induction rest as [|sq rest IH]; intros a; simpl; [trivial|].
  intros [(delta & k & n & cp & H1 & H2 & H3 & H4 & H5) Hrest]. split.
  - exists delta, k, n, cp. repeat split; try assumption; try lia.
    eapply board_get_after_clear; eassumption.
  - apply IH. exact Hrest.
Qed.

Lemma legal_jump_jumps_over (b : CheckersBoard) (piece : CheckersPiece) (origin : Index2D)
    (captured_squares : list Index2D) (jump : CheckersJump) :
  legal_jump b piece origin captured_squares jump ->
  jumps_over b (owner piece) origin (destination jump).
Proof.
  intros (_ & _ & (cp & Hcp & Hown) & delta & k & n & Hd & Hk & Hc & Hdest).
  exists delta, k, n, cp. rewrite <- Hc. repeat split; try assumption; lia.
Qed.

(** Every move the capture search adds extends the visited squares by a
    chain of jumps, and has at least two squares. *)
Lemma add_legal_capturing_moves_chains (b : CheckersBoard) (piece : CheckersPiece)
    (lfuel fuel : nat) (visited_squares captured_squares : list Index2D)
    (origin : Index2D) (moves : list CheckersMove) :
  last visited_squares = Some origin ->
  add_legal_capturing_moves fuel lfuel piece visited_squares captured_squares b = Ret moves ->
  Forall (fun move => (2 <= length move)%nat
                      /\ exists rest, move = visited_squares ++ rest
                                      /\ capture_chain b (owner piece) origin rest) moves.
Proof.
  revert visited_squares captured_squares origin moves.
  induction fuel as [|n IH]; intros visited captured origin moves Hlast; simpl;
    [discriminate|].
  rewrite Hlast. simpl.
  destruct (add_legal_jumps lfuel piece origin captured b) as [jumps| |] eqn:Hjumps;
    simpl; try discriminate.
  apply add_legal_jumps_legal in Hjumps.
  destruct jumps as [|j jumps].
  - destruct (2 <=? Z.of_nat (length visited)) eqn:Hlen; intros [= <-]; constructor;
      [|constructor].
    apply Z.leb_le in Hlen. split; [lia|].
    exists []. rewrite app_nil_r. split; [reflexivity|exact I].
  - apply for_each_Forall. intros jump xs Hjump Hxs.
    rewrite Forall_forall in Hjumps. specialize (Hjumps jump Hjump).
    apply (IH _ _ (destination jump)) in Hxs; [|apply last_snoc].
    eapply Forall_impl; [exact Hxs|].
    intros move (Hlen & rest & -> & Hchain). split; [exact Hlen|].
    exists (destination jump :: rest). split.
    + rewrite <- app_assoc. reflexivity.
    + simpl. split; [|exact Hchain].
      eapply legal_jump_jumps_over. exact Hjumps.
Qed.

(** The capture loop gathers capturing moves only. *)
Lemma capture_loop_captures (fuel lfuel : nat) (player : CheckersPlayer)
    (squares : list Index2D) (b b' : CheckersBoard) (moves gathered : list CheckersMove) :
  Forall (capturing_move b player) moves ->
  capture_loop fuel lfuel player squares b moves = (Ret gathered, b') ->
  Forall (capturing_move b player) gathered.
Proof.
  revert moves. induction squares as [|sq rest IH]; intros moves Hmoves; simpl.
  - intros [= <- _]. exact Hmoves.
  - destruct (board_get b sq) as [[piece|]| |] eqn:Hget; try discriminate;
      [|apply IH; exact Hmoves].
    destruct (negb (player_eqb (owner piece) player)) eqn:Hown; [apply IH; exact Hmoves|].
    apply negb_false_iff, player_eqb_eq in Hown.
    destruct (board_set b sq None) as [b1| |] eqn:Hset1; try discriminate.
    destruct (add_legal_capturing_moves fuel lfuel piece [sq] [] b1) as [added| |] eqn:Hadd;
      try discriminate.
    destruct (board_set b1 sq (Some piece)) as [b2| |] eqn:Hset2; try discriminate.
    rewrite (board_set_restore b b1 b2 sq piece Hget Hset1 Hset2).
    apply IH. apply Forall_app. split; [exact Hmoves|].
    apply (add_legal_capturing_moves_chains _ _ _ _ _ _ sq) in Hadd; [|reflexivity].
    eapply Forall_impl; [exact Hadd|].
    intros move (Hlen & ext & -> & Hchain). rewrite Hown in Hchain.
    destruct ext as [|x ext]; [simpl in Hlen; lia|].
    simpl. eapply capture_chain_after_clear in Hchain; [|exact Hset1].
    exact Hchain.
Qed.

Lemma max_move_length_fold (ms : list CheckersMove) (acc : Z) :
  let r := fold_left (fun a m' => Z.max a (move_len m')) ms acc in
  acc <= r /\ (forall m, m ∈ ms -> move_len m <= r)
  /\ (r = acc \/ exists m, m ∈ ms /\ move_len m = r).
Proof.
  cbv zeta. revert acc. induction ms as [|m ms IH]; intros acc; simpl.
  - split; [lia|]. split; [|left; reflexivity].
    intros m Hm. apply elem_of_nil in Hm. contradiction.
  - destruct (IH (Z.max acc (move_len m))) as (H1 & H2 & H3).
    split; [lia|]. split.
    + intros m' Hm'. apply elem_of_cons in Hm' as [->|Hm']; [lia|apply H2; exact Hm'].
    + destruct H3 as [H3|(m' & Hm' & H3)].
      * destruct (Z.max_spec acc (move_len m)) as [[_ Hmax]|[_ Hmax]].
        -- right. exists m. split; [left|lia].
        -- left. lia.
      * right. exists m'. split; [right; exact Hm'|exact H3].
Qed.

Lemma max_move_length_spec (moves : list CheckersMove) :
  moves <> [] ->
  (forall m, m ∈ moves -> move_len m <= max_move_length moves)
  /\ (exists m, m ∈ moves /\ move_len m = max_move_length moves).
Proof.
  destruct moves as [|m ms]; [contradiction|]. intros _. unfold max_move_length.
  destruct (max_move_length_fold ms (move_len m)) as (H1 & H2 & H3). split.
  - intros m' Hm'. apply elem_of_cons in Hm' as [->|Hm']; [exact H1|apply H2; exact Hm'].
  - destruct H3 as [H3|(m' & Hm' & H3)].
    + exists m. split; [left|lia].
    + exists m'. split; [right; exact Hm'|exact H3].
Qed.



(* ================================================================== *)
(** ** Further properties of the board and of [apply] *)

Lemma py_index_nonneg (i : Z) (n k : nat) :
  0 <= i -> py_index i n = Some k -> k = Z.to_nat i /\ (k < n)%nat.
Proof.
  intros Hi H. pose proof (py_index_lt _ _ _ H) as Hlt. split; [|exact Hlt].
  unfold py_index in H.
  destruct ((0 <=? i) && (i <? Z.of_nat n)); [congruence|].
  destruct ((- Z.of_nat n <=? i) && (i <? 0)) eqn:E; [|discriminate].
  apply andb_true_iff in E as [_ E]. apply Z.ltb_lt in E. lia.
Qed.

Lemma board_set_get_eq (b b' : CheckersBoard) (i : Index2D) (p : option CheckersPiece) :
  board_set b i p = Ret b' -> board_get b' i = Ret p.
Proof.
  unfold board_get, board_set, py_get, py_set.
  destruct (py_index (ix i) (length (list_2d b))) as [kx|] eqn:Ex; [|discriminate].
  destruct (list_2d b !! kx) as [column|] eqn:Ec; [|discriminate]. simpl.
  destruct (py_index (iy i) (length column)) as [ky|] eqn:Ey; [|discriminate]. simpl.
  intros [= <-]. simpl. rewrite length_insert, Ex.
  rewrite list_lookup_insert_eq by (eapply lookup_lt_Some; exact Ec). simpl.
  rewrite length_insert, Ey.
  rewrite list_lookup_insert_eq by (eapply py_index_lt; exact Ey). reflexivity.
Qed.

(** X2: a cell that was written reads back the written value. *)
Theorem board_get_set_same (b b' : CheckersBoard) (i : Index2D) (p : option CheckersPiece) :
  board_set b i p = Ret b' -> board_get b' i = Ret p.
Proof.
  exact (board_set_get_eq b b' i p).
Qed.

Lemma board_get_set_same_witness :
  board_get quiet_board (Idx 1 0) = Ret light_man.
Proof.
  apply (board_get_set_same empty_board quiet_board (Idx 1 0) light_man).
  reflexivity.
Defined.

Lemma board_set_get_ne (b b' : CheckersBoard) (i j : Index2D)
    (p : option CheckersPiece) :
  board_set b i p = Ret b' ->
  0 <= ix i -> 0 <= iy i -> 0 <= ix j -> 0 <= iy j -> j <> i ->
  board_get b' j = board_get b j.
Proof.
  unfold board_get, board_set, py_get, py_set.
  destruct (py_index (ix i) (length (list_2d b))) as [kx|] eqn:Ex; [|discriminate].
  destruct (list_2d b !! kx) as [column|] eqn:Ec; [|discriminate]. simpl.
  destruct (py_index (iy i) (length column)) as [ky|] eqn:Ey; [|discriminate]. simpl.
  intros [= <-] Hix Hiy Hjx Hjy Hne. simpl. rewrite length_insert.
  destruct (py_index (ix j) (length (list_2d b))) as [kx'|] eqn:Ex'; [|reflexivity].
  apply py_index_nonneg in Ex as [Ekx _]; [|exact Hix].
  apply py_index_nonneg in Ey as [Eky Hky]; [|exact Hiy].
  apply py_index_nonneg in Ex' as [Ekx' _]; [|exact Hjx].
  destruct (decide (kx = kx')) as [Heq|Hneq].
  - subst kx'. rewrite <- Heq.
    rewrite list_lookup_insert_eq by (eapply lookup_lt_Some; exact Ec).
    rewrite Ec. simpl. rewrite length_insert.
    destruct (py_index (iy j) (length column)) as [ky'|] eqn:Ey'; [|reflexivity].
    apply py_index_nonneg in Ey' as [Eky' _]; [|exact Hjy].
    rewrite list_lookup_insert_ne; [reflexivity|].
    intros Hk. apply Hne. destruct i, j. simpl in *. f_equal; lia.
  - rewrite list_lookup_insert_ne by exact Hneq. reflexivity.
Qed.

(** X3: writing a cell leaves every other cell as it was (squares with
    non-negative coordinates, so that no index wraps around). *)
Theorem board_get_set_other (b b' : CheckersBoard) (i j : Index2D)
    (p : option CheckersPiece) :
  board_set b i p = Ret b' ->
  0 <= ix i -> 0 <= iy i -> 0 <= ix j -> 0 <= iy j -> j <> i ->
  board_get b' j = board_get b j.
Proof.
  exact (board_set_get_ne b b' i j p).
Qed.

Lemma board_get_set_other_witness :
  board_get quiet_board (Idx 2 2) = board_get empty_board (Idx 2 2).
Proof.
  apply (board_get_set_other empty_board quiet_board (Idx 1 0) (Idx 2 2) light_man);
    [reflexivity | simpl; lia | simpl; lia | simpl; lia | simpl; lia | discriminate].
Defined.

Lemma column_items_spec (x : nat) (column : list (option CheckersPiece))
    (sq : Index2D) (p : CheckersPiece) :
  (sq, p) ∈ column_items x column
  <-> exists y, column !! y = Some (Some p) /\ sq = Idx (Z.of_nat x) (Z.of_nat y).
Proof.
  unfold column_items. rewrite list_elem_of_omap. split.
  - intros ([y cell] & Hin & Hsome).
    apply elem_of_lookup_imap in Hin as (k & c & Heq & Hk).
    injection Heq as -> ->. simpl in Hsome. destruct c as [q|]; [|discriminate].
    injection Hsome as <- <-. exists k. split; [exact Hk|reflexivity].
  - intros (y & Hy & ->). exists (y, Some p). split; [|reflexivity].
    apply elem_of_lookup_imap. exists y, (Some p). split; [reflexivity|exact Hy].
Qed.

Lemma board_items_spec (b : CheckersBoard) (sq : Index2D) (p : CheckersPiece) :
  (sq, p) ∈ board_items b
  <-> exists x y column,
        list_2d b !! x = Some column /\ column !! y = Some (Some p)
        /\ sq = Idx (Z.of_nat x) (Z.of_nat y).
Proof.
  unfold board_items. rewrite list_elem_of_In, in_concat. split.
  - intros (l & Hl & Hsq).
    apply list_elem_of_In, elem_of_lookup_imap in Hl as (x & column & -> & Hx).
    apply list_elem_of_In, column_items_spec in Hsq as (y & Hy & ->).
    exists x, y, column. repeat split; assumption.
  - intros (x & y & column & Hx & Hy & ->).
    exists (column_items x column). split.
    + apply list_elem_of_In, elem_of_lookup_imap. exists x, column. split; [reflexivity|exact Hx].
    + apply list_elem_of_In, column_items_spec. exists y. split; [exact Hy|reflexivity].
Qed.

Lemma board_items_get (b : CheckersBoard) (sq : Index2D) (p : CheckersPiece) :
  (sq, p) ∈ board_items b
  <-> 0 <= ix sq /\ 0 <= iy sq /\ board_get b sq = Ret (Some p).
Proof.
  rewrite board_items_spec. split.
  - intros (x & y & column & Hx & Hy & ->). simpl.
    split; [lia|]. split; [lia|].
    unfold board_get, py_get. simpl.
    rewrite py_index_in by (apply lookup_lt_Some in Hx; lia).
    rewrite Nat2Z.id, Hx. simpl.
    rewrite py_index_in by (apply lookup_lt_Some in Hy; lia).
    rewrite Nat2Z.id, Hy. reflexivity.
  - intros (Hx & Hy & Hget). unfold board_get, py_get in Hget.
    destruct (py_index (ix sq) (length (list_2d b))) as [kx|] eqn:Ex; [|discriminate].
    destruct (list_2d b !! kx) as [column|] eqn:Ec; [|discriminate]. simpl in Hget.
    destruct (py_index (iy sq) (length column)) as [ky|] eqn:Ey; [|discriminate].
    destruct (column !! ky) as [cell|] eqn:Ek; [|discriminate].
    injection Hget as ->.
    apply py_index_nonneg in Ex as [-> _]; [|exact Hx].
    apply py_index_nonneg in Ey as [-> _]; [|exact Hy].
    exists (Z.to_nat (ix sq)), (Z.to_nat (iy sq)), column.
    split; [exact Ec|]. split; [exact Ek|].
    destruct sq as [x y]. simpl in *. f_equal; lia.
Qed.

(** X4: iterating a board yields exactly its occupied cells, each with its
    own index: a square with non-negative coordinates is yielded with a
    piece exactly when reading that square gives that piece, and no other
    squares are yielded. *)
Theorem board_items_occupied (b : CheckersBoard) (sq : Index2D) (p : CheckersPiece) :
  (sq, p) ∈ board_items b
  <-> 0 <= ix sq /\ 0 <= iy sq /\ board_get b sq = Ret (Some p).
Proof.
  exact (board_items_get b sq p).
Qed.

Lemma new_board_spec (rows columns : Z) :
  (rows <= 0 \/ columns <= 0 -> new_board rows columns = Raise (ValueError NonPositiveShape))
  /\ (0 < rows /\ 0 < columns ->
      exists b, new_board rows columns = Ret b
                /\ row_count b = rows /\ column_count b = columns /\ wf_board b
                /\ (forall sq, in_board b sq = true -> board_get b sq = Ret None)
                /\ board_items b = []).
Proof.
  unfold new_board. split.
  - intros [H|H].
    + apply Z.leb_le in H. rewrite H. reflexivity.
    + destruct (rows <=? 0); [reflexivity|]. apply Z.leb_le in H. rewrite H. reflexivity.
  - intros [Hr Hc].
    destruct (rows <=? 0) eqn:Er; [apply Z.leb_le in Er; lia|].
    destruct (columns <=? 0) eqn:Ec; [apply Z.leb_le in Ec; lia|].
    eexists. split; [reflexivity|]. simpl.
    split; [reflexivity|]. split; [reflexivity|].
    assert (Hwf : wf_board (Board rows columns
                    (replicate (Z.to_nat columns) (replicate (Z.to_nat rows) None)))).
    { unfold wf_board. simpl. split; [exact Hr|]. split; [exact Hc|].
      split; [apply length_replicate|].
      apply Forall_forall. intros c Hin. apply elem_of_replicate in Hin as [-> _].
      apply length_replicate. }
    split; [exact Hwf|].
    assert (Hnone : forall sq,
              in_board (Board rows columns
                 (replicate (Z.to_nat columns) (replicate (Z.to_nat rows) None))) sq = true ->
              board_get (Board rows columns
                 (replicate (Z.to_nat columns) (replicate (Z.to_nat rows) None))) sq
              = Ret None).
    { intros sq Hin. apply in_board_bounds in Hin as [Hx Hy]. simpl in Hx, Hy.
      unfold board_get, py_get. simpl. rewrite length_replicate.
      rewrite py_index_in by lia.
      rewrite lookup_replicate_2 by lia. simpl. rewrite length_replicate.
      rewrite py_index_in by lia.
      rewrite lookup_replicate_2 by lia. reflexivity. }
    split; [exact Hnone|].
    match goal with |- ?l = [] => destruct l as [|[sq p] rest] eqn:El end; [reflexivity|].
    assert (Hin : (sq, p) ∈ board_items (Board rows columns
                    (replicate (Z.to_nat columns) (replicate (Z.to_nat rows) None))))
      by (rewrite El; left).
    pose proof Hin as Hin'. apply board_items_spec in Hin' as (x & y & column & Hx & Hy & _).
    simpl in Hx. apply lookup_replicate in Hx as [-> _].
    apply lookup_replicate in Hy as [Hy _]. discriminate Hy.
Qed.

(** X1: [CheckersBoard(rows, columns)] is rejected exactly when a count is
    not positive; otherwise the new board has the asked shape, every one of
    its squares is empty and iterating it yields nothing. *)
Theorem new_board_empty (rows columns : Z) :
  (rows <= 0 \/ columns <= 0 -> new_board rows columns = Raise (ValueError NonPositiveShape))
  /\ (0 < rows /\ 0 < columns ->
      exists b, new_board rows columns = Ret b
                /\ row_count b = rows /\ column_count b = columns /\ wf_board b
                /\ (forall sq, in_board b sq = true -> board_get b sq = Ret None)
                /\ board_items b = []).
Proof.
  exact (new_board_spec rows columns).
Qed.

Lemma new_board_empty_witness :
  exists b, new_board 10 10 = Ret b
            /\ row_count b = 10 /\ column_count b = 10 /\ wf_board b
            /\ (forall sq, in_board b sq = true -> board_get b sq = Ret None)
            /\ board_items b = [].
Proof.
  apply (new_board_empty 10 10). lia.
Defined.

Lemma move_eqb_spec (a b : CheckersMove) (moves : list CheckersMove) :
  (move_eqb a b = true <-> a = b) /\ (move_mem a moves = true <-> a ∈ moves).
Proof.
  assert (Heq : forall x y : CheckersMove, move_eqb x y = true <-> x = y).
  { induction x as [|s x IH]; intros [|t y]; simpl; try (split; congruence).
    rewrite andb_true_iff, idx_eqb_eq, IH. split.
    - intros [-> ->]. reflexivity.
    - intros [= -> ->]. split; reflexivity. }
  split; [apply Heq|].
  unfold move_mem. rewrite existsb_exists. split.
  - intros (x & Hin & Hx). apply Heq in Hx as ->. apply list_elem_of_In. exact Hin.
  - intros Hin. exists a. split; [apply list_elem_of_In; exact Hin|apply Heq; reflexivity].
Qed.

(** X5: two moves compare equal exactly when their sequences of visited
    squares are the same, so [move in moves] is membership in the list. *)
Theorem move_eqb_eq (a b : CheckersMove) (moves : list CheckersMove) :
  (move_eqb a b = true <-> a = b) /\ (move_mem a moves = true <-> a ∈ moves).
Proof.
  exact (move_eqb_spec a b moves).
Qed.

(** X6: [next()] never fails, gives the other player, and applied twice
    gives the player back: the two players alternate. *)
Theorem player_next_alternates (p : CheckersPlayer) :
  exists q, player_next p = Ret q /\ q <> p /\ player_next q = Ret p.
Proof.
  destruct p; [exists DARK|exists LIGHT]; repeat split; discriminate.
Qed.

Lemma idx_sign_scaled (a delta : Index2D) (n : Z) :
  delta ∈ DIAGONAL_DIRECTIONS -> 0 < n ->
  idx_sub (idx_add a (idx_mul delta n)) a = idx_mul delta n
  /\ idx_sign (idx_sub (idx_add a (idx_mul delta n)) a) = delta
  /\ (-1 <= ix (idx_sign a) <= 1 /\ -1 <= iy (idx_sign a) <= 1).
Proof.
  intros Hd Hn.
  assert (Hsub : idx_sub (idx_add a (idx_mul delta n)) a = idx_mul delta n).
  { unfold idx_sub, idx_add, idx_mul. simpl. f_equal; lia. }
  split; [exact Hsub|]. split.
  - rewrite Hsub. unfold DIAGONAL_DIRECTIONS in Hd.
    rewrite !elem_of_cons, elem_of_nil in Hd.
    unfold idx_sign, idx_mul, sign.
    destruct Hd as [->|[->|[->|[->|[]]]]]; simpl;
      repeat match goal with
             | |- context [?x <? ?y] =>
                 let E := fresh in destruct (x <? y) eqn:E;
                 [apply Z.ltb_lt in E|apply Z.ltb_ge in E]
             end; try lia; reflexivity.
  - unfold idx_sign, sign. simpl.
    destruct (0 <? ix a), (ix a <? 0), (0 <? iy a), (iy a <? 0); lia.
Qed.

(** X7: subtraction undoes addition, every component of a sign is -1, 0
    or 1, and the sign of the difference between a square and the square
    [n > 0] diagonal steps further is the direction of the steps. *)
Theorem idx_sign_of_diagonal (a delta : Index2D) (n : Z) :
  delta ∈ DIAGONAL_DIRECTIONS -> 0 < n ->
  idx_sub (idx_add a (idx_mul delta n)) a = idx_mul delta n
  /\ idx_sign (idx_sub (idx_add a (idx_mul delta n)) a) = delta
  /\ (-1 <= ix (idx_sign a) <= 1 /\ -1 <= iy (idx_sign a) <= 1).
Proof.
  exact (idx_sign_scaled a delta n).
Qed.

Lemma idx_sign_of_diagonal_witness :
  idx_sign (idx_sub (idx_add (Idx 2 7) (idx_mul (Idx 1 (-1)) 3)) (Idx 2 7)) = Idx 1 (-1).
Proof.
  apply (idx_sign_of_diagonal (Idx 2 7) (Idx 1 (-1)) 3); [|lia].
  unfold DIAGONAL_DIRECTIONS. right. right. left.
Defined.

Lemma diagonal_step_differs (a delta : Index2D) (k n : Z) :
  unit_step delta -> k <> n ->
  idx_eqb (idx_add a (idx_mul delta k)) (idx_add a (idx_mul delta n)) = false.
Proof.
  intros Hd Hkn. destruct (idx_eqb _ _) eqn:E; [|reflexivity].
  apply idx_eqb_eq in E. unfold idx_add, idx_mul in E. injection E as Ex _.
  destruct Hd as [Hd|Hd]; rewrite Hd in Ex; lia.
Qed.

Lemma diagonal_step_nonneg (b : CheckersBoard) (sq : Index2D) :
  in_board b sq = true -> 0 <= ix sq /\ 0 <= iy sq.
Proof. intros H. apply in_board_bounds in H. lia. Qed.

(** The loop of [remove_pieces_between], started [m] steps before the end
    square. *)
Lemma remove_loop_spec (start delta : Index2D) (n : Z) (m : nat) :
  unit_step delta ->
  forall (k : Z) (lfuel : nat) (b : CheckersBoard),
    wf_board b -> 1 <= k -> k + Z.of_nat m = n -> (m < lfuel)%nat ->
    (forall k', k <= k' < n -> in_board b (idx_add start (idx_mul delta k')) = true) ->
    exists b',
      remove_loop lfuel (idx_add start (idx_mul delta k))
        (idx_add start (idx_mul delta n)) delta b = (Ret tt, b')
      /\ wf_board b' /\ row_count b' = row_count b /\ column_count b' = column_count b
      /\ (forall k', k <= k' < n ->
            board_get b' (idx_add start (idx_mul delta k')) = Ret None)
      /\ (forall j, 0 <= ix j -> 0 <= iy j ->
            (forall k', k <= k' < n -> j <> idx_add start (idx_mul delta k')) ->
            board_get b' j = board_get b j).
Proof.
  intros Hd. induction m as [|m IH]; intros k lfuel b Hwf Hk Hkm Hfuel Hin.
  - assert (k = n) by lia. subst k.
    destruct lfuel as [|lfuel]; [lia|]. simpl. rewrite idx_eqb_refl.
    exists b. split; [reflexivity|]. split; [exact Hwf|].
    split; [reflexivity|]. split; [reflexivity|].
    split; [intros k' Hk'; lia|intros; reflexivity].
  - destruct lfuel as [|lfuel]; [lia|]. simpl.
    rewrite diagonal_step_differs by (try exact Hd; lia).
    assert (Hsq : in_board b (idx_add start (idx_mul delta k)) = true) by (apply Hin; lia).
    destruct (board_set_in b _ None Hwf Hsq) as [b1 Hset]. rewrite Hset.
    pose proof (board_set_wf _ _ _ _ Hwf Hset) as Hwf1.
    pose proof (board_set_shape _ _ _ _ Hset) as (Hr1 & Hc1 & _).
    rewrite idx_add_mul_succ.
    destruct (IH (k + 1) lfuel b1 Hwf1) as (b' & Hloop & Hwf' & Hr & Hc & Hnone & Hframe);
      [lia|lia|lia| |].
    { intros k' Hk'. rewrite (board_set_in_board _ _ _ _ _ Hset). apply Hin. lia. }
    exists b'. split; [exact Hloop|]. split; [exact Hwf'|].
    split; [congruence|]. split; [congruence|]. split.
    + intros k' Hk'. destruct (Z.eq_dec k' k) as [->|Hne].
      * rewrite Hframe.
        -- eapply board_set_get_eq. exact Hset.
        -- apply (diagonal_step_nonneg b). exact Hsq.
        -- apply (diagonal_step_nonneg b). exact Hsq.
        -- intros k'' Hk'' Heq. apply idx_eqb_eq in Heq.
           rewrite diagonal_step_differs in Heq by (try exact Hd; lia). discriminate.
      * apply Hnone. lia.
    + intros j Hjx Hjy Hj. rewrite Hframe; [|exact Hjx|exact Hjy|].
      * eapply board_set_get_ne; [exact Hset| | |exact Hjx|exact Hjy|].
        -- apply (diagonal_step_nonneg b). exact Hsq.
        -- apply (diagonal_step_nonneg b). exact Hsq.
        -- apply Hj. lia.
      * intros k' Hk'. apply Hj. lia.
Qed.

Lemma remove_pieces_between_spec (lfuel : nat) (start delta : Index2D) (n : Z)
    (b : CheckersBoard) :
  wf_board b -> delta ∈ DIAGONAL_DIRECTIONS -> 1 <= n -> n <= Z.of_nat lfuel ->
  (forall k, 1 <= k < n -> in_board b (idx_add start (idx_mul delta k)) = true) ->
  exists b',
    remove_pieces_between lfuel start (idx_add start (idx_mul delta n)) b = (Ret tt, b')
    /\ wf_board b' /\ row_count b' = row_count b /\ column_count b' = column_count b
    /\ (forall k, 1 <= k < n -> board_get b' (idx_add start (idx_mul delta k)) = Ret None)
    /\ (forall j, 0 <= ix j -> 0 <= iy j ->
          (forall k, 1 <= k < n -> j <> idx_add start (idx_mul delta k)) ->
          board_get b' j = board_get b j).
Proof.
  intros Hwf Hd Hn Hfuel Hin. unfold remove_pieces_between.
  destruct (idx_sign_scaled start delta n Hd) as (_ & -> & _); [lia|].
  rewrite (idx_add_mul_one start delta).
  apply (remove_loop_spec start delta n (Z.to_nat (n - 1)));
    [apply diagonal_unit_step; exact Hd|exact Hwf|lia|lia|lia|exact Hin].
Qed.

(** X8: between two squares of a diagonal, [n >= 1] steps apart and with
    every square between them on the board, [remove_pieces_between]
    empties exactly the squares strictly between the two and changes no
    other square. *)
Theorem remove_pieces_between_clears (lfuel : nat) (start delta : Index2D) (n : Z)
    (b : CheckersBoard) :
  wf_board b -> delta ∈ DIAGONAL_DIRECTIONS -> 1 <= n -> n <= Z.of_nat lfuel ->
  (forall k, 1 <= k < n -> in_board b (idx_add start (idx_mul delta k)) = true) ->
  exists b',
    remove_pieces_between lfuel start (idx_add start (idx_mul delta n)) b = (Ret tt, b')
    /\ wf_board b' /\ row_count b' = row_count b /\ column_count b' = column_count b
    /\ (forall k, 1 <= k < n -> board_get b' (idx_add start (idx_mul delta k)) = Ret None)
    /\ (forall j, 0 <= ix j -> 0 <= iy j ->
          (forall k, 1 <= k < n -> j <> idx_add start (idx_mul delta k)) ->
          board_get b' j = board_get b j).
Proof.
  exact (remove_pieces_between_spec lfuel start delta n b).
Qed.

Lemma remove_pieces_between_clears_witness :
  exists b',
    remove_pieces_between 3 (Idx 0 0) (idx_add (Idx 0 0) (idx_mul (Idx 1 1) 2)) capture_board
    = (Ret tt, b')
    /\ wf_board b' /\ row_count b' = row_count capture_board
    /\ column_count b' = column_count capture_board
    /\ (forall k, 1 <= k < 2 ->
          board_get b' (idx_add (Idx 0 0) (idx_mul (Idx 1 1) k)) = Ret None)
    /\ (forall j, 0 <= ix j -> 0 <= iy j ->
          (forall k, 1 <= k < 2 -> j <> idx_add (Idx 0 0) (idx_mul (Idx 1 1) k)) ->
          board_get b' j = board_get capture_board j).
Proof.
  apply (remove_pieces_between_clears 3 (Idx 0 0) (Idx 1 1) 2 capture_board);
    [exact capture_board_wf | unfold DIAGONAL_DIRECTIONS; right; left | lia | lia |].
  intros k Hk. assert (k = 1) as -> by lia. reflexivity.
Defined.

Lemma idx_add_mul_zero (a d : Index2D) : idx_add a (idx_mul d 0) = a.
Proof. destruct a. unfold idx_add, idx_mul. simpl. f_equal; lia. Qed.

Lemma crowning_promoted (b b1 : CheckersBoard) (piece : CheckersPiece) (dest : Index2D) :
  row_count b1 = row_count b ->
  (if (iy dest =? get_kings_row_index (owner piece) b1)
      && match type piece with MAN => true | KING => false end
   then Piece (owner piece) KING else piece) = promoted b piece dest.
Proof.
  intros Hr. unfold promoted.
  assert (Hk : get_kings_row_index (owner piece) b1 = get_kings_row_index (owner piece) b)
    by (unfold get_kings_row_index; rewrite Hr; reflexivity).
  rewrite Hk. destruct piece as [o t]. simpl.
  destruct (iy dest =? get_kings_row_index o b), t; reflexivity.
Qed.

(** X10: whenever [apply] succeeds, the piece that stood on the origin of
    the move stands on its destination, with the same owner; it is a king
    exactly if it was one or the destination is on the far row of its
    owner (a king is never turned back into a man). *)
Theorem apply_lands_piece (lfuel : nat) (move : CheckersMove) (b b' : CheckersBoard) :
  apply lfuel move b = (Ret tt, b') ->
  exists origin dest piece,
    head move = Some origin /\ last move = Some dest
    /\ board_get b origin = Ret (Some piece)
    /\ board_get b' dest = Ret (Some (promoted b piece dest)).
Proof.
  unfold apply, move_origin, move_destination.
  destruct (head move) as [origin|]; simpl; [|destruct (last move); discriminate].
  destruct (last move) as [dest|]; simpl; [|discriminate].
  destruct (board_get b origin) as [cell| |] eqn:Hget; try discriminate.
  destruct (board_set b origin None) as [b1| |] eqn:Hset; try discriminate.
  destruct cell as [piece|]; [|discriminate].
  pose proof (board_set_shape _ _ _ _ Hset) as (Hr1 & _ & _).
  rewrite (crowning_promoted b b1 piece dest Hr1).
  destruct (remove_captured lfuel (consecutive_pairs move) b1) as [[u| |] b2];
    try discriminate.
  destruct (board_set b2 dest (Some (promoted b piece dest))) as [b3| |] eqn:Hset2;
    try discriminate.
  intros [= <-]. exists origin, dest, piece.
  split; [reflexivity|]. split; [reflexivity|]. split; [exact Hget|].
  eapply board_set_get_eq. exact Hset2.
Qed.

Lemma apply_lands_piece_witness :
  exists origin dest piece,
    head [Idx 0 0; Idx 2 2] = Some origin /\ last [Idx 0 0; Idx 2 2] = Some dest
    /\ board_get capture_board origin = Ret (Some piece)
    /\ board_get
         (Board 4 4 [[None; None; None; None]; [None; None; None; None];
                     [None; None; light_man; None]; [None; None; None; None]]) dest
       = Ret (Some (promoted capture_board piece dest)).
Proof.
  apply (apply_lands_piece 3 [Idx 0 0; Idx 2 2] capture_board). reflexivity.
Defined.

(** X9: a move of one step or one jump.  From an occupied origin along a
    diagonal to the square [n] steps further, all squares of the way being
    on the board, [apply] succeeds: the piece (crowned if due) stands on the
    destination, the origin and every square between are empty, and all
    other squares are unchanged. *)
Theorem apply_single_segment (lfuel : nat) (origin delta : Index2D) (n : Z)
    (b : CheckersBoard) (piece : CheckersPiece) :
  wf_board b -> delta ∈ DIAGONAL_DIRECTIONS -> 1 <= n -> n <= Z.of_nat lfuel ->
  (forall k, 0 <= k <= n -> in_board b (idx_add origin (idx_mul delta k)) = true) ->
  board_get b origin = Ret (Some piece) ->
  exists b',
    apply lfuel [origin; idx_add origin (idx_mul delta n)] b = (Ret tt, b')
    /\ wf_board b'
    /\ board_get b' (idx_add origin (idx_mul delta n))
       = Ret (Some (promoted b piece (idx_add origin (idx_mul delta n))))
    /\ (forall k, 0 <= k < n -> board_get b' (idx_add origin (idx_mul delta k)) = Ret None)
    /\ (forall j, 0 <= ix j -> 0 <= iy j ->
          (forall k, 0 <= k <= n -> j <> idx_add origin (idx_mul delta k)) ->
          board_get b' j = board_get b j).
Proof.
  intros Hwf Hd Hn Hfuel Hin Hget.
  pose proof (diagonal_unit_step _ Hd) as Hunit.
  assert (Horigin : in_board b origin = true).
  { rewrite <- (idx_add_mul_zero origin delta). apply Hin. lia. }
  destruct (board_set_in b origin None Hwf Horigin) as [b1 Hset1].
  pose proof (board_set_wf _ _ _ _ Hwf Hset1) as Hwf1.
  pose proof (board_set_shape _ _ _ _ Hset1) as (Hr1 & Hc1 & _).
  destruct (remove_pieces_between_spec lfuel origin delta n b1 Hwf1 Hd Hn Hfuel)
    as (b2 & Hrm & Hwf2 & Hr2 & Hc2 & Hnone & Hframe).
  { intros k Hk. rewrite (board_set_in_board _ _ _ _ _ Hset1). apply Hin. lia. }
  assert (Hdest : in_board b2 (idx_add origin (idx_mul delta n)) = true).
  { unfold in_board. rewrite Hr2, Hc2, Hr1, Hc1. apply (Hin n). lia. }
  destruct (board_set_in b2 _ (Some (promoted b piece (idx_add origin (idx_mul delta n))))
              Hwf2 Hdest) as [b3 Hset3].
  exists b3. split.
  - unfold apply, move_origin, move_destination.
    cbn [head hd_error last of_option consecutive_pairs remove_captured].
    rewrite Hget, Hset1.
    rewrite (crowning_promoted b b1 piece _ Hr1).
    rewrite Hrm, Hset3. reflexivity.
  - split; [eapply board_set_wf; [exact Hwf2|exact Hset3]|].
    split; [eapply board_set_get_eq; exact Hset3|].
    assert (Hnn : forall k, 0 <= k <= n ->
              0 <= ix (idx_add origin (idx_mul delta k))
              /\ 0 <= iy (idx_add origin (idx_mul delta k))).
    { intros k Hk. apply (diagonal_step_nonneg b). apply Hin. exact Hk. }
    split.
    + intros k Hk.
      rewrite (board_set_get_ne _ _ _ _ _ Hset3);
        try (apply Hnn; lia).
      2:{ intros Heq. apply idx_eqb_eq in Heq.
          rewrite diagonal_step_differs in Heq by (try exact Hunit; lia). discriminate. }
      destruct (Z.eq_dec k 0) as [->|Hk0].
      * rewrite idx_add_mul_zero. rewrite Hframe.
        -- eapply board_set_get_eq. exact Hset1.
        -- apply (diagonal_step_nonneg b). exact Horigin.
        -- apply (diagonal_step_nonneg b). exact Horigin.
        -- intros k' Hk' Heq. rewrite <- (idx_add_mul_zero origin delta) in Heq at 1.
           apply idx_eqb_eq in Heq.
           rewrite diagonal_step_differs in Heq by (try exact Hunit; lia). discriminate.
      * apply Hnone. lia.
    + intros j Hjx Hjy Hj.
      rewrite (board_set_get_ne _ _ _ _ _ Hset3); try assumption;
        try (apply Hnn; lia); [|apply Hj; lia].
      rewrite Hframe; try assumption; [|intros k Hk; apply Hj; lia].
      eapply board_set_get_ne; [exact Hset1| | |exact Hjx|exact Hjy|].
      * apply (diagonal_step_nonneg b). exact Horigin.
      * apply (diagonal_step_nonneg b). exact Horigin.
      * rewrite <- (idx_add_mul_zero origin delta). apply Hj. lia.
Qed.

Lemma apply_single_segment_witness :
  exists b',
    apply 3 [Idx 0 0; idx_add (Idx 0 0) (idx_mul (Idx 1 1) 2)] capture_board = (Ret tt, b')
    /\ wf_board b'
    /\ board_get b' (idx_add (Idx 0 0) (idx_mul (Idx 1 1) 2))
       = Ret (Some (promoted capture_board (Piece LIGHT MAN)
                      (idx_add (Idx 0 0) (idx_mul (Idx 1 1) 2))))
    /\ (forall k, 0 <= k < 2 ->
          board_get b' (idx_add (Idx 0 0) (idx_mul (Idx 1 1) k)) = Ret None)
    /\ (forall j, 0 <= ix j -> 0 <= iy j ->
          (forall k, 0 <= k <= 2 -> j <> idx_add (Idx 0 0) (idx_mul (Idx 1 1) k)) ->
          board_get b' j = board_get capture_board j).
Proof.
  apply (apply_single_segment 3 (Idx 0 0) (Idx 1 1) 2 capture_board (Piece LIGHT MAN));
    [exact capture_board_wf | unfold DIAGONAL_DIRECTIONS; right; left | lia | lia
    | | reflexivity].
  intros k Hk.
  assert (k = 0 \/ k = 1 \/ k = 2) as [->|[->| ->]] by lia; reflexivity.
Defined.

(* ================================================================== *)
(** ** Quiet moves, origins of legal moves, and the game state *)

Lemma for_each_elem {A B} (body : A -> outcome (list B)) (l : list A) (r : list B) (x : B) :
  for_each body l = Ret r ->
  (x ∈ r <-> exists a xs, a ∈ l /\ body a = Ret xs /\ x ∈ xs).
Proof.
  revert r. induction l as [|a l IH]; intros r; simpl.
  - intros [= <-]. split.
    + intros H. apply elem_of_nil in H. contradiction.
    + intros (a & xs & H & _). apply elem_of_nil in H. contradiction.
  - destruct (body a) as [xs| |] eqn:Exs; simpl; try discriminate.
    destruct (for_each body l) as [ys| |] eqn:Eys; simpl; try discriminate.
    intros [= <-]. rewrite elem_of_app, (IH ys eq_refl). split.
    + intros [H|(a' & xs' & Ha' & Hb & Hx)].
      * exists a, xs. split; [left|]. split; assumption.
      * exists a', xs'. split; [right; exact Ha'|]. split; assumption.
    + intros (a' & xs' & Ha' & Hb & Hx). apply elem_of_cons in Ha' as [->|Ha'].
      * left. congruence.
      * right. exists a', xs'. repeat split; assumption.
Qed.

Lemma for_each_body_returns {A B} (body : A -> outcome (list B)) (l : list A)
    (r : list B) (a : A) :
  for_each body l = Ret r -> a ∈ l -> returns (body a).
Proof.
  revert r. induction l as [|a' l IH]; intros r; simpl.
  - intros _ H. apply elem_of_nil in H. contradiction.
  - destruct (body a') as [xs| |] eqn:Exs; simpl; try discriminate.
    destruct (for_each body l) as [ys| |] eqn:Eys; simpl; try discriminate.
    intros _ Ha. apply elem_of_cons in Ha as [->|Ha].
    + exists xs. exact Exs.
    + eapply IH; [reflexivity|exact Ha].
Qed.

(** What a sliding king gathers from the [k]-th square of a direction on. *)
Lemma king_slide_spec (b : CheckersBoard) (origin delta : Index2D) (lfuel : nat)
    (k : Z) (moves : list CheckersMove) (m : CheckersMove) :
  king_slide lfuel b origin (idx_add origin (idx_mul delta k)) delta = Ret moves ->
  (m ∈ moves <->
   exists n, k <= n /\ m = [origin; idx_add origin (idx_mul delta n)]
             /\ forall k', k <= k' <= n ->
                  in_board b (idx_add origin (idx_mul delta k')) = true
                  /\ board_get b (idx_add origin (idx_mul delta k')) = Ret None).
Proof.
  revert k moves. induction lfuel as [|fuel IH]; intros k moves; simpl; [discriminate|].
  destruct (in_board b (idx_add origin (idx_mul delta k))) eqn:Hin.
  2:{ intros [= <-]. split.
      - intros H. apply elem_of_nil in H. contradiction.
      - intros (n & Hn & _ & Hall). destruct (Hall k) as [Hk _]; [lia|]. congruence. }
  destruct (board_get b (idx_add origin (idx_mul delta k))) as [cell| |] eqn:Hcell;
    simpl; try discriminate.
  destruct cell as [cp|].
  { intros [= <-]. split.
    - intros H. apply elem_of_nil in H. contradiction.
    - intros (n & Hn & _ & Hall). destruct (Hall k) as [_ Hk]; [lia|]. congruence. }
  rewrite idx_add_mul_succ.
  destruct (king_slide fuel b origin (idx_add origin (idx_mul delta (k + 1))) delta)
    as [rest| |] eqn:Hrest; simpl; try discriminate.
  intros [= <-]. rewrite elem_of_cons, (IH (k + 1) rest Hrest). split.
  - intros [->|(n & Hn & -> & Hall)].
    + exists k. split; [lia|]. split; [reflexivity|].
      intros k' Hk'. assert (k' = k) as -> by lia. split; assumption.
    + exists n. split; [lia|]. split; [reflexivity|].
      intros k' Hk'. destruct (Z.eq_dec k' k) as [->|Hne]; [split; assumption|].
      apply Hall. lia.
  - intros (n & Hn & -> & Hall). destruct (Z.eq_dec n k) as [->|Hne].
    + left. reflexivity.
    + right. exists n. split; [lia|]. split; [reflexivity|].
      intros k' Hk'. apply Hall. lia.
Qed.

Lemma add_legal_non_capturing_moves_spec (b : CheckersBoard) (lfuel : nat)
    (piece_type : CheckersPieceType) (forward_directions : list Index2D)
    (origin : Index2D) (moves : list CheckersMove) (m : CheckersMove) :
  add_legal_non_capturing_moves lfuel piece_type forward_directions origin b = Ret moves ->
  (m ∈ moves <->
   exists delta n,
     m = [origin; idx_add origin (idx_mul delta n)] /\ 1 <= n
     /\ match piece_type with
        | MAN => n = 1 /\ delta ∈ forward_directions
        | KING => delta ∈ DIAGONAL_DIRECTIONS
        end
     /\ forall k, 1 <= k <= n ->
          in_board b (idx_add origin (idx_mul delta k)) = true
          /\ board_get b (idx_add origin (idx_mul delta k)) = Ret None).
Proof.
  unfold add_legal_non_capturing_moves. destruct piece_type; intros Hfor;
    rewrite (for_each_elem _ _ _ m Hfor).
  - split.
    + intros (delta & xs & Hd & Hbody & Hm).
      rewrite (idx_add_mul_one origin delta) in Hbody.
      destruct (in_board b (idx_add origin (idx_mul delta 1))) eqn:Hin.
      2:{ injection Hbody as <-. apply elem_of_nil in Hm. contradiction. }
      destruct (board_get b (idx_add origin (idx_mul delta 1))) as [cell| |] eqn:Hcell;
        simpl in Hbody; try discriminate.
      destruct cell; injection Hbody as <-;
        [apply elem_of_nil in Hm; contradiction|].
      apply list_elem_of_singleton in Hm as ->.
      exists delta, 1. split; [reflexivity|]. split; [lia|]. split; [split; [reflexivity|exact Hd]|].
      intros k Hk. assert (k = 1) as -> by lia. split; assumption.
    + intros (delta & n & -> & _ & [-> Hd] & Hall).
      destruct (Hall 1) as [Hin Hcell]; [lia|].
      exists delta. eexists. split; [exact Hd|].
      rewrite (idx_add_mul_one origin delta), Hin, Hcell. simpl.
      split; [reflexivity|]. left.
  - split.
    + intros (delta & xs & Hd & Hbody & Hm).
      rewrite (idx_add_mul_one origin delta) in Hbody.
      apply (king_slide_spec _ _ _ _ _ _ m) in Hbody. apply Hbody in Hm as (n & Hn & -> & Hall).
      exists delta, n. repeat split; try assumption; apply Hall; assumption.
    + intros (delta & n & -> & Hn & Hd & Hall).
      destruct (for_each_body_returns _ _ _ delta Hfor Hd) as [xs Hxs].
      exists delta, xs. split; [exact Hd|]. split; [exact Hxs|].
      rewrite (idx_add_mul_one origin delta) in Hxs.
      apply (king_slide_spec _ _ _ _ _ _ [origin; idx_add origin (idx_mul delta n)]) in Hxs.
      apply Hxs. exists n. split; [lia|]. split; [reflexivity|exact Hall].
Qed.

Lemma non_capture_moves_quiet (fuel lfuel : nat) (player : CheckersPlayer)
    (board board' board'' : CheckersBoard) (moves : list CheckersMove) :
  capture_loop fuel lfuel player (board_squares board) board [] = (Ret [], board') ->
  determine_legal_moves fuel lfuel player board = (Ret moves, board'') ->
  forall m, m ∈ moves <-> quiet_move board player m.
Proof.
  intros Hloop. unfold determine_legal_moves. rewrite Hloop.
  apply capture_loop_restores in Hloop as ->.
  destruct (non_capture_loop lfuel player board) as [ms| |] eqn:Hnc; try discriminate.
  intros [= <- _] m. unfold non_capture_loop in Hnc.
  rewrite (for_each_elem _ _ _ m Hnc). split.
  - intros ([origin piece] & xs & Hitem & Hbody & Hm).
    destruct (negb (player_eqb (owner piece) player)) eqn:Hown.
    { injection Hbody as <-. apply elem_of_nil in Hm. contradiction. }
    apply negb_false_iff, player_eqb_eq in Hown.
    apply (add_legal_non_capturing_moves_spec _ _ _ _ _ _ m) in Hbody.
    apply Hbody in Hm as (delta & n & -> & Hn & Hdir & Hall).
    exists origin, piece, delta, n. repeat split; try assumption; apply Hall; assumption.
  - intros (origin & piece & delta & n & -> & Hitem & Hown & Hn & Hdir & Hall).
    destruct (for_each_body_returns _ _ _ (origin, piece) Hnc Hitem) as [xs Hxs].
    exists (origin, piece), xs. split; [exact Hitem|]. split; [exact Hxs|].
    simpl in Hxs. rewrite Hown in Hxs.
    assert (Heq : player_eqb player player = true) by (apply player_eqb_eq; reflexivity).
    rewrite Heq in Hxs. simpl in Hxs.
    apply (add_legal_non_capturing_moves_spec _ _ _ _ _ _
             [origin; idx_add origin (idx_mul delta n)]) in Hxs.
    apply Hxs. exists delta, n. repeat split; try assumption; apply Hall; assumption.
Qed.

(** X11: when no capture is possible, the legal moves are exactly the
    quiet moves: a man steps one square diagonally forward onto an empty
    square of the board, a king slides any distance along a diagonal over
    empty squares; nothing else is returned and none of these is missing. *)
Theorem determine_legal_moves_quiet (fuel lfuel : nat) (player : CheckersPlayer)
    (board board' board'' : CheckersBoard) (moves : list CheckersMove) :
  capture_loop fuel lfuel player (board_squares board) board [] = (Ret [], board') ->
  determine_legal_moves fuel lfuel player board = (Ret moves, board'') ->
  forall m, m ∈ moves <-> quiet_move board player m.
Proof.
  exact (non_capture_moves_quiet fuel lfuel player board board' board'' moves).
Qed.

Lemma determine_legal_moves_quiet_witness :
  quiet_move quiet_board LIGHT [Idx 1 0; Idx 0 1].
Proof.
  apply (determine_legal_moves_quiet 17 5 LIGHT quiet_board quiet_board quiet_board
           [[Idx 1 0; Idx 0 1]; [Idx 1 0; Idx 2 1]]);
    [vm_compute; reflexivity | vm_compute; reflexivity | left].
Defined.

Lemma capture_loop_Forall (P : CheckersMove -> Prop) (fuel lfuel : nat)
    (player : CheckersPlayer) (b : CheckersBoard) :
  (forall sq piece b1 added,
     board_get b sq = Ret (Some piece) -> owner piece = player ->
     board_set b sq None = Ret b1 ->
     add_legal_capturing_moves fuel lfuel piece [sq] [] b1 = Ret added ->
     Forall P added) ->
  forall (squares : list Index2D) (moves gathered : list CheckersMove) (b' : CheckersBoard),
    Forall P moves ->
    capture_loop fuel lfuel player squares b moves = (Ret gathered, b') ->
    Forall P gathered.
Proof.
  intros Hbody squares. induction squares as [|sq rest IH]; intros moves gathered b' Hmoves;
    simpl.
  - intros [= <- _]. exact Hmoves.
  - destruct (board_get b sq) as [[piece|]| |] eqn:Hget; try discriminate;
      [|apply IH; exact Hmoves].
    destruct (negb (player_eqb (owner piece) player)) eqn:Hown; [apply IH; exact Hmoves|].
    apply negb_false_iff, player_eqb_eq in Hown.
    destruct (board_set b sq None) as [b1| |] eqn:Hset1; try discriminate.
    destruct (add_legal_capturing_moves fuel lfuel piece [sq] [] b1) as [added| |] eqn:Hadd;
      try discriminate.
    destruct (board_set b1 sq (Some piece)) as [b2| |] eqn:Hset2; try discriminate.
    rewrite (board_set_restore b b1 b2 sq piece Hget Hset1 Hset2).
    apply IH. apply Forall_app. split; [exact Hmoves|].
    eapply Hbody; eassumption.
Qed.

(** X12: every legal move, capturing or not, visits at least two squares
    and starts on a square that holds a piece of the player to move. *)
Theorem legal_moves_start_on_own_piece (fuel lfuel : nat) (player : CheckersPlayer)
    (board board' : CheckersBoard) (moves : list CheckersMove) :
  determine_legal_moves fuel lfuel player board = (Ret moves, board') ->
  Forall (starts_on_own_piece board player) moves.
Proof.
  unfold determine_legal_moves.
  destruct (capture_loop fuel lfuel player (board_squares board) board [])
    as [[gathered| |] b1] eqn:Hloop; try discriminate.
  pose proof (capture_loop_restores _ _ _ _ _ _ _ _ Hloop) as ->.
  destruct gathered as [|m0 ms].
  - destruct (non_capture_loop lfuel player board) as [quiet| |] eqn:Hnc; try discriminate.
    intros [= <- _]. apply Forall_forall. intros m Hm.
    apply (non_capture_moves_quiet fuel lfuel player board board board quiet Hloop) in Hm.
    + destruct Hm as (origin & piece & delta & n & -> & Hitem & Hown & _).
      split; [simpl; lia|]. exists origin, piece. split; [reflexivity|].
      split; [|exact Hown]. apply board_items_get in Hitem. apply Hitem.
    + unfold determine_legal_moves. rewrite Hloop, Hnc. reflexivity.
  - intros [= <- _].
    assert (Hall : Forall (starts_on_own_piece board player) (m0 :: ms)).
    { eapply (capture_loop_Forall _ fuel lfuel player board); [|constructor|exact Hloop].
      intros sq piece b2 added Hget Hown Hset Hadd.
      apply (add_legal_capturing_moves_chains _ _ _ _ _ _ sq) in Hadd; [|reflexivity].
      eapply Forall_impl; [exact Hadd|].
      intros m (Hlen & ext & -> & _). split; [exact Hlen|].
      exists sq, piece. split; [reflexivity|]. split; assumption. }
    apply Forall_forall. intros m Hm. apply list_elem_of_filter in Hm as [_ Hm].
    rewrite Forall_forall in Hall. apply Hall. exact Hm.
Qed.

Lemma legal_moves_start_on_own_piece_witness :
  Forall (starts_on_own_piece capture_board LIGHT) [[Idx 0 0; Idx 2 2]].
Proof.
  apply (legal_moves_start_on_own_piece 17 5 LIGHT capture_board capture_board).
  vm_compute. reflexivity.
Defined.

(** X13: [CheckersState(rows, columns)] is rejected exactly when a count
    is below 3 or the rows are even and the columns odd; otherwise it is an
    empty well-formed board of that shape with the light player to move, a
    ply count of 0 and no cached moves. *)
Theorem new_state_valid_shape (rows columns : Z) :
  (rows < 3 \/ columns < 3 \/ (rows mod 2 = 0 /\ columns mod 2 = 1) ->
   new_state rows columns = Raise (ValueError InvalidStateShape))
  /\ (3 <= rows -> 3 <= columns -> ~ (rows mod 2 = 0 /\ columns mod 2 = 1) ->
      exists b, new_state rows columns = Ret (State b LIGHT 0 None)
                /\ row_count b = rows /\ column_count b = columns /\ wf_board b
                /\ board_items b = []).
Proof.
  unfold new_state. split.
  - intros [H|[H|[H1 H2]]].
    + apply Z.ltb_lt in H. rewrite H. reflexivity.
    + destruct (rows <? 3); [reflexivity|]. apply Z.ltb_lt in H. rewrite H. reflexivity.
    + destruct (rows <? 3); [reflexivity|]. destruct (columns <? 3); [reflexivity|].
      rewrite H1, H2. reflexivity.
  - intros Hr Hc Hpar.
    destruct (rows <? 3) eqn:E1; [apply Z.ltb_lt in E1; lia|].
    destruct (columns <? 3) eqn:E2; [apply Z.ltb_lt in E2; lia|].
    destruct ((rows mod 2 =? 0) && (columns mod 2 =? 1)) eqn:E3.
    { apply andb_true_iff in E3 as [E3 E4]. apply Z.eqb_eq in E3, E4. tauto. }
    destruct (new_board_spec rows columns) as [_ Hnew].
    destruct Hnew as (b & Hb & Hrows & Hcols & Hwf & _ & Hitems); [lia|].
    exists b. rewrite Hb. simpl. split; [reflexivity|].
    split; [exact Hrows|]. split; [exact Hcols|]. split; [exact Hwf|exact Hitems].
Qed.

Lemma new_state_valid_shape_witness :
  exists b, new_state 10 10 = Ret (State b LIGHT 0 None)
            /\ row_count b = 10 /\ column_count b = 10 /\ wf_board b
            /\ board_items b = [].
Proof.
  apply (new_state_valid_shape 10 10); [lia | lia |].
  intros [_ H]. vm_compute in H. discriminate H.
Defined.

Lemma state_apply_effects (fuel lfuel : nat) (s s' : CheckersState)
    (move : CheckersMove) :
  state_apply fuel lfuel s move = (Ret tt, s') ->
  (exists moves s1, legal_moves fuel lfuel s = (Ret moves, s1) /\ move ∈ moves)
  /\ _current_player s' = other_player (_current_player s)
  /\ _ply_count s' = _ply_count s + 1
  /\ _cached_legal_moves s' = None
  /\ apply lfuel move (_board s) = (Ret tt, _board s').
Proof.
  unfold state_apply.
  destruct (legal_moves fuel lfuel s) as [[moves| |] s1] eqn:Hlegal; try discriminate.
  pose proof (legal_moves_frame _ _ _ _ _ Hlegal) as (Hb & Hp & Hn & _).
  destruct (move_mem move moves) eqn:Hmem; simpl; [|discriminate].
  destruct (apply lfuel move (_board s1)) as [[u| |] b'] eqn:Happ; try discriminate.
  rewrite player_next_returns. intros [= <-]. simpl.
  split; [|split; [congruence|split; [congruence|split; [reflexivity|]]]].
  - exists moves, s1. split; [reflexivity|].
    apply (proj2 (move_eqb_spec move move moves)). exact Hmem.
  - rewrite <- Hb. destruct u. exact Happ.
Qed.

(** X14: a successful [CheckersState.apply] was given one of the legal
    moves; it hands the turn to the other player, adds one to the ply
    count, empties the cache of legal moves, and its board is the old board
    with the move applied by the rules. *)
Theorem state_apply_advances (fuel lfuel : nat) (s s' : CheckersState)
    (move : CheckersMove) :
  state_apply fuel lfuel s move = (Ret tt, s') ->
  (exists moves s1, legal_moves fuel lfuel s = (Ret moves, s1) /\ move ∈ moves)
  /\ _current_player s' = other_player (_current_player s)
  /\ _ply_count s' = _ply_count s + 1
  /\ _cached_legal_moves s' = None
  /\ apply lfuel move (_board s) = (Ret tt, _board s').
Proof.
  exact (state_apply_effects fuel lfuel s s' move).
Qed.

Lemma state_apply_advances_witness :
  _current_player
    (snd (state_apply 17 5 (State capture_board LIGHT 0 None) [Idx 0 0; Idx 2 2]))
  = other_player LIGHT
  /\ _ply_count
       (snd (state_apply 17 5 (State capture_board LIGHT 0 None) [Idx 0 0; Idx 2 2]))
     = 0 + 1.
Proof.
  pose proof (state_apply_advances 17 5 (State capture_board LIGHT 0 None)
                (snd (state_apply 17 5 (State capture_board LIGHT 0 None) [Idx 0 0; Idx 2 2]))
                [Idx 0 0; Idx 2 2] eq_refl) as (_ & Hp & Hn & _).
  split; [exact Hp|exact Hn].
Defined.

(** X15: reading [legal_moves] changes nothing but the cache, and reading
    it again returns the same moves from the cache, leaving the state as it
    is. *)
Theorem legal_moves_cached (fuel lfuel : nat) (s s1 : CheckersState)
    (moves : list CheckersMove) :
  legal_moves fuel lfuel s = (Ret moves, s1) ->
  _board s1 = _board s /\ _current_player s1 = _current_player s
  /\ _ply_count s1 = _ply_count s
  /\ legal_moves fuel lfuel s1 = (Ret moves, s1).
Proof.
  intros Hlegal.
  pose proof (legal_moves_frame _ _ _ _ _ Hlegal) as (Hb & Hp & Hn & Hc).
  repeat split; try assumption.
  unfold legal_moves. rewrite Hc. reflexivity.
Qed.

Lemma legal_moves_cached_witness :
  legal_moves 17 5 (State capture_board LIGHT 0 (Some [[Idx 0 0; Idx 2 2]]))
  = (Ret [[Idx 0 0; Idx 2 2]], State capture_board LIGHT 0 (Some [[Idx 0 0; Idx 2 2]])).
Proof.
  apply (legal_moves_cached 17 5 (State capture_board LIGHT 0 None)).
  vm_compute. reflexivity.
Defined.

(* ================================================================== *)
(** ** Further properties of the solver *)

Lemma score_bands (r : CheckersGameResult) (player : CheckersPlayer) (score : float) :
  0 < total_ply_count r ->
  determine_score (Some r) player = Ret score ->
  (0 < float_value score /\ float_value score < 1)%Q
  /\ (winner r = Some (other_player player) ->
      (float_value score <= float_value float_0_2)%Q)
  /\ (winner r = None ->
      (5 # 10 < float_value score /\ float_value score <= 7 # 10)%Q)
  /\ (winner r = Some player -> (8 # 10 <= float_value score)%Q).
Proof.
  intros Hpos Hscore. destruct r as [w t]. cbn [total_ply_count winner] in *.
  destruct (Z_lt_le_dec t FLOAT_OVERFLOW) as [Hhi|Hhi];
    [|rewrite determine_score_overflow in Hscore by assumption; discriminate].
  destruct (determine_score_of_scores player t ltac:(lia))
    as (draw & win & loss & _ & Hb & Hdraw & Hwin & Hloss).
  destruct Hb as (_ & _ & _ & Hl_lo & Hl_hi & Hd_lo & Hd_hi & Hw_lo & Hw_hi).
  assert (H02 : (float_value float_0_2 < 5 # 10)%Q) by (vm_compute; reflexivity).
  unfold win_at in Hwin, Hloss.
  destruct w as [w|].
  - destruct (player_eqb w player) eqn:Hw.
    + apply player_eqb_eq in Hw as ->.
      assert (score = win) by congruence. subst score.
      split; [split; lra|]. split; [destruct player; discriminate|].
      split; [discriminate|]. intros _. assumption.
    + assert (Ew : w = other_player player).
      { destruct w, player; try reflexivity; discriminate. }
      subst w. assert (score = loss) by congruence. subst score.
      split; [split; lra|]. split; [intros _; assumption|].
      split; [discriminate|]. intros [= E]. destruct player; discriminate.
  - assert (score = draw) by congruence. subst score.
    split; [split; lra|]. split; [discriminate|].
    split; [intros _; split; assumption|discriminate].
Qed.

(** X16: the bands of the score. For a result with a positive ply count
    that converts to a float (below [2 ^ 1024 - 2 ^ 970]) a score is
    returned, and its value lies strictly between 0 and 1: a loss scores at
    most the float 0.2, a draw above 0.5 and at most 0.7, a win at least
    0.8, so the score 0.5 of an undecided playout lies above every loss and
    below every draw. From [2 ^ 1024 - 2 ^ 970] plies on [determine_score]
    raises [OverflowError]. *)
Theorem determine_score_bands (r : CheckersGameResult) (player : CheckersPlayer) :
  0 < total_ply_count r ->
  (total_ply_count r < FLOAT_OVERFLOW ->
   exists score undecided : float,
     determine_score (Some r) player = Ret score
     /\ determine_score None player = Ret undecided
     /\ (float_value undecided == 5 # 10)%Q
     /\ (0 < float_value score /\ float_value score < 1)%Q
     /\ (winner r = Some (other_player player) ->
         (float_value score <= float_value float_0_2
          /\ float_value score < float_value undecided)%Q)
     /\ (winner r = None ->
         (float_value undecided < float_value score /\ float_value score <= 7 # 10)%Q)
     /\ (winner r = Some player -> (8 # 10 <= float_value score)%Q))
  /\ (FLOAT_OVERFLOW <= total_ply_count r ->
      determine_score (Some r) player = Raise OverflowError).
Proof.
  intros Hpos. split.
  - intros Hhi. destruct r as [w t]. cbn [total_ply_count winner] in *.
    destruct (determine_score_of_scores player t ltac:(lia))
      as (draw & win & loss & _ & _ & Hdraw & Hwin & Hloss).
    assert (Hret : exists score, determine_score (Some (Result w t)) player = Ret score).
    { unfold win_at in Hwin, Hloss. destruct w as [w|]; [|eauto].
      destruct (player_eqb w player) eqn:Hw.
      - apply player_eqb_eq in Hw as ->. eauto.
      - assert (Ew : w = other_player player)
          by (destruct w, player; try reflexivity; discriminate).
        subst w. eauto. }
    destruct Hret as [score Hscore].
    destruct (score_bands (Result w t) player score Hpos Hscore)
      as (H01 & Hloss_band & Hdraw_band & Hwin_band).
    cbn [winner] in *.
    assert (H02 : (float_value float_0_2 < 5 # 10)%Q) by (vm_compute; reflexivity).
    exists score, float_0_5.
    split; [assumption|]. split; [reflexivity|]. split; [reflexivity|].
    assert (H05 : (float_value float_0_5 == 5 # 10)%Q) by reflexivity.
    split; [assumption|].
    split; [intros E; specialize (Hloss_band E); rewrite H05; split; lra|].
    split; [intros E; specialize (Hdraw_band E); rewrite H05; split; lra|].
    assumption.
  - intros Hhi. destruct r as [w t]. apply determine_score_overflow. assumption.
Qed.

Lemma determine_score_bands_witness :
  exists score undecided : float,
    determine_score (Some (Result None 30)) LIGHT = Ret score
    /\ determine_score None LIGHT = Ret undecided
    /\ (float_value undecided == 5 # 10)%Q
    /\ (0 < float_value score /\ float_value score < 1)%Q
    /\ (winner (Result None 30) = Some (other_player LIGHT) ->
        (float_value score <= float_value float_0_2
         /\ float_value score < float_value undecided)%Q)
    /\ (winner (Result None 30) = None ->
        (float_value undecided < float_value score /\ float_value score <= 7 # 10)%Q)
    /\ (winner (Result None 30) = Some LIGHT -> (8 # 10 <= float_value score)%Q).
Proof.
  apply (determine_score_bands (Result None 30) LIGHT); [simpl; lia|].
  vm_compute. reflexivity.
Defined.







(** X18: cancellation.  On a state with two or more legal moves and a
    positive budget, if the flag reads as set, the search returns no move:
    one playout is started and stops at its first check, no random number
    is drawn and the searched state is only changed in its cache. *)
Theorem search_cancelled (fuel lfuel pfuel : nat) (stdev : list Q -> Q)
    (state state1 start : CheckersState) (m1 m2 : CheckersMove) (rest : list CheckersMove)
    (n : Z) (w : World) :
  legal_moves fuel lfuel state = (Ret (m1 :: m2 :: rest), state1) ->
  state_apply fuel lfuel state1 m1 = (Ret tt, start) ->
  0 < n -> (0 < pfuel)%nat -> always_cancelled w ->
  exists w',
    pure_monte_carlo_game_search fuel lfuel pfuel stdev state n w = (Ret None, state1, w')
    /\ playouts_run w' = S (playouts_run w) /\ draw_count w' = draw_count w.
Proof.
  intros Hlegal Happly Hn Hpfuel Hcancel.
  unfold pure_monte_carlo_game_search. rewrite Hlegal.
  cbn [score_moves]. unfold determine_score_for_move.
  destruct (n <=? 0) eqn:E; [apply Z.leb_le in E; lia|].
  rewrite Happly.
  destruct (Z.to_nat n) as [|k] eqn:Hk; [lia|].
  cbn [playouts]. unfold run_playout.
  destruct pfuel as [|p]; [lia|].
  cbn [playout_loop]. unfold is_set at 1. cbn [cancel_reads count_playout read_count].
  rewrite Hcancel.
  unfold is_set at 1. cbn [cancel_reads read_count]. rewrite Hcancel.
  unfold is_set at 1. cbn [cancel_reads read_count]. rewrite Hcancel.
  eexists. split; [reflexivity|]. split; reflexivity.
Qed.

Lemma search_cancelled_witness :
  exists w',
    pure_monte_carlo_game_search 17 5 200 no_stdev (State quiet_board LIGHT 0 None) 15
      (MkWorld (fun _ => 0%nat) 0 (fun _ => true) 0 0)
    = (Ret None,
       State quiet_board LIGHT 0 (Some [[Idx 1 0; Idx 0 1]; [Idx 1 0; Idx 2 1]]), w')
    /\ playouts_run w' = 1%nat /\ draw_count w' = 0%nat.
Proof.
  apply (search_cancelled 17 5 200 no_stdev (State quiet_board LIGHT 0 None)
           (State quiet_board LIGHT 0 (Some [[Idx 1 0; Idx 0 1]; [Idx 1 0; Idx 2 1]]))
           (snd (state_apply 17 5
                   (State quiet_board LIGHT 0
                      (Some [[Idx 1 0; Idx 0 1]; [Idx 1 0; Idx 2 1]]))
                   [Idx 1 0; Idx 0 1]))
           [Idx 1 0; Idx 0 1] [Idx 1 0; Idx 2 1] [] 15
           (MkWorld (fun _ => 0%nat) 0 (fun _ => true) 0 0));
    [vm_compute; reflexivity | vm_compute; reflexivity | lia | lia | intros k; reflexivity].
Defined.












(* ================================================================== *)
(** ** Mandatory captures, [clear] and [start_new_game] *)

Lemma for_each_nonempty {A B} (body : A -> outcome (list B)) (a : A) (l : list A)
    (r xs : list B) :
  for_each body (a :: l) = Ret r -> body a = Ret xs -> xs <> [] -> r <> [].
Proof.
  simpl. intros Hfor Hbody Hne. rewrite Hbody in Hfor. simpl in Hfor.
  destruct (for_each body l) as [ys| |]; simpl in Hfor; try discriminate.
  injection Hfor as <-. destruct xs; [contradiction|discriminate].
Qed.

(** A capture search that can still jump, or has jumped already, adds at
    least one move. *)
Lemma add_legal_capturing_moves_nonempty (b : CheckersBoard) (piece : CheckersPiece)
    (lfuel fuel : nat) (visited_squares captured_squares : list Index2D)
    (origin : Index2D) (jumps : list CheckersJump) (moves : list CheckersMove) :
  last visited_squares = Some origin ->
  add_legal_jumps lfuel piece origin captured_squares b = Ret jumps ->
  (2 <= length visited_squares)%nat \/ jumps <> [] ->
  add_legal_capturing_moves fuel lfuel piece visited_squares captured_squares b = Ret moves ->
  moves <> [].
Proof.
  revert visited_squares captured_squares origin jumps moves.
  induction fuel as [|n IH]; intros visited captured origin jumps moves Hlast Hjumps Hcase;
    simpl; [discriminate|].
  rewrite Hlast. simpl. rewrite Hjumps. simpl.
  destruct jumps as [|j js].
  - destruct Hcase as [Hlen|Hne]; [|contradiction].
    destruct (2 <=? Z.of_nat (length visited)) eqn:E; [intros [= <-]; discriminate|].
    apply Z.leb_gt in E. lia.
  - intros Hfor.
    destruct (add_legal_capturing_moves n lfuel piece (visited ++ [destination j])
                (captured ++ [captured_square j]) b) as [xs| |] eqn:Hxs.
    + eapply for_each_nonempty; [exact Hfor|exact Hxs|].
      destruct n as [|n']; [discriminate|].
      pose proof Hxs as Hxs'. simpl in Hxs'. rewrite last_snoc in Hxs'. simpl in Hxs'.
      destruct (add_legal_jumps lfuel piece (destination j)
                  (captured ++ [captured_square j]) b) as [jumps'| |] eqn:Hj';
        simpl in Hxs'; try discriminate.
      eapply (IH _ _ (destination j) jumps'); [apply last_snoc|exact Hj'| |exact Hxs].
      left. rewrite length_app. simpl. destruct visited; [discriminate|simpl; lia].
    + simpl in Hfor. rewrite Hxs in Hfor. discriminate.
    + simpl in Hfor. rewrite Hxs in Hfor. discriminate.
Qed.

Lemma capture_loop_grows (fuel lfuel : nat) (player : CheckersPlayer)
    (squares : list Index2D) (b b' : CheckersBoard) (moves gathered : list CheckersMove) :
  capture_loop fuel lfuel player squares b moves = (Ret gathered, b') ->
  exists added, gathered = moves ++ added.
Proof.
  revert moves. induction squares as [|sq rest IH]; intros moves; simpl.
  - intros [= <- _]. exists []. rewrite app_nil_r. reflexivity.
  - destruct (board_get b sq) as [[piece|]| |] eqn:Hget; try discriminate; [|apply IH].
    destruct (negb (player_eqb (owner piece) player)); [apply IH|].
    destruct (board_set b sq None) as [b1| |] eqn:Hset1; try discriminate.
    destruct (add_legal_capturing_moves fuel lfuel piece [sq] [] b1) as [added| |];
      try discriminate.
    destruct (board_set b1 sq (Some piece)) as [b2| |] eqn:Hset2; try discriminate.
    rewrite (board_set_restore b b1 b2 sq piece Hget Hset1 Hset2).
    intros H. apply IH in H as [added' ->]. exists (added ++ added').
    rewrite app_assoc. reflexivity.
Qed.

Lemma capture_loop_finds (fuel lfuel : nat) (player : CheckersPlayer)
    (squares : list Index2D) (b b' b1 : CheckersBoard) (moves gathered : list CheckersMove)
    (sq : Index2D) (piece : CheckersPiece) (j : CheckersJump) (js : list CheckersJump) :
  sq ∈ squares ->
  board_get b sq = Ret (Some piece) -> owner piece = player ->
  board_set b sq None = Ret b1 ->
  add_legal_jumps lfuel piece sq [] b1 = Ret (j :: js) ->
  capture_loop fuel lfuel player squares b moves = (Ret gathered, b') ->
  gathered <> [].
Proof.
  intros Hin Hget Hown Hset Hjumps.
  revert moves. induction squares as [|sq' rest IH]; intros moves;
    [apply elem_of_nil in Hin; contradiction|].
  simpl. apply elem_of_cons in Hin as [<-|Hin].
  - rewrite Hget.
    assert (Heq : player_eqb (owner piece) player = true) by (apply player_eqb_eq; exact Hown).
    rewrite Heq. simpl. rewrite Hset.
    destruct (add_legal_capturing_moves fuel lfuel piece [sq] [] b1) as [added| |] eqn:Hadd;
      try discriminate.
    destruct (board_set b1 sq (Some piece)) as [b2| |]; try discriminate.
    intros Hrest. apply capture_loop_grows in Hrest as [added' ->].
    assert (Hne : added <> []).
    { apply (add_legal_capturing_moves_nonempty b1 piece lfuel fuel [sq] [] sq (j :: js)
               added eq_refl Hjumps); [right; discriminate|exact Hadd]. }
    destruct moves; simpl; [|discriminate].
    destruct added; [contradiction|discriminate].
  - destruct (board_get b sq') as [[piece'|]| |] eqn:Hget'; try discriminate;
      [|apply IH; exact Hin].
    destruct (negb (player_eqb (owner piece') player)); [apply IH; exact Hin|].
    destruct (board_set b sq' None) as [b1'| |] eqn:Hset1; try discriminate.
    destruct (add_legal_capturing_moves fuel lfuel piece' [sq'] [] b1') as [added| |];
      try discriminate.
    destruct (board_set b1' sq' (Some piece')) as [b2| |] eqn:Hset2; try discriminate.
    rewrite (board_set_restore b b1' b2 sq' piece' Hget' Hset1 Hset2).
    apply IH. exact Hin.
Qed.

(** X21: captures are mandatory.  If a piece of the player, lifted from its
    square, has any legal jump, then [determine_legal_moves] returns at
    least one move and every returned move is a capturing move: no quiet
    move is legal while a capture is possible. *)
Theorem capture_is_mandatory (fuel lfuel : nat) (player : CheckersPlayer)
    (board board' b1 : CheckersBoard) (moves : list CheckersMove)
    (sq : Index2D) (piece : CheckersPiece) (j : CheckersJump) (js : list CheckersJump) :
  determine_legal_moves fuel lfuel player board = (Ret moves, board') ->
  (sq, piece) ∈ board_items board -> owner piece = player ->
  board_set board sq None = Ret b1 ->
  add_legal_jumps lfuel piece sq [] b1 = Ret (j :: js) ->
  moves <> [] /\ Forall (capturing_move board player) moves.
Proof.
  intros Hlegal Hitem Hown Hset Hjumps.
  pose proof Hitem as Hitem'. apply board_items_get in Hitem' as (Hx & Hy & Hget).
  assert (Hsq : sq ∈ board_squares board).
  { apply board_items_spec in Hitem as (x & y & column & Hcol & Hcell & ->).
    apply list_elem_of_In. unfold board_squares. apply in_concat.
    exists (column_squares x column). split.
    - apply list_elem_of_In, elem_of_lookup_imap. exists x, column.
      split; [reflexivity|exact Hcol].
    - unfold column_squares. apply in_map_iff. exists y. split; [reflexivity|].
      apply in_seq. apply lookup_lt_Some in Hcell. lia. }
  unfold determine_legal_moves in Hlegal.
  destruct (capture_loop fuel lfuel player (board_squares board) board [])
    as [[gathered| |] b2] eqn:Hloop; try discriminate.
  pose proof (capture_loop_finds _ _ _ _ _ _ _ _ _ _ _ _ _ Hsq Hget Hown Hset Hjumps Hloop)
    as Hne.
  pose proof (capture_loop_captures _ _ _ _ _ _ _ _ (Forall_nil_2 _) Hloop) as Hcap.
  destruct (max_move_length_spec gathered Hne) as (_ & mtop & Htop & Hlen).
  destruct gathered as [|m0 ms] eqn:Hg; [contradiction|]. rewrite <- Hg in *.
  injection Hlegal as <- _. split.
  - intros Hnil.
    assert (Hin : mtop ∈ filter (fun move => move_len move = max_move_length gathered)
                           gathered)
      by (apply list_elem_of_filter; split; assumption).
    rewrite Hnil in Hin. apply elem_of_nil in Hin. exact Hin.
  - apply Forall_forall. intros m Hm. apply list_elem_of_filter in Hm as [_ Hm].
    rewrite Forall_forall in Hcap. apply Hcap. exact Hm.
Qed.

Lemma capture_is_mandatory_witness :
  [[Idx 0 0; Idx 2 2]] <> [] /\ Forall (capturing_move capture_board LIGHT) [[Idx 0 0; Idx 2 2]].
Proof.
  apply (capture_is_mandatory 17 5 LIGHT capture_board capture_board
           (Board 4 4 [[None; None; None; None]; [None; dark_man; None; None];
                       [None; None; None; None]; [None; None; None; None]])
           [[Idx 0 0; Idx 2 2]] (Idx 0 0) (Piece LIGHT MAN)
           (Jump (Idx 2 2) (Idx 1 1)) []);
    [vm_compute; reflexivity | left | reflexivity | reflexivity | reflexivity].
Defined.

Lemma idx_mem_true (a : Index2D) (l : list Index2D) : idx_mem a l = true <-> In a l.
Proof.
  unfold idx_mem. rewrite existsb_exists. split.
  - intros (x & Hin & Hx). apply idx_eqb_eq in Hx as ->. exact Hin.
  - intros Hin. exists a. split; [exact Hin|apply idx_eqb_refl].
Qed.

Lemma clear_loop_spec (squares : list Index2D) (b : CheckersBoard) :
  wf_board b -> (forall sq, In sq squares -> in_board b sq = true) ->
  exists b',
    clear_loop squares b = (Ret tt, b')
    /\ wf_board b' /\ row_count b' = row_count b /\ column_count b' = column_count b
    /\ forall j, in_board b j = true ->
         board_get b' j = if idx_mem j squares then Ret None else board_get b j.
Proof.
  revert b. induction squares as [|sq rest IH]; intros b Hwf Hin.
  - exists b. simpl. split; [reflexivity|]. split; [exact Hwf|].
    split; [reflexivity|]. split; [reflexivity|]. intros j _. reflexivity.
  - assert (Hsq : in_board b sq = true) by (apply Hin; left; reflexivity).
    simpl clear_loop. destruct (board_get_in b sq Hwf Hsq) as [[piece|] Hget]; rewrite Hget.
    + destruct (board_set_in b sq None Hwf Hsq) as [b1 Hset]. rewrite Hset.
      pose proof (board_set_wf _ _ _ _ Hwf Hset) as Hwf1.
      pose proof (board_set_shape _ _ _ _ Hset) as (Hr1 & Hc1 & _).
      destruct (IH b1 Hwf1) as (b' & Hloop & Hwf' & Hr & Hc & Hcells).
      { intros sq' Hsq'. rewrite (board_set_in_board _ _ _ _ _ Hset). apply Hin.
        right. exact Hsq'. }
      exists b'. split; [exact Hloop|]. split; [exact Hwf'|].
      split; [congruence|]. split; [congruence|].
      intros j Hj. rewrite Hcells by (rewrite (board_set_in_board _ _ _ _ _ Hset); exact Hj).
      simpl. destruct (idx_eqb j sq) eqn:Hjs.
      * apply idx_eqb_eq in Hjs as ->. simpl.
        destruct (idx_mem sq rest); [reflexivity|].
        eapply board_set_get_eq. exact Hset.
      * simpl. destruct (idx_mem j rest); [reflexivity|].
        apply (board_set_get_ne _ _ _ _ _ Hset);
          try (apply (diagonal_step_nonneg b); assumption).
        intros ->. rewrite idx_eqb_refl in Hjs. discriminate.
    + destruct (IH b Hwf) as (b' & Hloop & Hwf' & Hr & Hc & Hcells).
      { intros sq' Hsq'. apply Hin. right. exact Hsq'. }
      exists b'. split; [exact Hloop|]. split; [exact Hwf'|].
      split; [exact Hr|]. split; [exact Hc|].
      intros j Hj. rewrite Hcells by exact Hj. simpl.
      destruct (idx_eqb j sq) eqn:Hjs; [|reflexivity].
      apply idx_eqb_eq in Hjs as ->. simpl.
      destruct (idx_mem sq rest); [reflexivity|]. exact Hget.
Qed.

Lemma place_column_spec (piece : CheckersPiece) (x : Z) (ys : list Z) (b : CheckersBoard) :
  wf_board b -> (forall y, In y ys -> in_board b (Idx x y) = true) ->
  exists b',
    place_column piece x ys b = (Ret tt, b')
    /\ wf_board b' /\ row_count b' = row_count b /\ column_count b' = column_count b
    /\ forall j, in_board b j = true ->
         board_get b' j
         = if (ix j =? x) && existsb (Z.eqb (iy j)) ys && ((ix j + iy j) mod 2 =? 0)
           then Ret (Some piece) else board_get b j.
Proof.
  revert b. induction ys as [|y rest IH]; intros b Hwf Hin.
  - exists b. simpl. split; [reflexivity|]. split; [exact Hwf|].
    split; [reflexivity|]. split; [reflexivity|].
    intros j _. rewrite andb_false_r. reflexivity.
  - assert (Hsq : in_board b (Idx x y) = true) by (apply Hin; left; reflexivity).
    simpl place_column. destruct ((x + y) mod 2 =? 0) eqn:Heven.
    + destruct (board_set_in b (Idx x y) (Some piece) Hwf Hsq) as [b1 Hset]. rewrite Hset.
      pose proof (board_set_wf _ _ _ _ Hwf Hset) as Hwf1.
      pose proof (board_set_shape _ _ _ _ Hset) as (Hr1 & Hc1 & _).
      destruct (IH b1 Hwf1) as (b' & Hloop & Hwf' & Hr & Hc & Hcells).
      { intros y' Hy'. rewrite (board_set_in_board _ _ _ _ _ Hset). apply Hin.
        right. exact Hy'. }
      exists b'. split; [exact Hloop|]. split; [exact Hwf'|].
      split; [congruence|]. split; [congruence|].
      intros j Hj. rewrite Hcells by (rewrite (board_set_in_board _ _ _ _ _ Hset); exact Hj).
      simpl existsb.
      destruct ((ix j =? x) && existsb (Z.eqb (iy j)) rest && ((ix j + iy j) mod 2 =? 0))
        eqn:Hrest.
      * apply andb_true_iff in Hrest as [Hrest He].
        apply andb_true_iff in Hrest as [Hx Hex].
        rewrite Hx, Hex, He, orb_true_r. reflexivity.
      * destruct (idx_eqb j (Idx x y)) eqn:Hjs.
        -- apply idx_eqb_eq in Hjs as ->. simpl. rewrite !Z.eqb_refl, Heven. simpl.
           eapply board_set_get_eq. exact Hset.
        -- assert (Hne : j <> Idx x y)
             by (intros ->; rewrite idx_eqb_refl in Hjs; discriminate).
           rewrite (board_set_get_ne _ _ _ _ _ Hset);
             try (apply (diagonal_step_nonneg b); assumption); [|exact Hne].
           destruct (ix j =? x) eqn:Hx; [|reflexivity].
           destruct (iy j =? y) eqn:Hy.
           ++ exfalso. apply Hne. apply Z.eqb_eq in Hx, Hy. destruct j. simpl in *. congruence.
           ++ simpl in *. rewrite Hrest. reflexivity.
    + destruct (IH b Hwf) as (b' & Hloop & Hwf' & Hr & Hc & Hcells).
      { intros y' Hy'. apply Hin. right. exact Hy'. }
      exists b'. split; [exact Hloop|]. split; [exact Hwf'|].
      split; [exact Hr|]. split; [exact Hc|].
      intros j Hj. rewrite Hcells by exact Hj. simpl existsb.
      destruct (ix j =? x) eqn:Hx; [|reflexivity].
      destruct (iy j =? y) eqn:Hy; [|reflexivity].
      apply Z.eqb_eq in Hx, Hy. rewrite Hx, Hy, Heven. simpl.
      rewrite andb_false_r. reflexivity.
Qed.

Lemma place_rows_spec (piece : CheckersPiece) (xs : list Z) (y_start y_stop : Z)
    (b : CheckersBoard) :
  wf_board b ->
  (forall x y, In x xs -> In y (py_range y_start y_stop) -> in_board b (Idx x y) = true) ->
  exists b',
    place_rows piece xs y_start y_stop b = (Ret tt, b')
    /\ wf_board b' /\ row_count b' = row_count b /\ column_count b' = column_count b
    /\ forall j, in_board b j = true ->
         board_get b' j
         = if existsb (Z.eqb (ix j)) xs && existsb (Z.eqb (iy j)) (py_range y_start y_stop)
              && ((ix j + iy j) mod 2 =? 0)
           then Ret (Some piece) else board_get b j.
Proof.
  revert b. induction xs as [|x rest IH]; intros b Hwf Hin.
  - exists b. simpl. split; [reflexivity|]. split; [exact Hwf|].
    split; [reflexivity|]. split; [reflexivity|]. intros j _. reflexivity.
  - simpl place_rows.
    destruct (place_column_spec piece x (py_range y_start y_stop) b Hwf)
      as (b1 & Hcol & Hwf1 & Hr1 & Hc1 & Hcells1).
    { intros y Hy. apply Hin; [left; reflexivity|exact Hy]. }
    rewrite Hcol.
    assert (Hsame : forall j, in_board b1 j = in_board b j)
      by (intros j; unfold in_board; rewrite Hr1, Hc1; reflexivity).
    destruct (IH b1 Hwf1) as (b' & Hloop & Hwf' & Hr & Hc & Hcells).
    { intros x' y Hx' Hy. rewrite Hsame. apply Hin; [right; exact Hx'|exact Hy]. }
    exists b'. split; [exact Hloop|]. split; [exact Hwf'|].
    split; [congruence|]. split; [congruence|].
    intros j Hj. rewrite Hcells by (rewrite Hsame; exact Hj).
    rewrite Hcells1 by exact Hj. simpl existsb.
    destruct (existsb (Z.eqb (ix j)) rest); simpl.
    + rewrite orb_true_r. simpl.
      destruct (existsb (Z.eqb (iy j)) (py_range y_start y_stop) && ((ix j + iy j) mod 2 =? 0))
        eqn:E; [reflexivity|].
      destruct (ix j =? x); simpl; [|reflexivity].
      rewrite E. reflexivity.
    + rewrite orb_false_r. reflexivity.
Qed.

Lemma py_range_spec (start stop y : Z) :
  existsb (Z.eqb y) (py_range start stop) = (start <=? y) && (y <? stop).
Proof.
  unfold py_range.
  destruct ((start <=? y) && (y <? stop)) eqn:E.
  - apply andb_true_iff in E as [H1 H2]. apply Z.leb_le in H1. apply Z.ltb_lt in H2.
    apply existsb_exists. exists y. split; [|apply Z.eqb_refl].
    apply in_map_iff. exists (Z.to_nat (y - start)). split; [lia|].
    apply in_seq. lia.
  - destruct (existsb _ _) eqn:E'; [|reflexivity].
    apply existsb_exists in E' as (z & Hz & Hy). apply Z.eqb_eq in Hy as <-.
    apply in_map_iff in Hz as (k & <- & Hk). apply in_seq in Hk.
    apply andb_false_iff in E as [E|E];
      [apply Z.leb_gt in E|apply Z.ltb_ge in E]; lia.
Qed.

Lemma py_range_In (start stop y : Z) : In y (py_range start stop) <-> start <= y < stop.
Proof.
  pose proof (py_range_spec start stop y) as H. split.
  - intros Hin. assert (E : existsb (Z.eqb y) (py_range start stop) = true)
      by (apply existsb_exists; exists y; split; [exact Hin|apply Z.eqb_refl]).
    rewrite H in E. apply andb_true_iff in E as [H1 H2].
    apply Z.leb_le in H1. apply Z.ltb_lt in H2. lia.
  - intros [H1 H2]. apply Z.leb_le in H1. apply Z.ltb_lt in H2.
    rewrite H1, H2 in H. simpl in H. apply existsb_exists in H as (z & Hz & Hy).
    apply Z.eqb_eq in Hy as <-. exact Hz.
Qed.

Lemma state_clear_spec (s : CheckersState) :
  wf_board (_board s) ->
  exists b',
    state_clear s = (Ret tt, State b' LIGHT 0 None)
    /\ wf_board b' /\ row_count b' = row_count (_board s)
    /\ column_count b' = column_count (_board s)
    /\ forall sq, in_board (_board s) sq = true -> board_get b' sq = Ret None.
Proof.
  intros Hwf. unfold state_clear.
  destruct (clear_loop_spec (board_squares (_board s)) (_board s) Hwf)
    as (b' & Hloop & Hwf' & Hr & Hc & Hcells).
  { intros sq. apply board_squares_in_board. exact Hwf. }
  rewrite Hloop. exists b'. split; [reflexivity|]. split; [exact Hwf'|].
  split; [exact Hr|]. split; [exact Hc|].
  intros sq Hsq. rewrite Hcells by exact Hsq.
  assert (Hmem : idx_mem sq (board_squares (_board s)) = true).
  { apply idx_mem_true. apply in_board_squares; assumption. }
  rewrite Hmem. reflexivity.
Qed.

(** X22: [clear()] on a well-formed board succeeds and leaves an empty
    board of the same shape, the light player to move, a ply count of 0 and
    no cached moves. *)
Theorem state_clear_empties (s : CheckersState) :
  wf_board (_board s) ->
  exists s',
    state_clear s = (Ret tt, s')
    /\ _current_player s' = LIGHT /\ _ply_count s' = 0 /\ _cached_legal_moves s' = None
    /\ wf_board (_board s') /\ row_count (_board s') = row_count (_board s)
    /\ column_count (_board s') = column_count (_board s)
    /\ (forall sq, in_board (_board s) sq = true -> board_get (_board s') sq = Ret None)
    /\ board_items (_board s') = [].
Proof.
  intros Hwf. destruct (state_clear_spec s Hwf) as (b' & Hclear & Hwf' & Hr & Hc & Hcells).
  exists (State b' LIGHT 0 None). simpl.
  split; [exact Hclear|]. split; [reflexivity|]. split; [reflexivity|].
  split; [reflexivity|]. split; [exact Hwf'|]. split; [exact Hr|]. split; [exact Hc|].
  split; [exact Hcells|].
  destruct (board_items b') as [|[sq p] rest] eqn:El; [reflexivity|].
  assert (Hin : (sq, p) ∈ board_items b') by (rewrite El; left).
  pose proof Hin as Hin'. apply board_items_get in Hin' as (Hx & Hy & Hget).
  assert (Hsq : in_board b' sq = true).
  { apply board_squares_in_board; [exact Hwf'|].
    apply board_items_spec in Hin as (x & y & column & Hcol & Hcell & ->).
    unfold board_squares. apply in_concat.
    exists (column_squares x column). split.
    - apply list_elem_of_In, elem_of_lookup_imap. exists x, column.
      split; [reflexivity|exact Hcol].
    - unfold column_squares. apply in_map_iff. exists y. split; [reflexivity|].
      apply in_seq. apply lookup_lt_Some in Hcell. lia. }
  assert (Hsq' : in_board (_board s) sq = true)
    by (unfold in_board in *; rewrite <- Hr, <- Hc; exact Hsq).
  rewrite (Hcells sq Hsq') in Hget. discriminate Hget.
Qed.

Lemma state_clear_empties_witness :
  exists s',
    state_clear (State capture_board DARK 7 (Some [])) = (Ret tt, s')
    /\ _current_player s' = LIGHT /\ _ply_count s' = 0 /\ _cached_legal_moves s' = None
    /\ wf_board (_board s') /\ row_count (_board s') = row_count capture_board
    /\ column_count (_board s') = column_count capture_board
    /\ (forall sq, in_board capture_board sq = true -> board_get (_board s') sq = Ret None)
    /\ board_items (_board s') = [].
Proof.
  apply (state_clear_empties (State capture_board DARK 7 (Some []))).
  exact capture_board_wf.
Defined.

(** X23: [start_new_game()] on a well-formed board succeeds; the light
    player is to move, the ply count is 0, no moves are cached, and every
    square of the board holds exactly the piece of the starting position:
    a light man on the squares with even [x + y] of the first
    [(rows - 1) // 2] rows, a dark man on those of the last as many rows,
    and nothing elsewhere. *)
Theorem start_new_game_position (s : CheckersState) :
  wf_board (_board s) ->
  exists s',
    state_start_new_game s = (Ret tt, s')
    /\ _current_player s' = LIGHT /\ _ply_count s' = 0 /\ _cached_legal_moves s' = None
    /\ wf_board (_board s') /\ row_count (_board s') = row_count (_board s)
    /\ column_count (_board s') = column_count (_board s)
    /\ forall sq, in_board (_board s) sq = true ->
         board_get (_board s') sq = Ret (starting_piece (row_count (_board s)) sq).
Proof.
  intros Hwf. pose proof Hwf as (Hrows & Hcols & _).
  destruct (state_clear_spec s Hwf) as (b0 & Hclear & Hwf0 & Hr0 & Hc0 & Hcells0).
  unfold state_start_new_game. rewrite Hclear. cbn [_board _current_player _ply_count
    _cached_legal_moves]. cbv zeta.
  set (rows := row_count (_board s)) in *. set (cols := column_count (_board s)) in *.
  assert (Hocc : 0 <= (rows - 1) / 2 /\ 2 * ((rows - 1) / 2) <= rows - 1).
  { split; [apply Z.div_pos; lia|apply Z.mul_div_le; lia]. }
  rewrite Hr0, Hc0.
  destruct (place_rows_spec (Piece LIGHT MAN) (py_range 0 cols) 0 ((rows - 1) / 2) b0 Hwf0)
    as (b1 & Hlight & Hwf1 & Hr1 & Hc1 & Hcells1).
  { intros x y Hx Hy. apply py_range_In in Hx, Hy. apply in_board_bounds. simpl. lia. }
  rewrite Hlight, Hr1, Hc1, Hr0, Hc0.
  destruct (place_rows_spec (Piece DARK MAN) (py_range 0 cols) (rows - (rows - 1) / 2) rows
              b1 Hwf1) as (b2 & Hdark & Hwf2 & Hr2 & Hc2 & Hcells2).
  { intros x y Hx Hy. apply py_range_In in Hx, Hy. apply in_board_bounds. simpl. lia. }
  rewrite Hdark. eexists. split; [reflexivity|]. simpl.
  split; [reflexivity|]. split; [reflexivity|]. split; [reflexivity|].
  split; [exact Hwf2|]. split; [congruence|]. split; [congruence|].
  intros sq Hsq.
  assert (Hsq0 : in_board b0 sq = true)
    by (unfold in_board in *; rewrite Hr0, Hc0; exact Hsq).
  assert (Hsq1 : in_board b1 sq = true)
    by (unfold in_board in *; rewrite Hr1, Hc1; exact Hsq0).
  rewrite Hcells2 by exact Hsq1. rewrite Hcells1 by exact Hsq0.
  rewrite (Hcells0 sq Hsq). rewrite !py_range_spec.
  apply in_board_bounds in Hsq as [Hx Hy]. fold rows cols in Hx, Hy.
  unfold starting_piece.
  assert (E1 : (0 <=? ix sq) && (ix sq <? cols) = true)
    by (apply andb_true_iff; split; [apply Z.leb_le|apply Z.ltb_lt]; lia).
  rewrite E1. simpl.
  destruct ((ix sq + iy sq) mod 2 =? 0); [|rewrite !andb_false_r; reflexivity].
  rewrite !andb_true_r.
  assert (E2 : (0 <=? iy sq) = true) by (apply Z.leb_le; lia).
  assert (E3 : (iy sq <? rows) = true) by (apply Z.ltb_lt; lia).
  rewrite E2, E3, andb_true_r. simpl.
  destruct (iy sq <? (rows - 1) / 2) eqn:E4.
  - apply Z.ltb_lt in E4.
    destruct (rows - (rows - 1) / 2 <=? iy sq) eqn:E5; [apply Z.leb_le in E5; lia|].
    reflexivity.
  - destruct (rows - (rows - 1) / 2 <=? iy sq); reflexivity.
Qed.

Lemma start_new_game_position_witness :
  exists s',
    state_start_new_game (State capture_board DARK 7 (Some [])) = (Ret tt, s')
    /\ _current_player s' = LIGHT /\ _ply_count s' = 0 /\ _cached_legal_moves s' = None
    /\ wf_board (_board s') /\ row_count (_board s') = row_count capture_board
    /\ column_count (_board s') = column_count capture_board
    /\ forall sq, in_board capture_board sq = true ->
         board_get (_board s') sq = Ret (starting_piece (row_count capture_board) sq).
Proof.
  apply (start_new_game_position (State capture_board DARK 7 (Some []))).
  exact capture_board_wf.
Defined.

(* ================================================================== *)
(** ** The move selectors *)

Lemma random_choice_returns {A} (l : list A) (w : World) :
  l <> [] -> exists x w', random_choice l w = (Ret x, w') /\ x ∈ l.
Proof.
  intros Hne. destruct l as [|a l]; [contradiction|].
  assert (Hlt : (random_draws w (draw_count w) mod length (a :: l) < length (a :: l))%nat)
    by (apply Nat.mod_upper_bound; simpl; lia).
  apply lookup_lt_is_Some in Hlt as [x Hx].
  exists x. eexists. split.
  - unfold random_choice. rewrite Hx. reflexivity.
  - eapply list_elem_of_lookup_2. exact Hx.
Qed.

(** X24: the random selector.  When the legal moves of the state can be
    read, [start] succeeds: with no legal move the selection is [None] and
    no random number is drawn, otherwise the selected move is one of the
    legal moves. *)
Theorem random_selector_picks_legal (fuel lfuel : nat) (state state1 : CheckersState)
    (moves : list CheckersMove) (w : World) :
  legal_moves fuel lfuel state = (Ret moves, state1) ->
  exists selected w',
    random_selector_start fuel lfuel state w = (Ret selected, state1, w')
    /\ (moves = [] -> selected = None /\ w' = w)
    /\ (moves <> [] -> exists move, selected = Some move /\ move ∈ moves).
Proof.
  intros Hlegal. unfold random_selector_start. rewrite Hlegal.
  destruct moves as [|m ms].
  - exists None, w. split; [reflexivity|]. split; [intros _; split; reflexivity|].
    intros H. contradiction.
  - pose proof (legal_moves_frame _ _ _ _ _ Hlegal) as (_ & _ & _ & Hcache).
    assert (Hagain : legal_moves fuel lfuel state1 = (Ret (m :: ms), state1))
      by (unfold legal_moves; rewrite Hcache; reflexivity).
    rewrite Hagain.
    destruct (random_choice_returns (m :: ms) w) as (x & w' & Hchoice & Hx); [discriminate|].
    rewrite Hchoice. exists (Some x), w'. split; [reflexivity|].
    split; [discriminate|]. intros _. exists x. split; [reflexivity|exact Hx].
Qed.

Lemma random_selector_picks_legal_witness :
  exists selected w',
    random_selector_start 17 5 (State quiet_board LIGHT 0 None) quiet_world
    = (Ret selected,
       State quiet_board LIGHT 0 (Some [[Idx 1 0; Idx 0 1]; [Idx 1 0; Idx 2 1]]), w')
    /\ ([[Idx 1 0; Idx 0 1]; [Idx 1 0; Idx 2 1]] = [] -> selected = None /\ w' = quiet_world)
    /\ ([[Idx 1 0; Idx 0 1]; [Idx 1 0; Idx 2 1]] <> [] ->
        exists move, selected = Some move
                     /\ move ∈ [[Idx 1 0; Idx 0 1]; [Idx 1 0; Idx 2 1]]).
Proof.
  apply (random_selector_picks_legal 17 5 (State quiet_board LIGHT 0 None)).
  vm_compute. reflexivity.
Defined.

Lemma matching_moves_In (moves : list CheckersMove) (selected : list Index2D)
    (m : CheckersMove) :
  In m (matching_moves moves selected)
  <-> In m moves /\ (length selected <= length m)%nat /\ starts_with m selected = true.
Proof.
  unfold matching_moves. rewrite filter_In, andb_true_iff, negb_true_iff, Z.ltb_ge. split.
  - intros (H1 & H2 & H3). repeat split; [exact H1|lia|exact H3].
  - intros (H1 & H2 & H3). repeat split; [exact H1|lia|exact H3].
Qed.

Lemma starts_with_prefix (pre rest : list Index2D) : starts_with (pre ++ rest) pre = true.
Proof.
  induction pre as [|s pre IH]; simpl; [destruct rest; reflexivity|].
  rewrite idx_eqb_refl, IH. reflexivity.
Qed.

Lemma starts_with_same_length (m sel : list Index2D) :
  starts_with m sel = true -> length m = length sel -> m = sel.
Proof.
  revert m. induction sel as [|s sel IH]; intros [|x m]; simpl; try discriminate.
  - reflexivity.
  - intros H Hlen. apply andb_true_iff in H as [Hx Hm]. apply idx_eqb_eq in Hx as ->.
    f_equal. apply IH; [exact Hm|lia].
Qed.

Lemma next_squares_In (matching : list CheckersMove) (n : nat) (acc : list Index2D)
    (sq : Index2D) :
  In sq (next_squares matching n acc)
  <-> In sq acc \/ exists m, In m matching /\ m !! n = Some sq.
Proof.
  revert acc. induction matching as [|m rest IH]; intros acc; simpl.
  - split; [intros H; left; exact H|]. intros [H|(m & [] & _)]. exact H.
  - destruct (m !! n) as [s|] eqn:Hs.
    + rewrite IH. unfold set_add. destruct (idx_mem s acc) eqn:Hmem.
      * apply idx_mem_true in Hmem. split.
        -- intros [H|(m' & Hm' & Hn)]; [left; exact H|right; exists m'; split; [right|]; assumption].
        -- intros [H|(m' & [->|Hm'] & Hn)]; [left; exact H| |right; exists m'; split; assumption].
           left. congruence.
      * rewrite in_app_iff. simpl. split.
        -- intros [[H|[<-|[]]]|(m' & Hm' & Hn)]; [left; exact H| |].
           ++ right. exists m. split; [left; reflexivity|exact Hs].
           ++ right. exists m'. split; [right|]; assumption.
        -- intros [H|(m' & [->|Hm'] & Hn)]; [left; left; exact H| |].
           ++ left. right. left. congruence.
           ++ right. exists m'. split; assumption.
    + rewrite IH. split.
      * intros [H|(m' & Hm' & Hn)]; [left; exact H|right; exists m'; split; [right|]; assumption].
      * intros [H|(m' & [->|Hm'] & Hn)]; [left; exact H|congruence|].
        right. exists m'. split; assumption.
Qed.

Lemma NoDup_all_equal {A} (l : list A) (a : A) :
  List.NoDup l -> In a l -> (forall x, In x l -> x = a) -> l = [a].
Proof.
  intros Hnd Hin Hall. destruct l as [|x [|y r]].
  - destruct Hin.
  - f_equal. apply Hall. left. reflexivity.
  - exfalso. assert (x = a) by (apply Hall; left; reflexivity).
    assert (y = a) by (apply Hall; right; left; reflexivity). subst.
    inversion Hnd as [|? ? Hnot _]. apply Hnot. left. reflexivity.
Qed.

Lemma find_none_all {A} (f : A -> bool) (l : list A) :
  (forall x, In x l -> f x = false) -> List.find f l = None.
Proof.
  induction l as [|a l IH]; intros H; simpl; [reflexivity|].
  rewrite (H a) by (left; reflexivity). apply IH. intros x Hx. apply H. right. exact Hx.
Qed.

Lemma update_after_prefix (moves : list CheckersMove) (m : CheckersMove)
    (pre rest sqs : list Index2D) :
  (forall m', In m' moves -> length m' = length m) -> List.NoDup moves -> In m moves ->
  m = pre ++ rest -> (1 <= length m)%nat ->
  update_selectable_squares (UserSelector moves sqs pre None)
  = match rest with
    | [] => Passed (UserSelector moves [] [] (Some m))
    | _ :: _ => Passed (selecting moves pre)
    end.
Proof.
  intros Hsame Hnd Hin Hm Hlen.
  assert (Hmatch : In m (matching_moves moves pre)).
  { apply matching_moves_In. split; [exact Hin|]. split.
    - rewrite Hm, length_app. lia.
    - rewrite Hm. apply starts_with_prefix. }
  assert (Hlens : forall x, In x (matching_moves moves pre) -> length x = length m).
  { intros x Hx. apply matching_moves_In in Hx as (Hx & _). apply Hsame. exact Hx. }
  assert (Hcases : match rest with
                   | [] => matching_moves moves pre = [m] /\ pre = m
                   | _ :: _ => complete_move (matching_moves moves pre) (length pre) = None
                   end).
  { destruct rest as [|sq rest].
    - rewrite app_nil_r in Hm. subst pre. split; [|reflexivity].
      apply NoDup_all_equal;
        [unfold matching_moves; apply List.NoDup_filter; exact Hnd|exact Hmatch|].
      intros x Hx. pose proof (Hlens x Hx) as Hl.
      apply matching_moves_In in Hx as (_ & _ & Hs).
      apply starts_with_same_length; assumption.
    - unfold complete_move. apply find_none_all.
      intros y Hy. apply Hlens in Hy. apply Z.eqb_neq.
      rewrite Hy, Hm, length_app. simpl. lia. }
  unfold update_selectable_squares, selecting.
  cbn [_selected_move _selectable_moves _selected_squares move_is_true].
  destruct moves as [|m0 ms]; [destruct Hin|].
  destruct rest as [|sq rest].
  - destruct Hcases as [-> ->]. unfold complete_move. simpl. rewrite Z.eqb_refl.
    reflexivity.
  - rewrite Hcases.
    destruct (matching_moves (m0 :: ms) pre) as [|x xs]; [destruct Hmatch|]. reflexivity.
Qed.

Lemma click_rest (moves : list CheckersMove) (m : CheckersMove) :
  (forall m', In m' moves -> length m' = length m) -> List.NoDup moves -> In m moves ->
  (1 <= length m)%nat ->
  forall rest pre, m = pre ++ rest -> rest <> [] ->
    click_through (selecting moves pre) rest = Passed (UserSelector moves [] [] (Some m)).
Proof.
  intros Hsame Hnd Hin Hlen. induction rest as [|sq rest IH]; intros pre Hm Hne;
    [contradiction|].
  simpl click_through. unfold user_select.
  assert (Hsq : In sq (_selectable_squares (selecting moves pre))).
  { unfold selecting. simpl. apply next_squares_In. right. exists m. split.
    - apply matching_moves_In. split; [exact Hin|]. split.
      + rewrite Hm, length_app. lia.
      + rewrite Hm. apply starts_with_prefix.
    - rewrite Hm. apply list_lookup_middle. reflexivity. }
  destruct (_selectable_squares (selecting moves pre)) as [|s0 ss] eqn:Hsel; [destruct Hsq|].
  rewrite <- Hsel in *. apply idx_mem_true in Hsq. rewrite Hsq.
  unfold selecting at 1 2 4. cbn [_selectable_moves _selected_squares _selected_move].
  rewrite (update_after_prefix moves m (pre ++ [sq]) rest _ Hsame Hnd Hin)
    by (try exact Hlen; rewrite <- app_assoc; exact Hm).
  destruct rest as [|sq' rest'].
  - reflexivity.
  - apply IH; [rewrite <- app_assoc; exact Hm|discriminate].
Qed.

(** X25: selecting a move square by square.  If the selectable moves are
    pairwise different and all as long as the move [m] among them, then
    after [start], clicking the squares of [m] in order raises no assertion
    and ends with [m] as the selected move and nothing left to select. *)
Theorem user_selects_clicked_move (u0 : UserCheckersMoveSelector)
    (moves : list CheckersMove) (m : CheckersMove) :
  (forall m', In m' moves -> length m' = length m) -> List.NoDup moves -> In m moves ->
  (1 <= length m)%nat ->
  exists u1,
    user_start u0 moves = Passed u1
    /\ _selected_move u1 = None
    /\ click_through u1 m = Passed (UserSelector moves [] [] (Some m)).
Proof.
  intros Hsame Hnd Hin Hlen. exists (selecting moves []). unfold user_start.
  rewrite (update_after_prefix moves m [] m [] Hsame Hnd Hin eq_refl Hlen).
  destruct m as [|sq rest] eqn:Hm; [simpl in Hlen; lia|]. rewrite <- Hm in *.
  split; [reflexivity|]. split; [reflexivity|].
  apply click_rest; try assumption; [reflexivity|rewrite Hm; discriminate].
Qed.

Lemma user_selects_clicked_move_witness :
  exists u1,
    user_start (UserSelector [] [] [] None) [[Idx 1 0; Idx 0 1]; [Idx 1 0; Idx 2 1]]
    = Passed u1
    /\ _selected_move u1 = None
    /\ click_through u1 [Idx 1 0; Idx 2 1]
       = Passed (UserSelector [[Idx 1 0; Idx 0 1]; [Idx 1 0; Idx 2 1]] [] []
                   (Some [Idx 1 0; Idx 2 1])).
Proof.
  apply (user_selects_clicked_move (UserSelector [] [] [] None)
           [[Idx 1 0; Idx 0 1]; [Idx 1 0; Idx 2 1]] [Idx 1 0; Idx 2 1]).
  - intros m' [<-|[<-|[]]]; reflexivity.
  - constructor; [intros [H|[]]; discriminate H|]. constructor; [intros []|constructor].
  - right. left. reflexivity.
  - simpl. lia.
Defined.




(** X27: all legal moves of a position have the same number of squares:
    the common maximum in the capture phase, two otherwise. *)
Theorem legal_moves_same_length (fuel lfuel : nat) (player : CheckersPlayer)
    (board board' : CheckersBoard) (moves : list CheckersMove) (m m' : CheckersMove) :
  determine_legal_moves fuel lfuel player board = (Ret moves, board') ->
  m ∈ moves -> m' ∈ moves -> length m = length m'.
Proof.
  unfold determine_legal_moves.
  destruct (capture_loop fuel lfuel player (board_squares board) board [])
    as [[gathered| |] b1] eqn:Hloop; try discriminate.
  destruct gathered as [|m0 ms].
  - destruct (non_capture_loop lfuel player b1) as [quiet| |] eqn:Hnc; try discriminate.
    intros [= <- _] Hm Hm'.
    assert (Hlen : forall x, x ∈ quiet -> length x = 2%nat).
    { intros x Hx. unfold non_capture_loop in Hnc.
      apply (for_each_elem _ _ _ x Hnc) in Hx as ([origin piece] & xs & _ & Hbody & Hx).
      destruct (negb (player_eqb (owner piece) player)).
      { injection Hbody as <-. apply elem_of_nil in Hx. contradiction. }
      apply (add_legal_non_capturing_moves_spec _ _ _ _ _ _ x) in Hbody.
      apply Hbody in Hx as (delta & n & -> & _). reflexivity. }
    rewrite (Hlen m Hm), (Hlen m' Hm'). reflexivity.
  - intros [= <- _] Hm Hm'.
    apply list_elem_of_filter in Hm as [Hm _]. apply list_elem_of_filter in Hm' as [Hm' _].
    unfold move_len in Hm, Hm'. lia.
Qed.

Lemma legal_moves_same_length_witness :
  length [Idx 1 0; Idx 0 1] = length [Idx 1 0; Idx 2 1].
Proof.
  apply (legal_moves_same_length 17 5 LIGHT quiet_board quiet_board
           [[Idx 1 0; Idx 0 1]; [Idx 1 0; Idx 2 1]]);
    [vm_compute; reflexivity | left | right; left].
Defined.

(* ================================================================== *)
(** ** Applying legal moves, and the choice of the search *)

Lemma nearest_piece_in_board (b : CheckersBoard) (origin delta : Index2D) (lfuel : nat)
    (k : Z) (o : CheckersPlayer) (c : Index2D) :
  nearest_piece lfuel b (idx_add origin (idx_mul delta k)) delta = Ret (Some (o, c)) ->
  exists k', k <= k' /\ c = idx_add origin (idx_mul delta k')
             /\ forall i, k <= i <= k' -> in_board b (idx_add origin (idx_mul delta i)) = true.
Proof.
  revert k. induction lfuel as [|n IH]; intros k; simpl; [discriminate|].
  destruct (in_board b (idx_add origin (idx_mul delta k))) eqn:Hin; [|discriminate].
  destruct (board_get b (idx_add origin (idx_mul delta k))) as [cell| |]; simpl;
    try discriminate.
  destruct cell as [cp|].
  - intros [= <- <-]. exists k. split; [lia|]. split; [reflexivity|].
    intros i Hi. assert (i = k) as -> by lia. exact Hin.
  - rewrite idx_add_mul_succ. intros H. apply IH in H as (k' & Hk' & Hc & Hall).
    exists k'. split; [lia|]. split; [exact Hc|].
    intros i Hi. destruct (Z.eq_dec i k) as [->|Hne]; [exact Hin|apply Hall; lia].
Qed.

Lemma king_landings_in_board (b : CheckersBoard) (origin captured delta : Index2D)
    (lfuel : nat) (n : Z) (jumps : list CheckersJump) :
  king_landings lfuel b captured (idx_add origin (idx_mul delta n)) delta = Ret jumps ->
  Forall (fun jump =>
            exists n', n <= n' /\ destination jump = idx_add origin (idx_mul delta n')
                       /\ forall i, n <= i <= n' ->
                            in_board b (idx_add origin (idx_mul delta i)) = true) jumps.
Proof.
  revert n jumps. induction lfuel as [|m IH]; intros n jumps; simpl; [discriminate|].
  destruct (in_board b (idx_add origin (idx_mul delta n))) eqn:Hin;
    [|intros [= <-]; constructor].
  destruct (board_get b (idx_add origin (idx_mul delta n))) as [cell| |]; simpl;
    try discriminate.
  destruct cell as [cp|]; [intros [= <-]; constructor|].
  rewrite idx_add_mul_succ.
  destruct (king_landings m b captured (idx_add origin (idx_mul delta (n + 1))) delta)
    as [rest| |] eqn:Hrest; simpl; try discriminate.
  intros [= <-]. constructor.
  - simpl. exists n. split; [lia|]. split; [reflexivity|].
    intros i Hi. assert (i = n) as -> by lia. exact Hin.
  - apply IH in Hrest. eapply Forall_impl; [exact Hrest|].
    intros j (n' & Hn' & Hd & Hall). exists n'. split; [lia|]. split; [exact Hd|].
    intros i Hi. destruct (Z.eq_dec i n) as [->|Hne]; [exact Hin|apply Hall; lia].
Qed.

Lemma add_legal_jumps_segment (b : CheckersBoard) (piece : CheckersPiece)
    (origin : Index2D) (captured_squares : list Index2D) (lfuel : nat)
    (jumps : list CheckersJump) :
  add_legal_jumps lfuel piece origin captured_squares b = Ret jumps ->
  Forall (fun jump => in_board_segment b origin (destination jump)) jumps.
Proof.
  unfold add_legal_jumps.
  destruct (type piece); apply for_each_Forall; intros delta xs Hdelta.
  - unfold man_jump. rewrite (idx_add_mul_one origin delta).
    destruct (in_board b (idx_add origin (idx_mul delta 1))) eqn:Hin; simpl;
      [|intros [= <-]; constructor].
    destruct (board_get b (idx_add origin (idx_mul delta 1))) as [cell| |];
      simpl; try discriminate.
    destruct cell as [cp|]; [|intros [= <-]; constructor].
    destruct (player_eqb (owner cp) (owner piece)); [intros [= <-]; constructor|].
    rewrite idx_add_mul_succ.
    destruct (in_board b (idx_add origin (idx_mul delta (1 + 1)))) eqn:Hin'; simpl;
      [|intros [= <-]; constructor].
    destruct (board_get b (idx_add origin (idx_mul delta (1 + 1)))) as [cell'| |];
      simpl; try discriminate.
    destruct cell'; [intros [= <-]; constructor|].
    destruct (idx_mem _ captured_squares); intros [= <-]; constructor; [|constructor].
    simpl. exists delta, 2. split; [exact Hdelta|]. split; [lia|]. split; [reflexivity|].
    intros i Hi. assert (i = 1 \/ i = 2) as [->| ->] by lia; assumption.
  - unfold king_jump. rewrite (idx_add_mul_one origin delta).
    destruct (nearest_piece lfuel b (idx_add origin (idx_mul delta 1)) delta)
      as [found| |] eqn:Hfound; simpl; try discriminate.
    destruct found as [[o c]|]; [|intros [= <-]; constructor].
    apply nearest_piece_in_board in Hfound as (k & Hk & Hc & Hall).
    destruct (player_eqb o (owner piece)); [intros [= <-]; constructor|].
    destruct (idx_mem c captured_squares); [intros [= <-]; constructor|].
    rewrite Hc at 2. rewrite idx_add_mul_succ. intros Hland.
    apply king_landings_in_board in Hland.
    eapply Forall_impl; [exact Hland|].
    intros j (n & Hn & Hd & Hall'). exists delta, n.
    split; [exact Hdelta|]. split; [lia|]. split; [exact Hd|].
    intros i Hi. destruct (Z_le_gt_dec i k); [apply Hall; lia|apply Hall'; lia].
Qed.

Lemma add_legal_capturing_moves_segments (b : CheckersBoard) (piece : CheckersPiece)
    (lfuel fuel : nat) (visited_squares captured_squares : list Index2D)
    (origin : Index2D) (moves : list CheckersMove) :
  last visited_squares = Some origin ->
  add_legal_capturing_moves fuel lfuel piece visited_squares captured_squares b = Ret moves ->
  Forall (fun move => exists rest, move = visited_squares ++ rest /\ segments b origin rest)
         moves.
Proof.
  revert visited_squares captured_squares origin moves.
  induction fuel as [|n IH]; intros visited captured origin moves Hlast; simpl;
    [discriminate|].
  rewrite Hlast. simpl.
  destruct (add_legal_jumps lfuel piece origin captured b) as [jumps| |] eqn:Hjumps;
    simpl; try discriminate.
  apply add_legal_jumps_segment in Hjumps.
  destruct jumps as [|j jumps].
  - destruct (2 <=? Z.of_nat (length visited)); intros [= <-]; constructor; [|constructor].
    exists []. rewrite app_nil_r. split; [reflexivity|exact I].
  - apply for_each_Forall. intros jump xs Hjump Hxs.
    rewrite Forall_forall in Hjumps. specialize (Hjumps jump Hjump).
    apply (IH _ _ (destination jump)) in Hxs; [|apply last_snoc].
    eapply Forall_impl; [exact Hxs|].
    intros move (rest & -> & Hseg). exists (destination jump :: rest). split.
    + rewrite <- app_assoc. reflexivity.
    + simpl. split; assumption.
Qed.

Lemma segments_same_shape (b b' : CheckersBoard) (a : Index2D) (rest : list Index2D) :
  row_count b' = row_count b -> column_count b' = column_count b ->
  segments b a rest -> segments b' a rest.
Proof.
  intros Hr Hc. revert a. induction rest as [|c rest IH]; intros a; simpl; [trivial|].
  intros [(delta & n & Hd & Hn & Hcn & Hall) Hrest]. split; [|apply IH; exact Hrest].
  exists delta, n. split; [exact Hd|]. split; [exact Hn|]. split; [exact Hcn|].
  intros i Hi. unfold in_board. rewrite Hr, Hc. apply Hall. exact Hi.
Qed.

Lemma board_items_in_board (b : CheckersBoard) (sq : Index2D) (p : CheckersPiece) :
  wf_board b -> (sq, p) ∈ board_items b -> in_board b sq = true.
Proof.
  intros Hwf Hin. apply board_squares_in_board; [exact Hwf|].
  apply board_items_spec in Hin as (x & y & column & Hcol & Hcell & ->).
  unfold board_squares. apply in_concat.
  exists (column_squares x column). split.
  - apply list_elem_of_In, elem_of_lookup_imap. exists x, column.
    split; [reflexivity|exact Hcol].
  - unfold column_squares. apply in_map_iff. exists y. split; [reflexivity|].
    apply in_seq. apply lookup_lt_Some in Hcell. lia.
Qed.

Lemma segment_length_bound (b : CheckersBoard) (a delta : Index2D) (n : Z) :
  delta ∈ DIAGONAL_DIRECTIONS -> 1 <= n ->
  (forall i, 1 <= i <= n -> in_board b (idx_add a (idx_mul delta i)) = true) ->
  n <= column_count b.
Proof.
  intros Hd Hn Hall. apply diagonal_unit_step in Hd.
  pose proof (Hall 1 ltac:(lia)) as H1. pose proof (Hall n ltac:(lia)) as H2.
  apply in_board_bounds in H1 as [H1 _]. apply in_board_bounds in H2 as [H2 _].
  unfold idx_add, idx_mul in H1, H2. simpl in H1, H2.
  destruct Hd as [Hd|Hd]; rewrite Hd in H1, H2; lia.
Qed.

Lemma remove_captured_returns (lfuel : nat) (ext : list Index2D) :
  forall (a : Index2D) (b : CheckersBoard),
    wf_board b -> column_count b < Z.of_nat lfuel -> segments b a ext ->
    exists b',
      remove_captured lfuel (consecutive_pairs (a :: ext)) b = (Ret tt, b')
      /\ wf_board b' /\ row_count b' = row_count b /\ column_count b' = column_count b.
Proof.
  induction ext as [|c rest IH]; intros a b Hwf Hfuel Hseg.
  - exists b. simpl. split; [reflexivity|]. split; [exact Hwf|]. split; reflexivity.
  - destruct Hseg as [(delta & n & Hd & Hn & -> & Hall) Hrest].
    pose proof (segment_length_bound b a delta n Hd Hn Hall) as Hbound.
    destruct (remove_pieces_between_spec lfuel a delta n b Hwf Hd Hn)
      as (b1 & Hrm & Hwf1 & Hr1 & Hc1 & _); [lia| |].
    { intros k Hk. apply Hall. lia. }
    destruct (IH (idx_add a (idx_mul delta n)) b1 Hwf1) as (b' & Hrec & Hwf' & Hr & Hc).
    + rewrite Hc1. exact Hfuel.
    + eapply segments_same_shape; [exact Hr1|exact Hc1|exact Hrest].
    + exists b'. split.
      * change (consecutive_pairs (a :: idx_add a (idx_mul delta n) :: rest))
          with ((a, idx_add a (idx_mul delta n))
                  :: consecutive_pairs (idx_add a (idx_mul delta n) :: rest)).
        cbn [remove_captured]. rewrite Hrm. exact Hrec.
      * split; [exact Hwf'|]. split; congruence.
Qed.

Lemma segments_last_in_board (b : CheckersBoard) (ext : list Index2D) :
  forall a d, in_board b a = true -> segments b a ext -> last (a :: ext) = Some d ->
              in_board b d = true.
Proof.
  induction ext as [|c rest IH]; intros a d Ha Hseg Hlast.
  - simpl in Hlast. injection Hlast as <-. exact Ha.
  - destruct Hseg as [(delta & n & Hd & Hn & Hc & Hall) Hrest].
    apply (IH c d); [rewrite Hc; apply Hall; lia|exact Hrest|].
    rewrite <- Hlast. reflexivity.
Qed.

Lemma apply_applicable (lfuel : nat) (move : CheckersMove) (b : CheckersBoard) :
  wf_board b -> column_count b < Z.of_nat lfuel -> applicable b move ->
  exists b', apply lfuel move b = (Ret tt, b') /\ wf_board b'
             /\ row_count b' = row_count b /\ column_count b' = column_count b.
Proof.
  intros Hwf Hfuel (a & ext & piece & -> & Hne & Ha & Hget & Hseg).
  destruct (last (a :: ext)) as [d|] eqn:Hlast.
  2:{ apply last_None in Hlast. discriminate. }
  pose proof (segments_last_in_board b ext a d Ha Hseg Hlast) as Hd.
  destruct (board_set_in b a None Hwf Ha) as [b1 Hset1].
  pose proof (board_set_wf _ _ _ _ Hwf Hset1) as Hwf1.
  pose proof (board_set_shape _ _ _ _ Hset1) as (Hr1 & Hc1 & _).
  destruct (remove_captured_returns lfuel ext a b1 Hwf1) as (b2 & Hrm & Hwf2 & Hr2 & Hc2).
  { rewrite Hc1. exact Hfuel. }
  { eapply segments_same_shape; [exact Hr1|exact Hc1|exact Hseg]. }
  assert (Hd2 : in_board b2 d = true)
    by (unfold in_board in *; rewrite Hr2, Hc2, Hr1, Hc1; exact Hd).
  unfold apply, move_origin, move_destination. rewrite Hlast.
  cbn [head of_option]. rewrite Hget, Hset1, Hrm.
  match goal with
  | |- context [board_set b2 d ?p] =>
      destruct (board_set_in b2 d p Hwf2 Hd2) as [b3 Hset3]; rewrite Hset3;
      pose proof (board_set_wf _ _ _ _ Hwf2 Hset3) as Hwf3;
      pose proof (board_set_shape _ _ _ _ Hset3) as (Hr3 & Hc3 & _)
  end.
  exists b3. split; [reflexivity|]. split; [exact Hwf3|]. split; congruence.
Qed.

Lemma capture_loop_Forall_in (P : CheckersMove -> Prop) (fuel lfuel : nat)
    (player : CheckersPlayer) (b : CheckersBoard) (squares : list Index2D) :
  (forall sq piece b1 added,
     In sq squares ->
     board_get b sq = Ret (Some piece) ->
     board_set b sq None = Ret b1 ->
     add_legal_capturing_moves fuel lfuel piece [sq] [] b1 = Ret added ->
     Forall P added) ->
  forall (moves gathered : list CheckersMove) (b' : CheckersBoard),
    Forall P moves ->
    capture_loop fuel lfuel player squares b moves = (Ret gathered, b') ->
    Forall P gathered.
Proof.
  induction squares as [|sq rest IH]; intros Hbody moves gathered b' Hmoves; simpl.
  - intros [= <- _]. exact Hmoves.
  - assert (Hbody' : forall sq' piece b1 added,
              In sq' rest -> board_get b sq' = Ret (Some piece) ->
              board_set b sq' None = Ret b1 ->
              add_legal_capturing_moves fuel lfuel piece [sq'] [] b1 = Ret added ->
              Forall P added)
      by (intros sq' piece b1 added Hin; apply Hbody; right; exact Hin).
    destruct (board_get b sq) as [[piece|]| |] eqn:Hget; try discriminate;
      [|apply IH; assumption].
    destruct (negb (player_eqb (owner piece) player)); [apply IH; assumption|].
    destruct (board_set b sq None) as [b1| |] eqn:Hset1; try discriminate.
    destruct (add_legal_capturing_moves fuel lfuel piece [sq] [] b1) as [added| |] eqn:Hadd;
      try discriminate.
    destruct (board_set b1 sq (Some piece)) as [b2| |] eqn:Hset2; try discriminate.
    rewrite (board_set_restore b b1 b2 sq piece Hget Hset1 Hset2).
    apply IH; [exact Hbody'|]. apply Forall_app. split; [exact Hmoves|].
    eapply (Hbody sq); [left; reflexivity|eassumption..].
Qed.

Lemma legal_moves_applicable (fuel lfuel : nat) (player : CheckersPlayer)
    (board board' : CheckersBoard) (moves : list CheckersMove) :
  wf_board board ->
  determine_legal_moves fuel lfuel player board = (Ret moves, board') ->
  Forall (applicable board) moves.
Proof.
  intros Hwf. unfold determine_legal_moves.
  destruct (capture_loop fuel lfuel player (board_squares board) board [])
    as [[gathered| |] b1] eqn:Hloop; try discriminate.
  pose proof (capture_loop_restores _ _ _ _ _ _ _ _ Hloop) as ->.
  destruct gathered as [|m0 ms].
  - destruct (non_capture_loop lfuel player board) as [quiet| |] eqn:Hnc; try discriminate.
    intros [= <- _]. apply Forall_forall. intros m Hm.
    apply (non_capture_moves_quiet fuel lfuel player board board board quiet Hloop) in Hm.
    + destruct Hm as (origin & piece & delta & n & -> & Hitem & Hown & Hn & Hdir & Hall).
      exists origin, [idx_add origin (idx_mul delta n)], piece.
      split; [reflexivity|]. split; [discriminate|].
      split; [eapply board_items_in_board; eassumption|].
      split; [apply board_items_get in Hitem; apply Hitem|].
      simpl. split; [|exact I]. exists delta, n.
      split.
      { destruct (type piece); [|exact Hdir]. destruct Hdir as [_ Hdir].
        destruct player; unfold get_forward_directions, LIGHT_PLAYER_FORWARD_DIRECTIONS,
          DARK_PLAYER_FORWARD_DIRECTIONS, DIAGONAL_DIRECTIONS in *;
          rewrite !elem_of_cons in *; tauto. }
      split; [exact Hn|]. split; [reflexivity|]. intros i Hi. apply Hall. exact Hi.
    + unfold determine_legal_moves. rewrite Hloop, Hnc. reflexivity.
  - intros [= <- _].
    assert (Hall : Forall (applicable board) (m0 :: ms)).
    { eapply (capture_loop_Forall_in _ fuel lfuel player board); [|constructor|exact Hloop].
      intros sq piece b2 added Hin Hget Hset Hadd.
      pose proof (board_set_shape _ _ _ _ Hset) as (Hr & Hc & _).
      pose proof (add_legal_capturing_moves_chains b2 piece lfuel fuel [sq] [] sq added
                    eq_refl Hadd) as Hch.
      apply (add_legal_capturing_moves_segments _ _ _ _ _ _ sq) in Hadd; [|reflexivity].
      apply Forall_forall. intros m Hm.
      rewrite Forall_forall in Hadd, Hch.
      destruct (Hadd m Hm) as (rest & -> & Hseg). destruct (Hch _ Hm) as [Hlen _].
      exists sq, rest, piece. split; [reflexivity|].
      split; [intros ->; simpl in Hlen; lia|].
      split; [apply board_squares_in_board; assumption|].
      split; [exact Hget|].
      eapply (segments_same_shape b2 board); [congruence|congruence|exact Hseg]. }
    apply Forall_forall. intros m Hm. apply list_elem_of_filter in Hm as [_ Hm].
    rewrite Forall_forall in Hall. apply Hall. exact Hm.
Qed.

(** X28: every legal move can be applied.  On a well-formed board, with
    loop fuel above the number of columns, [apply] succeeds on each move
    returned by [determine_legal_moves] and gives a well-formed board of the
    same shape. *)
Theorem legal_moves_can_be_applied (fuel lfuel : nat) (player : CheckersPlayer)
    (board board' : CheckersBoard) (moves : list CheckersMove) (move : CheckersMove) :
  wf_board board -> column_count board < Z.of_nat lfuel ->
  determine_legal_moves fuel lfuel player board = (Ret moves, board') ->
  move ∈ moves ->
  exists b', apply lfuel move board = (Ret tt, b') /\ wf_board b'
             /\ row_count b' = row_count board /\ column_count b' = column_count board.
Proof.
  intros Hwf Hfuel Hlegal Hmove.
  apply legal_moves_applicable in Hlegal; [|exact Hwf].
  rewrite Forall_forall in Hlegal.
  apply apply_applicable; [exact Hwf|exact Hfuel|apply Hlegal; exact Hmove].
Qed.

Lemma legal_moves_can_be_applied_witness :
  exists b', apply 5 [Idx 0 0; Idx 2 2] capture_board = (Ret tt, b') /\ wf_board b'
             /\ row_count b' = row_count capture_board
             /\ column_count b' = column_count capture_board.
Proof.
  apply (legal_moves_can_be_applied 17 5 LIGHT capture_board capture_board
           [[Idx 0 0; Idx 2 2]] [Idx 0 0; Idx 2 2]);
    [exact capture_board_wf | simpl; lia | vm_compute; reflexivity | left].
Defined.

(** X29: playing a legal move never fails.  On a state with a well-formed
    board and a valid cache, [CheckersState.apply] succeeds on each of its
    legal moves, and the new state again has a well-formed board of the same
    shape and a valid (empty) cache. *)
Theorem state_apply_legal_move_succeeds (fuel lfuel : nat) (s s1 : CheckersState)
    (moves : list CheckersMove) (move : CheckersMove) :
  wf_board (_board s) -> column_count (_board s) < Z.of_nat lfuel ->
  cache_valid fuel lfuel s ->
  legal_moves fuel lfuel s = (Ret moves, s1) -> move ∈ moves ->
  exists s',
    state_apply fuel lfuel s move = (Ret tt, s')
    /\ wf_board (_board s') /\ cache_valid fuel lfuel s'
    /\ row_count (_board s') = row_count (_board s)
    /\ column_count (_board s') = column_count (_board s).
Proof.
  intros Hwf Hfuel Hcache Hlegal Hmove.
  pose proof (legal_moves_frame _ _ _ _ _ Hlegal) as (Hb & Hp & Hn & _).
  assert (Hdet : exists board', determine_legal_moves fuel lfuel (_current_player s) (_board s)
                                = (Ret moves, board')).
  { unfold legal_moves in Hlegal. destruct (_cached_legal_moves s) as [cached|] eqn:Hc.
    - injection Hlegal as <- _. apply Hcache. exact Hc.
    - destruct (determine_legal_moves fuel lfuel (_current_player s) (_board s))
        as [[ms| |] b'] eqn:Hd; try discriminate.
      injection Hlegal as <- _. exists b'. reflexivity. }
  destruct Hdet as [board' Hdet].
  pose proof (legal_moves_applicable _ _ _ _ _ _ Hwf Hdet) as Happl.
  rewrite Forall_forall in Happl.
  destruct (apply_applicable lfuel move (_board s) Hwf Hfuel (Happl move Hmove))
    as (b' & Happ & Hwf' & Hr & Hc).
  unfold state_apply. rewrite Hlegal.
  assert (Hmem : move_mem move moves = true)
    by (apply (proj2 (move_eqb_spec move move moves)); exact Hmove).
  rewrite Hmem. simpl. rewrite Hb, Happ, player_next_returns.
  eexists. split; [reflexivity|]. simpl.
  split; [exact Hwf'|]. split; [intros ms Hms; discriminate Hms|]. split; assumption.
Qed.

Lemma state_apply_legal_move_succeeds_witness :
  exists s',
    state_apply 17 5 (State capture_board LIGHT 0 None) [Idx 0 0; Idx 2 2] = (Ret tt, s')
    /\ wf_board (_board s') /\ cache_valid 17 5 s'
    /\ row_count (_board s') = row_count capture_board
    /\ column_count (_board s') = column_count capture_board.
Proof.
  apply (state_apply_legal_move_succeeds 17 5 (State capture_board LIGHT 0 None)
           (State capture_board LIGHT 0 (Some [[Idx 0 0; Idx 2 2]]))
           [[Idx 0 0; Idx 2 2]] [Idx 0 0; Idx 2 2]);
    [exact capture_board_wf | simpl; lia | intros ms H; discriminate H
    | vm_compute; reflexivity | left].
Defined.









